(** * The dev-server module graph and its HMR update channel

    A shallow embedding of [packages/vite/src/node/server/moduleGraph.ts]
    (classes [ModuleNode] and [ModuleGraph]) and of [createWebSocketServer]
    from [server/ws.ts], followed by the properties of the module graph
    (edge symmetry, index consistency, orphan detection, invalidation
    cascade, URL canonicalisation) and of the error buffer of the channel.

    [ModuleNode] objects have identity and are shared between the three
    indices and the edge sets, so they live in a store ([nodes]) and are
    referred to by handle (their index in the store).  A JavaScript
    [Set<ModuleNode>] iterates in insertion order and the code iterates
    them ([forEach], [for .. of] with an early [return]); it is a
    duplicate-free list of handles.  The same holds for [idToModuleMap],
    which [invalidateAll] iterates; the two maps that are only read with
    [get] and written with [set] are finite maps. *)

From stdpp Require Import base option list strings gmap pretty.
From Stdlib Require Import Ascii ZArith.

(** ** JavaScript collections *)

(** [Set<ModuleNode>], as the list of its elements in insertion order.
    [add] appends an element that is not there yet; [delete] removes the
    element wherever it occurs. *)
Module JsSet.

Definition has (s : list nat) (x : nat) : bool := bool_decide (x ∈ s).

Definition add (s : list nat) (x : nat) : list nat :=
  if has s x then s else s ++ [x].

Definition delete (s : list nat) (x : nat) : list nat :=
  filter (λ y, y ≠ x) s.

Definition size (s : list nat) : nat := length s.

End JsSet.

(** [Map<string, V>] in insertion order: [set] on a key that is present
    replaces the value in place, on a new key it appends the entry. *)
Module JsMap.

Fixpoint get {V} (m : list (string * V)) (k : string) : option V :=
  match m with
  | [] => None
  | (k', v) :: m' => if bool_decide (k' = k) then Some v else get m' k
  end.

Fixpoint set {V} (m : list (string * V)) (k : string) (v : V)
  : list (string * V) :=
  match m with
  | [] => [(k, v)]
  | (k', v') :: m' =>
      if bool_decide (k' = k) then (k', v) :: m' else (k', v') :: set m' k v
  end.

Definition values {V} (m : list (string * V)) : list V := m.*2.

End JsMap.

(** [String.prototype.endsWith]: some tail of [s] is [suffix]. *)
Fixpoint endsWith (s suffix : string) : bool :=
  bool_decide (s = suffix) ||
  match s with
  | EmptyString => false
  | String _ s' => endsWith s' suffix
  end.

(** ** What the module graph imports *)

(** The result of Node's [url.parse] as far as [resolveUrl] reads it:
    [pathname], [search] and [hash] are strings or [null]. *)
Record UrlWithStringQuery := {
  pathname : option string;
  search : option string;
  hash : option string
}.

(** rollup's [PartialResolvedId], the fields [resolveUrl] reads. *)
Module PartialResolvedId.
Record t (Meta : Type) := { id : string; meta : option Meta }.
Arguments id {Meta} _.
Arguments meta {Meta} _.
End PartialResolvedId.

(** The imports of [moduleGraph.ts]: the types of rollup and of
    [transformRequest], the helpers of [../utils], [../constants] and
    [../plugins/css], and [extname] and [url.parse] of Node.  Their code
    is outside this development; the graph is verified for any of them. *)
Class Imports := {
  ModuleInfo : Type;
  CustomMeta : Type;
  TransformResult : Type;
  SsrExports : Type;
  cleanUrl : string → string;
  normalizePath : string → string;
  removeImportQuery : string → string;
  removeTimestampQuery : string → string;
  isDirectCSSRequest : string → bool;
  FS_PREFIX : string;
  extname : string → string;
  parseUrl : string → UrlWithStringQuery
}.

Inductive ModuleType := js | css.

(** ** Calls that throw

    A call returns a value or throws; the promise of an [async] method is
    fulfilled with the value or rejected with what was thrown.  What the
    module graph throws by itself is the [TypeError] of a method called on
    [null]. *)
Inductive Error := TypeError.

Inductive Completion (A : Type) :=
  | returned (a : A)
  | thrown (e : Error).
Arguments returned {A} _.
Arguments thrown {A} _.

#[global] Instance Error_eq_dec : EqDecision Error.
Proof. solve_decision. Defined.

#[global] Instance Completion_eq_dec {A} `{EqDecision A} :
  EqDecision (Completion A).
Proof. solve_decision. Defined.

Section ModuleGraph.

Context `{Imports}.

(** ** [class ModuleNode] *)

Record ModuleNode := {
  url : string;
  id : option string;
  file : option string;
  type : ModuleType;
  info : option ModuleInfo;
  meta : option CustomMeta;
  importers : list nat;
  importedModules : list nat;
  acceptedHmrDeps : list nat;
  isSelfAccepting : bool;
  transformResult : option TransformResult;
  ssrTransformResult : option TransformResult;
  ssrModule : option SsrExports;
  lastHMRTimestamp : Z
}.

(** [new ModuleNode(url)] *)
Definition new_ModuleNode (u : string) : ModuleNode := {|
  url := u;
  id := None;
  file := None;
  type := if isDirectCSSRequest u then css else js;
  info := None;
  meta := None;
  importers := [];
  importedModules := [];
  acceptedHmrDeps := [];
  isSelfAccepting := false;
  transformResult := None;
  ssrTransformResult := None;
  ssrModule := None;
  lastHMRTimestamp := 0
|}.

(** Field assignments. *)
Definition set_id (v : option string) (n : ModuleNode) : ModuleNode :=
  {| url := url n; id := v; file := file n; type := type n; info := info n;
     meta := meta n; importers := importers n;
     importedModules := importedModules n;
     acceptedHmrDeps := acceptedHmrDeps n;
     isSelfAccepting := isSelfAccepting n;
     transformResult := transformResult n;
     ssrTransformResult := ssrTransformResult n; ssrModule := ssrModule n;
     lastHMRTimestamp := lastHMRTimestamp n |}.

Definition set_file (v : option string) (n : ModuleNode) : ModuleNode :=
  {| url := url n; id := id n; file := v; type := type n; info := info n;
     meta := meta n; importers := importers n;
     importedModules := importedModules n;
     acceptedHmrDeps := acceptedHmrDeps n;
     isSelfAccepting := isSelfAccepting n;
     transformResult := transformResult n;
     ssrTransformResult := ssrTransformResult n; ssrModule := ssrModule n;
     lastHMRTimestamp := lastHMRTimestamp n |}.

Definition set_info (v : option ModuleInfo) (n : ModuleNode) : ModuleNode :=
  {| url := url n; id := id n; file := file n; type := type n; info := v;
     meta := meta n; importers := importers n;
     importedModules := importedModules n;
     acceptedHmrDeps := acceptedHmrDeps n;
     isSelfAccepting := isSelfAccepting n;
     transformResult := transformResult n;
     ssrTransformResult := ssrTransformResult n; ssrModule := ssrModule n;
     lastHMRTimestamp := lastHMRTimestamp n |}.

Definition set_meta (v : option CustomMeta) (n : ModuleNode) : ModuleNode :=
  {| url := url n; id := id n; file := file n; type := type n; info := info n;
     meta := v; importers := importers n;
     importedModules := importedModules n;
     acceptedHmrDeps := acceptedHmrDeps n;
     isSelfAccepting := isSelfAccepting n;
     transformResult := transformResult n;
     ssrTransformResult := ssrTransformResult n; ssrModule := ssrModule n;
     lastHMRTimestamp := lastHMRTimestamp n |}.

Definition set_importers (v : list nat) (n : ModuleNode) : ModuleNode :=
  {| url := url n; id := id n; file := file n; type := type n; info := info n;
     meta := meta n; importers := v;
     importedModules := importedModules n;
     acceptedHmrDeps := acceptedHmrDeps n;
     isSelfAccepting := isSelfAccepting n;
     transformResult := transformResult n;
     ssrTransformResult := ssrTransformResult n; ssrModule := ssrModule n;
     lastHMRTimestamp := lastHMRTimestamp n |}.

Definition set_importedModules (v : list nat) (n : ModuleNode) : ModuleNode :=
  {| url := url n; id := id n; file := file n; type := type n; info := info n;
     meta := meta n; importers := importers n;
     importedModules := v;
     acceptedHmrDeps := acceptedHmrDeps n;
     isSelfAccepting := isSelfAccepting n;
     transformResult := transformResult n;
     ssrTransformResult := ssrTransformResult n; ssrModule := ssrModule n;
     lastHMRTimestamp := lastHMRTimestamp n |}.

Definition set_acceptedHmrDeps (v : list nat) (n : ModuleNode) : ModuleNode :=
  {| url := url n; id := id n; file := file n; type := type n; info := info n;
     meta := meta n; importers := importers n;
     importedModules := importedModules n;
     acceptedHmrDeps := v;
     isSelfAccepting := isSelfAccepting n;
     transformResult := transformResult n;
     ssrTransformResult := ssrTransformResult n; ssrModule := ssrModule n;
     lastHMRTimestamp := lastHMRTimestamp n |}.

Definition set_isSelfAccepting (v : bool) (n : ModuleNode) : ModuleNode :=
  {| url := url n; id := id n; file := file n; type := type n; info := info n;
     meta := meta n; importers := importers n;
     importedModules := importedModules n;
     acceptedHmrDeps := acceptedHmrDeps n;
     isSelfAccepting := v;
     transformResult := transformResult n;
     ssrTransformResult := ssrTransformResult n; ssrModule := ssrModule n;
     lastHMRTimestamp := lastHMRTimestamp n |}.

Definition set_transformResult (v : option TransformResult) (n : ModuleNode)
  : ModuleNode :=
  {| url := url n; id := id n; file := file n; type := type n; info := info n;
     meta := meta n; importers := importers n;
     importedModules := importedModules n;
     acceptedHmrDeps := acceptedHmrDeps n;
     isSelfAccepting := isSelfAccepting n;
     transformResult := v;
     ssrTransformResult := ssrTransformResult n; ssrModule := ssrModule n;
     lastHMRTimestamp := lastHMRTimestamp n |}.

Definition set_ssrTransformResult (v : option TransformResult)
  (n : ModuleNode) : ModuleNode :=
  {| url := url n; id := id n; file := file n; type := type n; info := info n;
     meta := meta n; importers := importers n;
     importedModules := importedModules n;
     acceptedHmrDeps := acceptedHmrDeps n;
     isSelfAccepting := isSelfAccepting n;
     transformResult := transformResult n;
     ssrTransformResult := v; ssrModule := ssrModule n;
     lastHMRTimestamp := lastHMRTimestamp n |}.

Definition set_ssrModule (v : option SsrExports) (n : ModuleNode)
  : ModuleNode :=
  {| url := url n; id := id n; file := file n; type := type n; info := info n;
     meta := meta n; importers := importers n;
     importedModules := importedModules n;
     acceptedHmrDeps := acceptedHmrDeps n;
     isSelfAccepting := isSelfAccepting n;
     transformResult := transformResult n;
     ssrTransformResult := ssrTransformResult n; ssrModule := v;
     lastHMRTimestamp := lastHMRTimestamp n |}.

(** ** [class ModuleGraph]

    The state of a graph: the store of its [ModuleNode] objects and the
    fields of the class. *)
Record ModuleGraph := {
  nodes : list ModuleNode;
  urlToModuleMap : gmap string nat;
  idToModuleMap : list (string * nat);
  fileToModulesMap : gmap string (list nat);
  safeModulesPath : list string
}.

(** [new ModuleGraph(resolveId)] *)
Definition new_ModuleGraph : ModuleGraph := {|
  nodes := [];
  urlToModuleMap := ∅;
  idToModuleMap := [];
  fileToModulesMap := ∅;
  safeModulesPath := []
|}.

Definition set_nodes (v : list ModuleNode) (g : ModuleGraph) : ModuleGraph :=
  {| nodes := v; urlToModuleMap := urlToModuleMap g;
     idToModuleMap := idToModuleMap g;
     fileToModulesMap := fileToModulesMap g;
     safeModulesPath := safeModulesPath g |}.

Definition set_urlToModuleMap (v : gmap string nat) (g : ModuleGraph)
  : ModuleGraph :=
  {| nodes := nodes g; urlToModuleMap := v;
     idToModuleMap := idToModuleMap g;
     fileToModulesMap := fileToModulesMap g;
     safeModulesPath := safeModulesPath g |}.

Definition set_idToModuleMap (v : list (string * nat)) (g : ModuleGraph)
  : ModuleGraph :=
  {| nodes := nodes g; urlToModuleMap := urlToModuleMap g;
     idToModuleMap := v;
     fileToModulesMap := fileToModulesMap g;
     safeModulesPath := safeModulesPath g |}.

Definition set_fileToModulesMap (v : gmap string (list nat))
  (g : ModuleGraph) : ModuleGraph :=
  {| nodes := nodes g; urlToModuleMap := urlToModuleMap g;
     idToModuleMap := idToModuleMap g;
     fileToModulesMap := v;
     safeModulesPath := safeModulesPath g |}.

(** Reading and writing a node through its handle.  The sets of a handle
    that is not allocated are empty, and writing through it does nothing;
    no operation below produces such a handle. *)
Definition importersOf (g : ModuleGraph) (h : nat) : list nat :=
  from_option importers [] (nodes g !! h).

Definition importedModulesOf (g : ModuleGraph) (h : nat) : list nat :=
  from_option importedModules [] (nodes g !! h).

Definition update (h : nat) (f : ModuleNode → ModuleNode) (g : ModuleGraph)
  : ModuleGraph :=
  set_nodes (alter f h (nodes g)) g.

(** The methods of the class run in a state monad over [ModuleGraph].  A
    method that throws leaves the graph as it was when it threw: what was
    assigned before stays assigned. *)
Definition M (A : Type) : Type := ModuleGraph → Completion A * ModuleGraph.

#[global] Instance M_ret : MRet M := λ A a g, (returned a, g).
#[global] Instance M_bind : MBind M :=
  λ A B k m g,
    match m g with
    | (returned a, g') => k a g'
    | (thrown e, g') => (thrown e, g')
    end.

Definition gets {A} (f : ModuleGraph → A) : M A := λ g, (returned (f g), g).
Definition modify (f : ModuleGraph → ModuleGraph) : M unit :=
  λ g, (returned (), f g).

(** [await p] for a promise [p] that is settled without a write to the
    graph: its value, or what it was rejected with, thrown. *)
Definition await {A} (p : Completion A) : M A := λ g, (p, g).

(** [for (const x of l) body(x)] and [l.forEach(body)] *)
Fixpoint forEach {X} (body : X → M unit) (l : list X) : M unit :=
  match l with
  | [] => mret ()
  | x :: l' => body x ;; forEach body l'
  end.

(** A loop whose body assigns a local variable of the enclosing function
    ([noLongerImported] in [updateModuleInfo]). *)
Fixpoint forEachAcc {X A} (body : A → X → M A) (l : list X) (a : A) : M A :=
  match l with
  | [] => mret a
  | x :: l' => a' ← body a x; forEachAcc body l' a'
  end.

(** The resolver handed to the constructor ([private resolveId]); [await]
    on it yields its result.  The optional [ssr] of the methods is a
    boolean: the resolver is called with [!!ssr]. *)
Variable resolveId : string → bool → option (PartialResolvedId.t CustomMeta).

Definition ResolvedUrl : Type := string * string * option CustomMeta.

(** [resolveUrl(url, ssr)].  The condition [ext && !pathname!.endsWith(ext)]
    reads [pathname] only when there is an extension; the non-null
    assertion is erased by the compiler, so on a [null] pathname the call
    of [endsWith] throws a [TypeError]. *)
Definition resolveUrl (url0 : string) (ssr : bool) : Completion ResolvedUrl :=
  let url1 := removeImportQuery (removeTimestampQuery url0) in
  let resolved := resolveId url1 ssr in
  let resolvedId :=
    match resolved with
    | Some r =>
        if bool_decide (PartialResolvedId.id r = "") then url1
        else PartialResolvedId.id r
    | None => url1
    end in
  let ext := extname (cleanUrl resolvedId) in
  let p := parseUrl url1 in
  if negb (bool_decide (ext = "")) then
    match pathname p with
    | Some path =>
        let url2 :=
          if negb (endsWith path ext)
          then path +:+ ext +:+ default "" (search p) +:+ default "" (hash p)
          else url1 in
        returned (url2, resolvedId, resolved ≫= PartialResolvedId.meta)
    | None => thrown TypeError
    end
  else returned (url1, resolvedId, resolved ≫= PartialResolvedId.meta).

Definition getModuleByUrl (rawUrl : string) (ssr : bool) : M (option nat) :=
  '(u, _, _) ← await (resolveUrl rawUrl ssr);
  gets (λ g, urlToModuleMap g !! u).

Definition getModuleById (i : string) : M (option nat) :=
  gets (λ g, JsMap.get (idToModuleMap g) (removeTimestampQuery i)).

Definition getModulesByFile (f : string) : M (option (list nat)) :=
  gets (λ g, fileToModulesMap g !! f).

(** [new ModuleNode(url)] allocates: the new object gets the next handle. *)
Definition alloc (n : ModuleNode) : M nat :=
  λ g, (returned (length (nodes g)), set_nodes (nodes g ++ [n]) g).

(** [fileMappedModules.add(mod)], on the set stored under [f]. *)
Definition bucket_add (f : string) (mod' : nat) : M unit :=
  modify (λ g, set_fileToModulesMap
    (<[f := JsSet.add (default [] (fileToModulesMap g !! f)) mod']>
       (fileToModulesMap g)) g).

(** [let s = map.get(f); if (!s) { s = new Set(); map.set(f, s) }] *)
Definition bucket_ensure (f : string) : M (list nat) :=
  s ← gets (λ g, fileToModulesMap g !! f);
  match s with
  | Some s => mret s
  | None =>
      modify (λ g, set_fileToModulesMap (<[f := []]> (fileToModulesMap g)) g);;
      mret []
  end.

Definition ensureEntryFromUrl (rawUrl : string) (ssr : bool) : M nat :=
  '(u, resolvedId, meta') ← await (resolveUrl rawUrl ssr);
  found ← gets (λ g, urlToModuleMap g !! u);
  match found with
  | Some mod' => mret mod'
  | None =>
      mod' ← alloc (new_ModuleNode u);
      (if meta' is Some m then modify (update mod' (set_meta (Some m)))
       else mret ());;
      modify (λ g, set_urlToModuleMap (<[u := mod']> (urlToModuleMap g)) g);;
      modify (update mod' (set_id (Some resolvedId)));;
      modify (λ g,
        set_idToModuleMap (JsMap.set (idToModuleMap g) resolvedId mod') g);;
      let f := cleanUrl resolvedId in
      modify (update mod' (set_file (Some f)));;
      bucket_ensure f;;
      bucket_add f mod';;
      mret mod'
  end.

(** The loop of [createFileOnlyEntry]: the first [m] of the set with
    [m.url === url || m.id === file]. *)
Definition fileOnlyMatch (g : ModuleGraph) (u f : string) (m : nat) : bool :=
  match nodes g !! m with
  | Some n => bool_decide (url n = u) || bool_decide (id n = Some f)
  | None => false
  end.

Definition createFileOnlyEntry (file0 : string) : M nat :=
  let f := normalizePath file0 in
  fileMappedModules ← bucket_ensure f;
  let u := FS_PREFIX +:+ f in
  found ← gets (λ g, List.find (fileOnlyMatch g u f) fileMappedModules);
  match found with
  | Some m => mret m
  | None =>
      mod' ← alloc (new_ModuleNode u);
      modify (update mod' (set_file (Some f)));;
      bucket_add f mod';;
      mret mod'
  end.

(** An element of [Set<string | ModuleNode>]. *)
Definition resolveDep (ssr : bool) (x : string + nat) : M nat :=
  match x with
  | inl u => ensureEntryFromUrl u ssr
  | inr dep => mret dep
  end.

(** The bodies of the three loops of [updateModuleInfo]. *)
Definition addImport (mod' : nat) (ssr : bool) (imported : string + nat)
  : M unit :=
  dep ← resolveDep ssr imported;
  modify (update dep (λ n, set_importers (JsSet.add (importers n) mod') n));;
  (* [nextImports] is the set that [mod.importedModules] now holds *)
  modify (update mod'
    (λ n, set_importedModules (JsSet.add (importedModules n) dep) n)).

Definition dropImporter (mod' : nat) (noLongerImported : option (list nat))
    (dep : nat) : M (option (list nat)) :=
  nextImports ← gets (λ g, importedModulesOf g mod');
  if negb (JsSet.has nextImports dep) then
    modify (update dep
      (λ n, set_importers (JsSet.delete (importers n) mod') n));;
    size ← gets (λ g, JsSet.size (importersOf g dep));
    if bool_decide (size = 0)
    then mret (Some (JsSet.add (default [] noLongerImported) dep))
    else mret noLongerImported
  else mret noLongerImported.

Definition acceptDep (mod' : nat) (ssr : bool) (accepted : string + nat)
  : M unit :=
  dep ← resolveDep ssr accepted;
  modify (update mod'
    (λ n, set_acceptedHmrDeps (JsSet.add (acceptedHmrDeps n) dep) n)).

Definition updateModuleInfo (mod' : nat)
    (importedModules' acceptedModules : list (string + nat))
    (isSelfAccepting' : bool) (ssr : bool) : M (option (list nat)) :=
  modify (update mod' (set_isSelfAccepting isSelfAccepting'));;
  prevImports ← gets (λ g, importedModulesOf g mod');
  modify (update mod' (set_importedModules []));;
  (* update import graph *)
  forEach (addImport mod' ssr) importedModules';;
  (* remove the importer from deps that were imported but no longer are *)
  noLongerImported ← forEachAcc (dropImporter mod') prevImports None;
  (* update accepted hmr deps *)
  modify (update mod' (set_acceptedHmrDeps []));;
  forEach (acceptDep mod' ssr) acceptedModules;;
  mret noLongerImported.

(** ** Invalidation

    The state of a sweep: the graph, the [seen] set handed down the
    recursion, and a log of the visits (each execution of
    [seen.add(mod); mod.ssrModule = null], in order).  The log is not
    program state; it is what the statements on visits count. *)
Record Sweep := {
  graph : ModuleGraph;
  seen : list nat;
  visits : list nat
}.

(** [l.forEach(body)] for a body that may run out of fuel. *)
Fixpoint forEachSweep (body : nat → Sweep → option Sweep) (l : list nat)
    (s : Sweep) : option Sweep :=
  match l with
  | [] => Some s
  | x :: l' => s' ← body x s; forEachSweep body l' s'
  end.

(** [invalidateSSRModule(mod, seen)]; [None] when the fuel runs out. *)
Fixpoint invalidateSSRModule (fuel : nat) (mod' : nat) (s : Sweep)
  : option Sweep :=
  match fuel with
  | 0 => None
  | S fuel' =>
      if JsSet.has (seen s) mod' then Some s
      else
        let s1 := {|
          graph := update mod' (set_ssrModule None) (graph s);
          seen := JsSet.add (seen s) mod';
          visits := visits s ++ [mod'] |} in
        forEachSweep (invalidateSSRModule fuel')
          (importersOf (graph s1) mod') s1
  end.

(** [invalidateModule(mod, seen)]; the default of [seen] is a new set.
    One more unit of fuel than there are nodes is enough for the cascade
    (lemma [invalidateSSRModule_cascade]). *)
Definition invalidateModule (mod' : nat) (s : Sweep) : option Sweep :=
  let g1 := update mod' (set_info None) (graph s) in
  let g2 := update mod' (set_transformResult None) g1 in
  let g3 := update mod' (set_ssrTransformResult None) g2 in
  invalidateSSRModule (S (length (nodes g3))) mod'
    {| graph := g3; seen := seen s; visits := visits s |}.

(** A sweep over [mods] under a fresh [seen] set. *)
Definition invalidateEach (mods : list nat) (g : ModuleGraph)
  : option Sweep :=
  forEachSweep invalidateModule mods
    {| graph := g; seen := []; visits := [] |}.

Definition onFileChange (f : string) (g : ModuleGraph) : option Sweep :=
  match fileToModulesMap g !! f with
  | Some mods => invalidateEach mods g
  | None => Some {| graph := g; seen := []; visits := [] |}
  end.

Definition invalidateAll (g : ModuleGraph) : option Sweep :=
  invalidateEach (JsMap.values (idToModuleMap g)) g.

End ModuleGraph.


Arguments M {_} _.

(** ** The update channel ([createWebSocketServer])

    The server keeps its sockets in [wss.clients]; what a socket was sent is
    recorded on the socket, oldest message first. *)
Module Ws.

(** Modelled from the spec: the payload union of [types/hmrPayload], one
    variant per [type] of section 6 of the specification. *)
Record ErrorInfo := {
  message : string;
  stack : string;
  err_id : option string;
  frame : option string;
  plugin : option string
}.

Record Update := {
  path : string;
  acceptedPath : string;
  timestamp : Z
}.

Inductive HMRPayload :=
  | Connected
  | UpdatePayload (updates : list Update)
  | FullReload (path : option string)
  | Prune (paths : list string)
  | Error (err : ErrorInfo).

(** [payload.type === 'error'] *)
Definition is_error (p : HMRPayload) : bool :=
  match p with Error _ => true | _ => false end.

Record Socket := {
  readyState : nat;
  received : list string
}.

(** [socket.send(data)] *)
Definition socket_send (data : string) (s : Socket) : Socket :=
  {| readyState := readyState s; received := received s ++ [data] |}.

(** The state of the closure: [wss.clients] and [bufferedError]. *)
Record WebSocketServer := {
  clients : list Socket;
  bufferedError : option HMRPayload
}.

Section Channel.

(** [JSON.stringify] *)
Variable stringify : HMRPayload → string.

Definition createWebSocketServer : WebSocketServer :=
  {| clients := []; bufferedError := None |}.

(** A client connects: the [ws] library adds the open socket to
    [wss.clients] and emits ['connection'], which runs the handler. *)
Definition connection (w : WebSocketServer) : WebSocketServer :=
  let socket := {| readyState := 1; received := [] |} in
  let socket := socket_send (stringify Connected) socket in
  match bufferedError w with
  | Some e =>
      {| clients := clients w ++ [socket_send (stringify e) socket];
         bufferedError := None |}
  | None =>
      {| clients := clients w ++ [socket]; bufferedError := bufferedError w |}
  end.

Definition send (payload : HMRPayload) (w : WebSocketServer)
  : WebSocketServer :=
  if is_error payload && bool_decide (length (clients w) = 0) then
    {| clients := clients w; bufferedError := Some payload |}
  else
    let stringified := stringify payload in
    {| clients :=
         (λ client,
            if bool_decide (readyState client = 1)
            then socket_send stringified client else client) <$> clients w;
       bufferedError := bufferedError w |}.

(** The payloads of [ps] sent one after the other. *)
Definition sendAll (ps : list HMRPayload) (w : WebSocketServer)
  : WebSocketServer :=
  foldl (λ w p, send p w) w ps.

End Channel.

End Ws.

(** ** The logger ([createLogger])

    A logger writes to the console and to the terminal; what it did is
    recorded as a list of events, oldest first.  The variables
    [lastType], [lastMsg] and [sameCount] belong to the module: all the
    loggers share them. *)
Module Logger.

Inductive LogType := error | warn | info.

(** [LogType | 'silent'] *)
Inductive LogLevel := level (t : LogType) | silent.

#[global] Instance LogType_eq_dec : EqDecision LogType.
Proof. solve_decision. Defined.

Definition LogLevels (l : LogLevel) : Z :=
  match l with
  | silent => 0
  | level error => 1
  | level warn => 2
  | level info => 3
  end.

(** [console.log], [console.warn], [console.error] *)
Inductive ConsoleMethod := console_log | console_warn | console_error.

Inductive Event :=
  | Console (method : ConsoleMethod) (args : list string)
  | CursorTo (x y : Z)
  | ClearScreenDown.

(** An [Error] object, by identity. *)
Definition Error : Type := nat.

(** [LogOptions]; a flag that is absent counts as [false]. *)
Record LogOptions := {
  clear : bool;
  timestamp : bool
}.

(** [LogErrorOptions extends LogOptions] *)
Record LogErrorOptions := {
  base : LogOptions;
  err : option Error
}.

(** The default [options = {}] of [output]. *)
Definition no_options : LogErrorOptions :=
  {| base := {| clear := false; timestamp := false |}; err := None |}.

(** Options without [error], where [LogErrorOptions] are expected. *)
Definition plain (o : LogOptions) : LogErrorOptions :=
  {| base := o; err := None |}.

(** The state of the module and of the console. *)
Record World := {
  lastType : option LogType;
  lastMsg : option string;
  sameCount : nat;
  out : list Event
}.

(** What a call reads of its environment: [process.stdout.rows] and
    [new Date().toLocaleTimeString()]. *)
Record Env := {
  rows : Z;
  now : string
}.

(** What [createLogger] reads of the process: [process.stdout.isTTY] and
    [process.env.CI]. *)
Record Process := {
  isTTY : bool;
  CI : option string
}.

(** The closure of a logger made by [createLogger]. *)
Record Logger := {
  thresh : Z;
  prefix : string;
  canClearScreen : bool;
  loggedErrors : list Error;
  warnedMessages : list string;
  hasWarned : bool
}.

Record LoggerOptions (Custom : Type) := {
  opt_prefix : option string;
  allowClearScreen : option bool;
  customLogger : option Custom
}.
Arguments opt_prefix {Custom} _.
Arguments allowClearScreen {Custom} _.
Arguments customLogger {Custom} _.

Definition newline : string := String "010"%char EmptyString.

(** [s.repeat(n)] *)
Fixpoint repeat_string (s : string) (n : nat) : string :=
  match n with
  | 0 => EmptyString
  | S n' => s +:+ repeat_string s n'
  end.

Section Colors.

(** The colours of [picocolors]. *)
Variables cyan yellow red bold dim : string → string.

Definition clearScreen (e : Env) (w : World) : World :=
  let repeatCount := (rows e - 2)%Z in
  let blank :=
    if (0 <? repeatCount)%Z then repeat_string newline (Z.to_nat repeatCount)
    else EmptyString in
  {| lastType := lastType w; lastMsg := lastMsg w; sameCount := sameCount w;
     out := out w ++ [Console console_log [blank]; CursorTo 0 0;
                      ClearScreenDown] |}.

(** [const clear = canClearScreen ? clearScreen : () => {}] *)
Definition clear_ (l : Logger) (e : Env) (w : World) : World :=
  if canClearScreen l then clearScreen e w else w.

Definition method_of (t : LogType) : ConsoleMethod :=
  match t with
  | info => console_log
  | warn => console_warn
  | error => console_error
  end.

Definition format (l : Logger) (e : Env) (t : LogType) (msg : string)
    (options : LogErrorOptions) : string :=
  if timestamp (base options) then
    let tag :=
      match t with
      | info => cyan (bold (prefix l))
      | warn => yellow (bold (prefix l))
      | error => red (bold (prefix l))
      end in
    dim (now e) +:+ " " +:+ tag +:+ " " +:+ msg
  else msg.

Definition print (m : ConsoleMethod) (args : list string) (w : World)
  : World :=
  {| lastType := lastType w; lastMsg := lastMsg w; sameCount := sameCount w;
     out := out w ++ [Console m args] |}.

(** [if (options.error) loggedErrors.add(options.error)] *)
Definition record_error (options : LogErrorOptions) (l : Logger) : Logger :=
  match err options with
  | Some x =>
      {| thresh := thresh l; prefix := prefix l;
         canClearScreen := canClearScreen l;
         loggedErrors :=
           if bool_decide (x ∈ loggedErrors l) then loggedErrors l
           else loggedErrors l ++ [x];
         warnedMessages := warnedMessages l; hasWarned := hasWarned l |}
  | None => l
  end.

Definition output (e : Env) (t : LogType) (msg : string)
    (options : LogErrorOptions) (s : Logger * World) : Logger * World :=
  let '(l, w) := s in
  if (LogLevels (level t) <=? thresh l)%Z then
    let method := method_of t in
    let l1 := record_error options l in
    if canClearScreen l then
      if bool_decide (Some t = lastType w) && bool_decide (Some msg = lastMsg w)
      then
        let w1 := {| lastType := lastType w; lastMsg := lastMsg w;
                     sameCount := S (sameCount w); out := out w |} in
        let w2 := clear_ l e w1 in
        (l1, print method
               [format l e t msg options;
                yellow ("(x" +:+ pretty (sameCount w2 + 1) +:+ ")")] w2)
      else
        let w1 := {| lastType := Some t; lastMsg := Some msg; sameCount := 0;
                     out := out w |} in
        let w2 := if clear (base options) then clear_ l e w1 else w1 in
        (l1, print method [format l e t msg options] w2)
    else (l1, print method [format l e t msg options] w)
  else (l, w).

Definition set_hasWarned (l : Logger) : Logger :=
  {| thresh := thresh l; prefix := prefix l;
     canClearScreen := canClearScreen l; loggedErrors := loggedErrors l;
     warnedMessages := warnedMessages l; hasWarned := true |}.

(** The methods of the logger object. *)
Definition log_info (e : Env) (msg : string) (opts : option LogOptions)
    (s : Logger * World) : Logger * World :=
  output e info msg (from_option plain no_options opts) s.

Definition log_warn (e : Env) (msg : string) (opts : option LogOptions)
    (s : Logger * World) : Logger * World :=
  output e warn msg (from_option plain no_options opts)
    (set_hasWarned s.1, s.2).

Definition log_warnOnce (e : Env) (msg : string) (opts : option LogOptions)
    (s : Logger * World) : Logger * World :=
  if bool_decide (msg ∈ warnedMessages s.1) then s
  else
    let '(l, w) := output e warn msg (from_option plain no_options opts)
                     (set_hasWarned s.1, s.2) in
    ({| thresh := thresh l; prefix := prefix l;
        canClearScreen := canClearScreen l; loggedErrors := loggedErrors l;
        warnedMessages := warnedMessages l ++ [msg];
        hasWarned := hasWarned l |}, w).

Definition log_error (e : Env) (msg : string) (opts : option LogErrorOptions)
    (s : Logger * World) : Logger * World :=
  output e error msg (default no_options opts) (set_hasWarned s.1, s.2).

Definition log_clearScreen (e : Env) (t : LogType) (s : Logger * World)
  : Logger * World :=
  if (LogLevels (level t) <=? thresh s.1)%Z then (s.1, clear_ s.1 e s.2)
  else s.

Definition hasErrorLogged (l : Logger) (x : Error) : bool :=
  bool_decide (x ∈ loggedErrors l).

(** A truthy value of an environment variable. *)
Definition truthy (v : option string) : bool :=
  match v with
  | Some s => negb (bool_decide (s = ""))
  | None => false
  end.

(** [createLogger(level = 'info', options = {})]: the custom logger of the
    options if there is one, else a new logger. *)
Definition createLogger {Custom} (p : Process) (lvl : option LogLevel)
    (options : option (LoggerOptions Custom)) : Custom + Logger :=
  let options := default {| opt_prefix := None; allowClearScreen := None;
                            customLogger := None |} options in
  match customLogger options with
  | Some c => inl c
  | None =>
      inr {| thresh := LogLevels (default (level info) lvl);
             prefix := default "[vite]" (opt_prefix options);
             canClearScreen :=
               default true (allowClearScreen options) && isTTY p &&
               negb (truthy (CI p));
             loggedErrors := [];
             warnedMessages := [];
             hasWarned := false |}
  end.

(** The calls on a logger, for sequences of calls. *)
Inductive Call :=
  | Info (msg : string) (opts : option LogOptions)
  | Warn (msg : string) (opts : option LogOptions)
  | WarnOnce (msg : string) (opts : option LogOptions)
  | Err (msg : string) (opts : option LogErrorOptions)
  | ClearScreen (t : LogType).

Definition call (ec : Env * Call) (s : Logger * World) : Logger * World :=
  match ec.2 with
  | Info msg opts => log_info ec.1 msg opts s
  | Warn msg opts => log_warn ec.1 msg opts s
  | WarnOnce msg opts => log_warnOnce ec.1 msg opts s
  | Err msg opts => log_error ec.1 msg opts s
  | ClearScreen t => log_clearScreen ec.1 t s
  end.

(** A sequence of calls, each with what it reads of its environment. *)
Definition calls (cs : list (Env * Call)) (s : Logger * World)
  : Logger * World :=
  foldl (λ s ec, call ec s) s cs.

(** Before any logger has logged. *)
Definition initial_world : World :=
  {| lastType := None; lastMsg := None; sameCount := 0; out := [] |}.

(** The type of message a call logs. *)
Definition type_of (c : Call) : LogType :=
  match c with
  | Info _ _ => info
  | Warn _ _ | WarnOnce _ _ => warn
  | Err _ _ => error
  | ClearScreen t => t
  end.

(** The message and the options a call hands to [output]. *)
Definition printed (c : Call) : option (string * LogErrorOptions) :=
  match c with
  | Info msg o | Warn msg o | WarnOnce msg o =>
      Some (msg, from_option plain no_options o)
  | Err msg o => Some (msg, default no_options o)
  | ClearScreen _ => None
  end.

(** The calls that set [hasWarned]. *)
Definition warns (c : Call) : bool :=
  match c with
  | Warn _ _ | WarnOnce _ _ | Err _ _ => true
  | Info _ _ | ClearScreen _ => false
  end.

End Colors.

End Logger.

(** ** Command-line options ([cleanOptions] of [cli.ts])

    An options object as the finite map of its own properties. *)
Module Cli.

Definition cleanOptions {V} (options : gmap string V) : gmap string V :=
  let ret := options in
  let ret := delete "--" ret in
  let ret := delete "c" ret in
  let ret := delete "config" ret in
  let ret := delete "base" ret in
  let ret := delete "l" ret in
  let ret := delete "logLevel" ret in
  let ret := delete "clearScreen" ret in
  let ret := delete "d" ret in
  let ret := delete "debug" ret in
  let ret := delete "f" ret in
  let ret := delete "filter" ret in
  let ret := delete "m" ret in
  let ret := delete "mode" ret in
  ret.

(** The keys of [GlobalCLIOptions]. *)
Definition GlobalCLIOptions : list string :=
  ["--"; "c"; "config"; "base"; "l"; "logLevel"; "clearScreen"; "d"; "debug";
   "f"; "filter"; "m"; "mode"].

End Cli.

(** ** Configuration ([config.ts]) *)
Module Config.

(** [String.prototype.startsWith] *)
Fixpoint startsWith (s p : string) : bool :=
  match p, s with
  | EmptyString, _ => true
  | String a p', String b s' => bool_decide (a = b) && startsWith s' p'
  | String _ _, EmptyString => false
  end.

(** [s.slice(0, s.length - 1)] *)
Fixpoint dropLast (s : string) : string :=
  match s with
  | EmptyString => EmptyString
  | String c EmptyString => EmptyString
  | String c s' => String c (dropLast s')
  end.

(** The double quote. *)
Definition quote : string := String "034"%char EmptyString.

(** *** [resolveBaseUrl]

    The messages handed to [logger.warn] are returned with the result,
    in the order of the calls. *)
Section BaseUrl.

(** [isExternalUrl] of [utils], the [pathname] of Node's [url.parse]
    ([null] or a string), and two colours of [picocolors]. *)
Variable isExternalUrl : string → bool.
Variable parseUrl_pathname : string → option string.
Variables yellow bold : string → string.

Definition invalid_base (base : string) : string :=
  yellow (bold ("(!) invalid " +:+ quote +:+ "base" +:+ quote +:+
                " option: " +:+ base +:+
                ". The value can only be an absolute " +:+
                "URL, ./, or an empty string.")).

Definition no_leading_slash : string :=
  yellow (bold ("(!) " +:+ quote +:+ "base" +:+ quote +:+
                " option should start with a slash.")).

Definition no_trailing_slash : string :=
  yellow (bold ("(!) " +:+ quote +:+ "base" +:+ quote +:+
                " option should end with a slash.")).

Definition resolveBaseUrl (base0 : option string) (isBuild : bool)
  : string * list string :=
  let base := default "/" base0 in
  if bool_decide (base = "") || bool_decide (base = "./") then
    (if isBuild then base else "/", [])
  else
    let '(base, warned) :=
      if startsWith base "." then ("/", [invalid_base base])
      else (base, []) in
    let '(base, warned) :=
      if isExternalUrl base then
        if negb isBuild then
          (* [parsed.pathname || '/'] *)
          (match parseUrl_pathname base with
           | Some p => if bool_decide (p = "") then "/" else p
           | None => "/"
           end, warned)
        else (base, warned)
      else
        if negb (startsWith base "/")
        then ("/" +:+ base, warned ++ [no_leading_slash])
        else (base, warned) in
    if negb (endsWith base "/")
    then (base +:+ "/", warned ++ [no_trailing_slash])
    else (base, warned).

End BaseUrl.

(** *** Aliases *)
Section Alias.

(** [RegExp] *)
Variable RegExp : Type.

(** [Alias], the fields the code reads. *)
Record Alias := {
  find : string + RegExp;
  replacement : string
}.

(** [AliasOptions]: an array of aliases, or an object from [find] to
    [replacement], as the list of its properties in the order of
    [Object.keys]. *)
Definition AliasOptions : Type := list Alias + list (string * string).

Definition normalizeSingleAlias (a : Alias) : Alias :=
  match find a with
  | inl f =>
      if endsWith f "/" && endsWith (replacement a) "/"
      then {| find := inl (dropLast f);
              replacement := dropLast (replacement a) |}
      else {| find := find a; replacement := replacement a |}
  | inr _ => {| find := find a; replacement := replacement a |}
  end.

Definition normalizeAlias (o : AliasOptions) : list Alias :=
  match o with
  | inl l => normalizeSingleAlias <$> l
  | inr props =>
      (λ kv : string * string,
         normalizeSingleAlias {| find := inl kv.1; replacement := kv.2 |})
      <$> props
  end.

(** [mergeAlias(a = [], b = [])] *)
Definition mergeAlias (a b : option AliasOptions) : list Alias :=
  normalizeAlias (default (inl []) a) ++ normalizeAlias (default (inl []) b).

(** The aliases that options give, as they are written. *)
Definition aliases (o : option AliasOptions) : list Alias :=
  match o with
  | Some (inl l) => l
  | Some (inr props) =>
      (λ kv : string * string, {| find := inl kv.1; replacement := kv.2 |})
      <$> props
  | None => []
  end.

End Alias.

Arguments find {RegExp} _.
Arguments replacement {RegExp} _.
Arguments Build_Alias {RegExp} _ _.

(** *** [sortUserPlugins] *)

(** [enforce?: 'pre' | 'post'] *)
Inductive Enforce := pre | post.

#[global] Instance Enforce_eq_dec : EqDecision Enforce.
Proof. solve_decision. Defined.

Section Plugins.

(** [Plugin], of which the code reads [enforce]. *)
Variable Plugin : Type.
Variable enforce : Plugin → option Enforce.

(** [plugins.flat()] *)
Definition flat (plugins : list (Plugin + list Plugin)) : list Plugin :=
  plugins ≫= (λ x, match x with inl p => [p] | inr ps => ps end).

Definition sortUserPlugins (plugins : option (list (Plugin + list Plugin)))
  : list Plugin * list Plugin * list Plugin :=
  match plugins with
  | Some plugins =>
      foldl (λ '(prePlugins, normalPlugins, postPlugins) p,
               match enforce p with
               | Some pre => (prePlugins ++ [p], normalPlugins, postPlugins)
               | Some post => (prePlugins, normalPlugins, postPlugins ++ [p])
               | None => (prePlugins, normalPlugins ++ [p], postPlugins)
               end)
        ([], [], []) (flat plugins)
  | None => ([], [], [])
  end.

End Plugins.

(** *** [loadEnv] and [resolveEnvPrefix]

    An object from names to strings is a finite map; the variables of the
    process are the list of the properties of [process.env], in the order
    of its enumeration. *)

(** What a function that may throw comes to. *)
Inductive Outcome (A : Type) :=
  | returns (a : A)
  | throws (message : string).
Arguments returns {A} _.
Arguments throws {A} _.

(** The first value that is there. *)
Fixpoint first_of (l : list (option string)) : option string :=
  match l with
  | [] => None
  | Some v :: _ => Some v
  | None :: l' => first_of l'
  end.

Section Env.

(** [arraify] of [utils]; the entries of an env file of a directory, as
    [dotenv.parse] and [dotenvExpand] give them, if [lookupFile] finds the
    file; the names of the properties that every object inherits. *)
Variable arraify : string + list string → list string.
Variable envFile : string → string → option (list (string * string)).
Variable inherited : string → bool.

(** [prefixes.some((prefix) => key.startsWith(prefix))] *)
Definition exposed (prefixes : list string) (key : string) : bool :=
  existsb (startsWith key) prefixes.

(** [env[key] === undefined], on the object [env]. *)
Definition is_undefined (env : gmap string string) (key : string) : bool :=
  bool_decide (env !! key = None) && negb (inherited key).

Definition envFiles (mode : string) : list string :=
  [".env." +:+ mode +:+ ".local"; ".env." +:+ mode; ".env.local"; ".env"].

(** The body of the loop over the variables of the process. *)
Definition exposeEntry (prefixes : list string) (env : gmap string string)
    (kv : string * string) : gmap string string :=
  if exposed prefixes kv.1 && is_undefined env kv.1
  then <[kv.1 := kv.2]> env else env.

(** The body of the loop over the entries of an env file: the state is
    [env] and [process.env]. *)
Definition loadEntry (prefixes : list string)
    (s : gmap string string * list (string * string)) (kv : string * string)
  : gmap string string * list (string * string) :=
  if exposed prefixes kv.1 && is_undefined s.1 kv.1
  then (<[kv.1 := kv.2]> s.1, s.2)
  else if bool_decide (kv.1 = "NODE_ENV")
  then (s.1, JsMap.set s.2 "VITE_USER_NODE_ENV" kv.2)
  else s.

Definition loadFile (prefixes : list string) (envDir : string)
    (s : gmap string string * list (string * string)) (file : string)
  : gmap string string * list (string * string) :=
  match envFile envDir file with
  | Some parsed => foldl (loadEntry prefixes) s parsed
  | None => s
  end.

(** [loadEnv(mode, envDir, prefixes = 'VITE_')]: the object returned, and
    [process.env] as the call leaves it. *)
Definition loadEnv (process_env : list (string * string)) (mode envDir : string)
    (prefixes0 : option (string + list string))
  : Outcome (gmap string string * list (string * string)) :=
  if bool_decide (mode = "local") then
    throws (quote +:+ "local" +:+ quote +:+
            " cannot be used as a mode name because it conflicts with " +:+
            "the .local postfix for .env files.")
  else
    let prefixes := arraify (default (inl "VITE_") prefixes0) in
    let env : gmap string string := ∅ in
    let env := foldl (exposeEntry prefixes) env process_env in
    returns (foldl (loadFile prefixes envDir) (env, process_env)
               (envFiles mode)).

(** [resolveEnvPrefix({ envPrefix = 'VITE_' })] *)
Definition resolveEnvPrefix (envPrefix0 : option (string + list string))
  : Outcome (list string) :=
  let envPrefix := arraify (default (inl "VITE_") envPrefix0) in
  if existsb (λ prefix, bool_decide (prefix = "")) envPrefix then
    throws ("envPrefix option contains value '', which could lead " +:+
            "unexpected exposure of sensitive information.")
  else returns envPrefix.

(** The value that an env file of the directory gives to a name. *)
Definition fileValue (envDir file key : string) : option string :=
  envFile envDir file ≫= (λ parsed, JsMap.get parsed key).

(** Where the value of a variable may come from, in the order of
    precedence: the process, then the four files. *)
Definition sources (process_env : list (string * string))
    (mode envDir key : string) : list (option string) :=
  JsMap.get process_env key ::
  ((λ file, fileValue envDir file key) <$> envFiles mode).

End Env.


End Config.


(** ** Specifications *)

Section Specification.

Context `{Imports}.
Variable resolveId : string → bool → option (PartialResolvedId.t CustomMeta).

(** *** The store and the edges *)

(** [h] is the handle of an object of the store. *)
Definition allocated (g : ModuleGraph) (h : nat) : Prop :=
  h < length (nodes g).

#[global] Instance allocated_dec g h : Decision (allocated g h).
Proof. unfold allocated. apply _. Defined.

(** Edge symmetry: [a] is in [b.importedModules] iff [b] is in
    [a.importers]. *)
Definition edge_symmetric (g : ModuleGraph) : Prop :=
  ∀ a b, a ∈ importedModulesOf g b ↔ b ∈ importersOf g a.

(** One half of it: every import has its back-edge. *)
Definition imports_mirrored (g : ModuleGraph) : Prop :=
  ∀ a b, a ∈ importedModulesOf g b → b ∈ importersOf g a.

(** Every importer of a node is a node of the store. *)
Definition importers_closed (g : ModuleGraph) : Prop :=
  Forall (λ n, Forall (allocated g) (importers n)) (nodes g).

#[global] Instance importers_closed_dec g : Decision (importers_closed g).
Proof. unfold importers_closed. apply _. Defined.

(** No handle dangles: the importers of the nodes and the handles held by
    the id and file indices are nodes of the store (in JavaScript a
    reference always points to an object). *)
Definition store_closed (g : ModuleGraph) : Prop :=
  importers_closed g ∧
  Forall (allocated g) (JsMap.values (idToModuleMap g)) ∧
  map_Forall (λ _ mods, Forall (allocated g) mods) (fileToModulesMap g).

#[global] Instance store_closed_dec g : Decision (store_closed g).
Proof. unfold store_closed. apply _. Defined.

(** [b] is reached from [a] by following [importers] edges. *)
Definition imported_by (g : ModuleGraph) : relation nat :=
  rtc (λ x y, y ∈ importersOf g x).

(** *** Calls *)

(** The mutating methods of the class, as calls on a graph. *)
Inductive Call :=
  | EnsureEntryFromUrl (rawUrl : string) (ssr : bool)
  | CreateFileOnlyEntry (file0 : string)
  | UpdateModuleInfo (mod' : nat)
      (importedModules' acceptedModules : list (string + nat))
      (isSelfAccepting' ssr : bool)
  | InvalidateModule (mod' : nat)
  | OnFileChange (file0 : string)
  | InvalidateAll.

(** The [ModuleNode] arguments of a call are objects of the store. *)
Definition call_ok (g : ModuleGraph) (c : Call) : Prop :=
  match c with
  | UpdateModuleInfo mod' imported accepted _ _ =>
      allocated g mod' ∧
      (∀ d, inr d ∈ imported → allocated g d) ∧
      (∀ d, inr d ∈ accepted → allocated g d)
  | InvalidateModule mod' => allocated g mod'
  | _ => True
  end.

Definition fresh_sweep (g : ModuleGraph) : Sweep :=
  {| graph := g; seen := []; visits := [] |}.

(** The graph a call leaves, whether it returned or threw; [None] if a
    cascade ran out of fuel. *)
Definition step (c : Call) (g : ModuleGraph) : option ModuleGraph :=
  match c with
  | EnsureEntryFromUrl rawUrl ssr =>
      Some (ensureEntryFromUrl resolveId rawUrl ssr g).2
  | CreateFileOnlyEntry file0 => Some (createFileOnlyEntry file0 g).2
  | UpdateModuleInfo mod' imported accepted isSelfAccepting' ssr =>
      Some (updateModuleInfo resolveId mod' imported accepted
              isSelfAccepting' ssr g).2
  | InvalidateModule mod' => graph <$> invalidateModule mod' (fresh_sweep g)
  | OnFileChange file0 => graph <$> onFileChange file0 g
  | InvalidateAll => graph <$> invalidateAll g
  end.

(** The graphs a server can hold: those obtained from a new graph by
    well-formed calls, whether they returned or threw. *)
Inductive reachable : ModuleGraph → Prop :=
  | reachable_new : reachable new_ModuleGraph
  | reachable_step g c g' :
      reachable g → call_ok g c → step c g = Some g' → reachable g'.

Definition is_returned {A} (c : Completion A) : Prop :=
  match c with
  | returned _ => True
  | thrown _ => False
  end.

#[global] Instance is_returned_dec {A} (c : Completion A) :
  Decision (is_returned c).
Proof. destruct c; simpl; apply _. Defined.

(** The call does not throw.  Only the two [async] methods that resolve
    urls can. *)
Definition completes (c : Call) (g : ModuleGraph) : Prop :=
  match c with
  | EnsureEntryFromUrl rawUrl ssr =>
      is_returned (ensureEntryFromUrl resolveId rawUrl ssr g).1
  | UpdateModuleInfo mod' imported accepted isSelfAccepting' ssr =>
      is_returned (updateModuleInfo resolveId mod' imported accepted
                     isSelfAccepting' ssr g).1
  | _ => True
  end.

(** The graphs obtained from a new graph by well-formed calls none of
    which threw. *)
Inductive reachable_without_throw : ModuleGraph → Prop :=
  | quiet_new : reachable_without_throw new_ModuleGraph
  | quiet_step g c g' :
      reachable_without_throw g → call_ok g c → completes c g →
      step c g = Some g' → reachable_without_throw g'.

(** Running a list of calls, checking that each is well formed. *)
Definition call_okb (g : ModuleGraph) (c : Call) : bool :=
  let ok d := bool_decide (d < length (nodes g)) in
  let oks l := forallb (λ x : string + nat,
                 match x with inr d => ok d | inl _ => true end) l in
  match c with
  | UpdateModuleInfo mod' imported accepted _ _ =>
      ok mod' && oks imported && oks accepted
  | InvalidateModule mod' => ok mod'
  | _ => true
  end.

Fixpoint run (cs : list Call) (g : ModuleGraph) : option ModuleGraph :=
  match cs with
  | [] => Some g
  | c :: cs' => if call_okb g c then step c g ≫= run cs' else None
  end.

#[global] Instance completes_dec c g : Decision (completes c g).
Proof. destruct c; simpl; apply _. Defined.

(** Running a list of calls, checking also that none throws. *)
Fixpoint run_without_throw (cs : list Call) (g : ModuleGraph)
  : option ModuleGraph :=
  match cs with
  | [] => Some g
  | c :: cs' =>
      if call_okb g c && bool_decide (completes c g)
      then step c g ≫= run_without_throw cs'
      else None
  end.

(** *** The indices *)

(** Consistency of the three indices with the store.  A node made by
    [ensureEntryFromUrl] has an [id]; a file-only node has none. *)
Record index_consistent (g : ModuleGraph) : Prop := {
  url_index_sound : ∀ u h, urlToModuleMap g !! u = Some h →
    ∃ n, nodes g !! h = Some n ∧ url n = u ∧ is_Some (id n);
  url_index_complete : ∀ h n, nodes g !! h = Some n → is_Some (id n) →
    urlToModuleMap g !! url n = Some h;
  id_index_sound : ∀ i h, JsMap.get (idToModuleMap g) i = Some h →
    ∃ n, nodes g !! h = Some n ∧ id n = Some i;
  id_index_covers : ∀ h n i, nodes g !! h = Some n → id n = Some i →
    is_Some (JsMap.get (idToModuleMap g) i);
  id_index_keys : NoDup (idToModuleMap g).*1;
  file_index_sound : ∀ f s h, fileToModulesMap g !! f = Some s → h ∈ s →
    ∃ n, nodes g !! h = Some n ∧ file n = Some f;
  file_index_complete : ∀ h n, nodes g !! h = Some n →
    ∃ f s, file n = Some f ∧ fileToModulesMap g !! f = Some s ∧ h ∈ s
}.

(** The consistency as the specification words it: every node is found
    under its url, under its id and under its file, and no two nodes share
    a url.  File-only nodes break it; [index_consistent] above is what the
    code keeps. *)
Definition every_node_indexed (g : ModuleGraph) : Prop :=
  ∀ h n, nodes g !! h = Some n →
    urlToModuleMap g !! url n = Some h ∧
    (∃ i, id n = Some i ∧ JsMap.get (idToModuleMap g) i = Some h) ∧
    (∃ f s, file n = Some f ∧ fileToModulesMap g !! f = Some s ∧ h ∈ s).

Definition one_node_per_url (g : ModuleGraph) : Prop :=
  ∀ h1 h2 n1 n2, nodes g !! h1 = Some n1 → nodes g !! h2 = Some n2 →
    url n1 = url n2 → h1 = h2.

(** The invariant of the graphs a server holds. *)
Definition graph_inv (g : ModuleGraph) : Prop :=
  imports_mirrored g ∧ importers_closed g ∧ index_consistent g.

(** *** Creating entries *)

(** The node [ensureEntryFromUrl] registers for a canonical url [u], a
    resolved id [rid] and the resolver's [meta]. *)
Definition entry_node (u rid : string) (m : option CustomMeta) : ModuleNode :=
  set_file (Some (cleanUrl rid))
    (set_id (Some rid)
       (match m with
        | Some x => set_meta (Some x) (new_ModuleNode u)
        | None => new_ModuleNode u
        end)).

(** The node [createFileOnlyEntry] makes for a normalised file [f]. *)
Definition file_only_node (f : string) : ModuleNode :=
  set_file (Some f) (new_ModuleNode (FS_PREFIX +:+ f)).

(** [g'] is [g] with new, edge-free nodes and more urls registered: what
    creating entries does to a graph. *)
Definition extends (g g' : ModuleGraph) : Prop :=
  ∃ extra,
    nodes g' = nodes g ++ extra ∧
    Forall (λ n, importers n = [] ∧ importedModules n = []) extra ∧
    urlToModuleMap g ⊆ urlToModuleMap g'.

(** The url index holds handles of the store only. *)
Definition url_index_allocated (g : ModuleGraph) : Prop :=
  ∀ u h, urlToModuleMap g !! u = Some h → allocated g h.

(** The canonical url of a raw url: the url that [resolveUrl] returns,
    if it returns. *)
Definition canonical (rawUrl : string) (ssr : bool) : option string :=
  match resolveUrl resolveId rawUrl ssr with
  | returned r => Some r.1.1
  | thrown _ => None
  end.

(** The node registered for the canonical url of a raw url. *)
Definition registered (g : ModuleGraph) (rawUrl : string) (ssr : bool)
  : option nat :=
  canonical rawUrl ssr ≫= (λ u, urlToModuleMap g !! u).

(** The element [x] of the imported set stands for the node [mod']: it is
    the node, or a url whose canonical url is registered for it. *)
Definition denotes (g : ModuleGraph) (ssr : bool) (mod' : nat)
    (x : string + nat) : Prop :=
  match x with
  | inr d => d = mod'
  | inl u => registered g u ssr = Some mod'
  end.

(** The element [x] of a set given to [updateModuleInfo] can be entered:
    it is a node, or a url for which [resolveUrl] returns. *)
Definition resolves (ssr : bool) (x : string + nat) : Prop :=
  match x with
  | inr _ => True
  | inl u => is_Some (canonical u ssr)
  end.

#[global] Instance resolves_dec ssr x : Decision (resolves ssr x).
Proof. destruct x; simpl; apply _. Defined.

(** [mod'] imports itself, with both edges. *)
Definition self_edge (mod' : nat) (g : ModuleGraph) : Prop :=
  mod' ∈ importedModulesOf g mod' ∧ mod' ∈ importersOf g mod'.

(** *** Invariants of the loops of [updateModuleInfo] *)

(** Edge symmetry while [updateModuleInfo mod'] runs: it holds except
    that the nodes of [pending] (previous imports not yet reconciled) may
    still list [mod'] as importer. *)
Definition sym_except (mod' : nat) (pending : list nat) (g : ModuleGraph)
  : Prop :=
  (∀ a b, b ≠ mod' → a ∈ importedModulesOf g b ↔ b ∈ importersOf g a) ∧
  (∀ a, a ∈ importedModulesOf g mod' → mod' ∈ importersOf g a) ∧
  (∀ a, mod' ∈ importersOf g a →
        a ∈ importedModulesOf g mod' ∨ a ∈ pending).

(** The second loop of [updateModuleInfo mod'] after the previous imports
    [done]: those no longer imported have lost [mod'] as importer, and
    [noLongerImported] holds those of them left without importer. *)
Definition orphans_inv (mod' : nat) (done : list nat)
    (noLongerImported : option (list nat)) (g : ModuleGraph) : Prop :=
  (∀ z, z ∈ done → z ∉ importedModulesOf g mod' → mod' ∉ importersOf g z) ∧
  (∀ z, z ∈ default [] noLongerImported ↔
        z ∈ done ∧ (z ∉ importedModulesOf g mod') ∧ importersOf g z = []) ∧
  noLongerImported ≠ Some [].

(** *** Sweeps *)

(** The three assignments at the head of [invalidateModule]. *)
Definition clearCaches (n : ModuleNode) : ModuleNode :=
  set_ssrTransformResult None (set_transformResult None (set_info None n)).

(** What a sweep does to the node [h]: [clearCaches] if [invalidateModule]
    was called on it ([h ∈ direct]), [ssrModule = null] if the cascade
    visited it ([h ∈ new]). *)
Definition touch (new direct : list nat) (h : nat) (n : ModuleNode)
  : ModuleNode :=
  let n1 := if bool_decide (h ∈ direct) then clearCaches n else n in
  if bool_decide (h ∈ new) then set_ssrModule None n1 else n1.

(** The sweep [s'] is [s] after the calls of [invalidateModule] on
    [direct] and the visits of [new], in this order. *)
Record sweeps_to (s : Sweep) (new direct : list nat) (s' : Sweep) : Prop := {
  sweeps_seen : seen s' = seen s ++ new;
  sweeps_visits : visits s' = visits s ++ new;
  sweeps_nodes : ∀ h,
    nodes (graph s') !! h = touch new direct h <$> nodes (graph s) !! h;
  sweeps_urls : urlToModuleMap (graph s') = urlToModuleMap (graph s);
  sweeps_ids : idToModuleMap (graph s') = idToModuleMap (graph s);
  sweeps_files : fileToModulesMap (graph s') = fileToModulesMap (graph s)
}.

(** The number of nodes of the store that are not in [seen]: the cascade
    needs one unit of fuel more. *)
Definition unseen (g : ModuleGraph) (seen0 : list nat) : nat :=
  length (filter (λ h, h ∉ seen0) (seq 0 (length (nodes g)))).

(** What a cascade from [roots], started with [seen0], visits: each node
    once and none of [seen0]; afterwards the roots are seen and so are the
    importers of the visited nodes; a visited node is reached from a root
    along [importers] edges. *)
Definition cascade (g : ModuleGraph) (roots seen0 new : list nat) : Prop :=
  NoDup new ∧
  (∀ x, x ∈ new → (x ∉ seen0) ∧ allocated g x) ∧
  (∀ r, r ∈ roots → r ∈ seen0 ++ new) ∧
  (∀ x y, x ∈ new → y ∈ importersOf g x → y ∈ seen0 ++ new) ∧
  (∀ x, x ∈ new → ∃ r, r ∈ roots ∧ imported_by g r x).

(** *** Hoare triples *)

(** A triple of a method: from a graph with [P], if the method returns,
    its result and the graph it leaves satisfy [Q]; if it throws, the
    graph it leaves satisfies [E]. *)
Definition triple {A} (P : ModuleGraph → Prop) (m : M A)
    (Q : A → ModuleGraph → Prop) (E : ModuleGraph → Prop) : Prop :=
  ∀ g, P g →
    match m g with
    | (returned a, g') => Q a g'
    | (thrown _, g') => E g'
    end.

End Specification.

(** A triple that says nothing of the graph a throwing method leaves. *)
Abbreviation hoare P m Q := (triple P m Q (λ _, True)).

(** ** What the methods leave alone *)

Section Frames.

Context `{Imports}.
Variable resolveId : string → bool → option (PartialResolvedId.t CustomMeta).

(** Nothing is forgotten: in [g'] every node of [g] is still there under
    its handle, with the url, id, file and type it had; every url is
    registered for the node it was registered for; every key of the id
    index still is one (the node it leads to may be another: [Map.set]
    replaces it); every node is still in the set of its file. *)
Record grows (g g' : ModuleGraph) : Prop := {
  grows_nodes : ∀ h n, nodes g !! h = Some n →
    ∃ n', nodes g' !! h = Some n' ∧ url n' = url n ∧ id n' = id n ∧
          file n' = file n ∧ type n' = type n;
  grows_urls : urlToModuleMap g ⊆ urlToModuleMap g';
  grows_ids : ∀ i, is_Some (JsMap.get (idToModuleMap g) i) →
    is_Some (JsMap.get (idToModuleMap g') i);
  grows_files : ∀ f s h, fileToModulesMap g !! f = Some s → h ∈ s →
    ∃ s', fileToModulesMap g' !! f = Some s' ∧ h ∈ s'
}.

(** What [updateModuleInfo(mod, ...)] may change of the node [h]: its
    three own fields if [h] is [mod], and whether [mod] is one of its
    importers. *)
Definition edges_only (mod' h : nat) (n n' : ModuleNode) : Prop :=
  url n' = url n ∧ id n' = id n ∧ file n' = file n ∧ type n' = type n ∧
  info n' = info n ∧ meta n' = meta n ∧
  transformResult n' = transformResult n ∧
  ssrTransformResult n' = ssrTransformResult n ∧
  ssrModule n' = ssrModule n ∧
  lastHMRTimestamp n' = lastHMRTimestamp n ∧
  (h ≠ mod' →
   importedModules n' = importedModules n ∧
   acceptedHmrDeps n' = acceptedHmrDeps n ∧
   isSelfAccepting n' = isSelfAccepting n) ∧
  (∀ z, z ≠ mod' → z ∈ importers n' ↔ z ∈ importers n).

Definition frame (mod' : nat) (g g' : ModuleGraph) : Prop :=
  safeModulesPath g' = safeModulesPath g ∧
  ∀ h n, nodes g !! h = Some n →
    ∃ n', nodes g' !! h = Some n' ∧ edges_only mod' h n n'.

Definition acceptedHmrDepsOf (g : ModuleGraph) (h : nat) : list nat :=
  from_option acceptedHmrDeps [] (nodes g !! h).

(** The node that an element of the sets given to [updateModuleInfo]
    stands for once it is entered: the node itself, or the node registered
    for the canonical url. *)
Definition dep_of (g : ModuleGraph) (ssr : bool) (x : string + nat)
  : option nat :=
  match x with
  | inl u => registered resolveId g u ssr
  | inr d => Some d
  end.

(** The set obtained by adding the nodes of [l] to a new set, in order. *)
Definition collect (g : ModuleGraph) (ssr : bool) (l : list (string + nat))
  : list nat :=
  foldl JsSet.add [] (omap (dep_of g ssr) l).

(** The state [updateModuleInfo(mod, imported, accepted, flag, ssr)]
    leaves [mod] in: every element of the two sets stands for a node, and
    [mod] holds the flag and the two sets built from them. *)
Record settled (mod' : nat) (imported accepted : list (string + nat))
    (flag ssr : bool) (g : ModuleGraph) : Prop := {
  settled_deps : ∀ x, x ∈ imported ++ accepted → is_Some (dep_of g ssr x);
  settled_imports : importedModulesOf g mod' = collect g ssr imported;
  settled_accepted : acceptedHmrDepsOf g mod' = collect g ssr accepted;
  settled_flag : ∀ n, nodes g !! mod' = Some n → isSelfAccepting n = flag
}.

End Frames.


(** ** A sample project

    The imports of the module graph, made concrete for the worked
    examples: [cleanUrl], [removeTimestampQuery] and [removeImportQuery]
    of vite's [utils] (their regular expressions, written out),
    [isDirectCSSRequest] of [plugins/css], [FS_PREFIX] of [constants],
    [extname] and [normalize] of Node's [path.posix], and Node's
    [url.parse] on root-relative urls (a path, an optional [?query], an
    optional [#hash]; of the characters that [url.parse] escapes the
    space only, and not at either end) and on [mailto:] urls that hold
    nothing but an address. *)
Module Sample.

Definition is_char (c d : ascii) : bool := bool_decide (c = d).

Definition is_digit (c : ascii) : bool :=
  (48 <=? nat_of_ascii c)%nat && (nat_of_ascii c <=? 57)%nat.

(** [\w]: a letter, a digit or an underscore. *)
Definition is_word (c : ascii) : bool :=
  let n := nat_of_ascii c in
  is_digit c || ((65 <=? n)%nat && (n <=? 90)%nat) ||
  ((97 <=? n)%nat && (n <=? 122)%nat) || (n =? 95)%nat.

(** [s] up to its first [c]. *)
Fixpoint before (c : ascii) (s : string) : string :=
  match s with
  | EmptyString => EmptyString
  | String d s' => if is_char c d then EmptyString else String d (before c s')
  end.

(** [s] from its first [c] on, if there is one. *)
Fixpoint from (c : ascii) (s : string) : option string :=
  match s with
  | EmptyString => None
  | String d s' => if is_char c d then Some s else from c s'
  end.

(** The rest of [s] after the prefix [p]. *)
Fixpoint strip_prefix (p s : string) : option string :=
  match p, s with
  | EmptyString, _ => Some s
  | String a p', String b s' => if is_char a b then strip_prefix p' s' else None
  | String _ _, EmptyString => None
  end.

(** [url.replace(hashRE, '').replace(queryRE, '')] *)
Definition cleanUrl (u : string) : string := before "?" (before "#" u).

(** [s.replace(/[\?&]$/, '')] *)
Fixpoint trailingSeparator (s : string) : string :=
  match s with
  | EmptyString => EmptyString
  | String c EmptyString =>
      if is_char "?" c || is_char "&" c then EmptyString else s
  | String c s' => String c (trailingSeparator s')
  end.

(** The rest after [n] digits. *)
Fixpoint digits (n : nat) (s : string) : option string :=
  match n, s with
  | 0, _ => Some s
  | S n', String c s' => if is_digit c then digits n' s' else None
  | S _, EmptyString => None
  end.

Definition head_is_word (s : string) : bool :=
  match s with String c _ => is_word c | EmptyString => false end.

(** A match of [/\bt=\d{13}&?\b/] at the head of [s], the character before
    being a word character or not: what follows the match. *)
Definition timestampAt (prev_word : bool) (s : string) : option string :=
  if prev_word then None
  else
    r ← strip_prefix "t=" s ≫= digits 13;
    match r with
    | String "&" r' =>
        if head_is_word r' then Some r'
        else Some r
    | _ => if head_is_word r then None else Some r
    end.

Fixpoint removeTimestamp (prev_word : bool) (s : string) : string :=
  match timestampAt prev_word s with
  | Some rest => rest
  | None =>
      match s with
      | EmptyString => EmptyString
      | String c s' => String c (removeTimestamp (is_word c) s')
      end
  end.

Definition removeTimestampQuery (u : string) : string :=
  trailingSeparator (removeTimestamp false u).

(** A match of [/(\?|&)import=?(?:&|$)/] at the head of [s]: the
    separator and what follows the match. *)
Definition importAt (s : string) : option string :=
  match s with
  | String c s' =>
      if is_char "?" c || is_char "&" c then
        r ← strip_prefix "import" s';
        let r1 := default r (strip_prefix "=" r) in
        match r1 with
        | EmptyString => Some (String c EmptyString)
        | String "&" r2 => Some (String c r2)
        | _ =>
            match r with
            | String "&" r2 => Some (String c r2)
            | _ => None
            end
        end
      else None
  | EmptyString => None
  end.

Fixpoint removeImport (s : string) : string :=
  match importAt s with
  | Some rest => rest
  | None =>
      match s with
      | EmptyString => EmptyString
      | String c s' => String c (removeImport s')
      end
  end.

Definition removeImportQuery (u : string) : string :=
  trailingSeparator (removeImport u).

(** [re.test(s)] for a pattern given by its matcher at the head. *)
Fixpoint test (at_head : string → bool) (s : string) : bool :=
  at_head s ||
  match s with
  | EmptyString => false
  | String _ s' => test at_head s'
  end.

Definition cssLangs : list string :=
  ["css"; "less"; "sass"; "scss"; "styl"; "stylus"; "pcss"; "postcss"]%string.

(** [\.(css|less|...)($|\?)] at the head of [s]. *)
Definition cssLangAt (s : string) : bool :=
  match s with
  | String "." s' =>
      existsb (λ lang,
        match strip_prefix lang s' with
        | Some EmptyString => true
        | Some (String "?" _) => true
        | _ => false
        end) cssLangs
  | _ => false
  end.

(** [(\?|&)direct\b] at the head of [s]. *)
Definition directAt (s : string) : bool :=
  match s with
  | String c s' =>
      (is_char "?" c || is_char "&" c) &&
      match strip_prefix "direct" s' with
      | Some r => negb (head_is_word r)
      | None => false
      end
  | EmptyString => false
  end.

Definition isDirectCSSRequest (u : string) : bool :=
  test cssLangAt u && test directAt u.

Definition FS_PREFIX : string := "/@fs/".


(** [path.posix.extname], as Node computes it: one scan from the end of
    the path.  [i] is the index of the character [c]; trailing slashes are
    skipped, the scan stops at the slash before the last segment. *)
Record ExtScan := {
  startDot : option nat;
  startPart : nat;
  end_ : option nat;
  matchedSlash : bool;
  preDotState : Z;
  stopped : bool
}.

Definition extname_step (st : ExtScan) (ic : nat * ascii) : ExtScan :=
  let '(i, c) := ic in
  if stopped st then st
  else if is_char "/" c then
    if negb (matchedSlash st) then
      {| startDot := startDot st; startPart := i + 1; end_ := end_ st;
         matchedSlash := matchedSlash st; preDotState := preDotState st;
         stopped := true |}
    else st
  else
    let st1 :=
      match end_ st with
      | None =>
          {| startDot := startDot st; startPart := startPart st;
             end_ := Some (i + 1); matchedSlash := false;
             preDotState := preDotState st; stopped := false |}
      | Some _ => st
      end in
    if is_char "." c then
      match startDot st1 with
      | None =>
          {| startDot := Some i; startPart := startPart st1;
             end_ := end_ st1; matchedSlash := matchedSlash st1;
             preDotState := preDotState st1; stopped := false |}
      | Some _ =>
          {| startDot := startDot st1; startPart := startPart st1;
             end_ := end_ st1; matchedSlash := matchedSlash st1;
             preDotState := 1; stopped := false |}
      end
    else
      match startDot st1 with
      | Some _ =>
          {| startDot := startDot st1; startPart := startPart st1;
             end_ := end_ st1; matchedSlash := matchedSlash st1;
             preDotState := -1; stopped := false |}
      | None => st1
      end.

Definition extname (p : string) : string :=
  let chars := String.list_ascii_of_string p in
  let indexed := reverse (zip (seq 0 (length chars)) chars) in
  let st := foldl extname_step
    {| startDot := None; startPart := 0; end_ := None; matchedSlash := true;
       preDotState := 0; stopped := false |} indexed in
  match startDot st, end_ st with
  | Some d, Some e =>
      if bool_decide (preDotState st = 0%Z) ||
         (bool_decide (preDotState st = 1%Z) && bool_decide (d = e - 1) &&
          bool_decide (d = startPart st + 1))
      then EmptyString
      else String.string_of_list_ascii (take (e - d) (drop d chars))
  | _, _ => EmptyString
  end.

(** [path.posix.normalize]: the segments of the path with [.] and empty
    segments dropped and [..] resolved. *)
Fixpoint split_slash (s : string) (cur : string) : list string :=
  match s with
  | EmptyString => [cur]
  | String c s' =>
      if is_char "/" c then cur :: split_slash s' EmptyString
      else split_slash s' (cur +:+ String c EmptyString)
  end.

Definition normalize_segment (allowAboveRoot : bool) (stack : list string)
    (seg : string) : list string :=
  if bool_decide (seg = "") || bool_decide (seg = ".") then stack
  else if bool_decide (seg = "..") then
    match stack with
    | top :: below =>
        if bool_decide (top = "..") then seg :: stack else below
    | [] => if allowAboveRoot then [seg] else []
    end
  else seg :: stack.

Fixpoint join_slash (l : list string) : string :=
  match l with
  | [] => EmptyString
  | [x] => x
  | x :: l' => x +:+ "/" +:+ join_slash l'
  end.

Definition normalizePath (p : string) : string :=
  if bool_decide (p = "") then "."
  else
    let isAbsolute := bool_decide (strip_prefix "/" p ≠ None) in
    let trailing := endsWith p "/" in
    let body :=
      join_slash (reverse
        (foldl (normalize_segment (negb isAbsolute)) []
           (split_slash p EmptyString))) in
    if bool_decide (body = "") then
      if isAbsolute then "/" else if trailing then "./" else "."
    else
      (if isAbsolute then "/" else "") +:+ body +:+
      (if trailing then "/" else "").

(** [url.parse] escapes the characters it holds unsafe before it splits
    the url: a space becomes [%20]. *)
Fixpoint escape (s : string) : string :=
  match s with
  | EmptyString => EmptyString
  | String c s' =>
      if is_char " " c then "%20" +:+ escape s' else String c (escape s')
  end.

(** A [mailto:] url with an address only: no [/], [?] or [#]. *)
Definition is_mailto (u : string) : bool :=
  match strip_prefix "mailto:" u with
  | Some r =>
      bool_decide (from "/" r = None) && bool_decide (from "?" r = None) &&
      bool_decide (from "#" r = None)
  | None => false
  end.

(** [url.parse]: the address of a [mailto:] url is its host, and it has
    no path; a path that is empty is [null]. *)
Definition parseUrl (u : string) : UrlWithStringQuery :=
  if is_mailto u then {| pathname := None; search := None; hash := None |}
  else
    let v := escape u in
    let rest := before "#" v in
    let path := before "?" rest in
    {| pathname := if bool_decide (path = "") then None else Some path;
       search := from "?" rest;
       hash := from "#" v |}.

#[export] Instance imports : Imports :=
  Build_Imports string string string string
    cleanUrl normalizePath removeImportQuery removeTimestampQuery
    isDirectCSSRequest FS_PREFIX extname parseUrl.

(** The resolver of a project rooted at [/root]: the files of [/src],
    with the extension [.css] found for the style sheet. *)
Definition files : list (string * string) :=
  [("/src/main.js", "/root/src/main.js");
   ("/src/a.js", "/root/src/a.js");
   ("/src/b.js", "/root/src/b.js");
   ("/src/c.js", "/root/src/c.js");
   ("/src/style", "/root/src/style.css");
   ("/src/style.css", "/root/src/style.css")]%string.

Definition resolveId (u : string) (ssr : bool)
  : option (PartialResolvedId.t (@CustomMeta imports)) :=
  (λ i, {| PartialResolvedId.id := i; PartialResolvedId.meta := None |})
  <$> JsMap.get files u.

(** A project: [main.js] imports [a.js] and [b.js]. *)
Definition project_calls : list Call :=
  [EnsureEntryFromUrl "/src/main.js" false;
   UpdateModuleInfo 0 [inl "/src/a.js"; inl "/src/b.js"] [] false false]%string.

Definition project : ModuleGraph :=
  default new_ModuleGraph (run resolveId project_calls new_ModuleGraph).

(** A cycle: [a.js] imports [b.js], which imports [c.js], which imports
    [a.js]; the nodes hold transform results and evaluated SSR modules. *)
Definition cycle_calls : list Call :=
  [EnsureEntryFromUrl "/src/a.js" false;
   EnsureEntryFromUrl "/src/b.js" false;
   EnsureEntryFromUrl "/src/c.js" false;
   EnsureEntryFromUrl "/src/main.js" false;
   UpdateModuleInfo 0 [inr 1] [] false false;
   UpdateModuleInfo 1 [inr 2] [] false false;
   UpdateModuleInfo 2 [inl "/src/a.js"] [] false false]%string.

Definition cycle : ModuleGraph :=
  default new_ModuleGraph (run resolveId cycle_calls new_ModuleGraph).

Definition served (h : nat) (g : ModuleGraph) : ModuleGraph :=
  update h (set_ssrModule (Some "exports"%string))
    (update h (set_ssrTransformResult (Some "ssr code"%string))
       (update h (set_transformResult (Some "code"%string)) g)).

Definition cycle_served : ModuleGraph :=
  served 3 (served 2 (served 1 (served 0 cycle))).

(** A graph with one file-only entry. *)
Definition file_only : ModuleGraph :=
  (createFileOnlyEntry "/src/b.css" new_ModuleGraph).2.

(** [main.js] is updated to import a [mailto:] url: nothing resolves it,
    its extension is [.js] and it has no path. *)
Definition broken_import : Call :=
  UpdateModuleInfo 0 [inl "mailto:x.js"] [] false false.

Definition project_broken : ModuleGraph :=
  default new_ModuleGraph (step resolveId broken_import project).

(** [JSON.stringify], abridged. *)
Definition stringify (p : Ws.HMRPayload) : string :=
  match p with
  | Ws.Connected => "connected"
  | Ws.UpdatePayload _ => "update"
  | Ws.FullReload _ => "full-reload"
  | Ws.Prune _ => "prune"
  | Ws.Error e => "error: " +:+ Ws.message e
  end.

Definition compile_error : Ws.ErrorInfo :=
  {| Ws.message := "Unexpected token"; Ws.stack := "";
     Ws.err_id := Some "/root/src/main.js"%string;
     Ws.frame := None; Ws.plugin := None |}.


End Sample.


(** ** More sample data *)
Module Samples.

(** A resolver under which [a.js] has a second url, [/@fs/root/src/a.js]. *)
Definition fs_files : list (string * string) :=
  Sample.files ++ [("/@fs/root/src/a.js", "/root/src/a.js")]%string.

Definition resolveFs (u : string) (ssr : bool)
  : option (PartialResolvedId.t (@CustomMeta Sample.imports)) :=
  (λ i, {| PartialResolvedId.id := i; PartialResolvedId.meta := None |})
  <$> JsMap.get fs_files u.

(** A resolver that finds a style sheet with a space in its name, for
    the url with the extension and for the url without. *)
Definition spaced_files : list (string * string) :=
  Sample.files ++ [("/src/my style", "/root/src/my style.css");
                   ("/src/my style.css", "/root/src/my style.css")]%string.

Definition resolveSpaced (u : string) (ssr : bool)
  : option (PartialResolvedId.t (@CustomMeta Sample.imports)) :=
  (λ i, {| PartialResolvedId.id := i; PartialResolvedId.meta := None |})
  <$> JsMap.get spaced_files u.

(** A server whose only client is closing. *)
Definition closing : Ws.WebSocketServer :=
  {| Ws.clients := [{| Ws.readyState := 2;
                       Ws.received := ["connected"]%string |}];
     Ws.bufferedError := None |}.

Definition full_reload : Ws.HMRPayload := Ws.FullReload None.

Definition second_error : Ws.ErrorInfo :=
  {| Ws.message := "Failed to resolve import"; Ws.stack := "";
     Ws.err_id := None; Ws.frame := None; Ws.plugin := None |}.

(** A terminal of 24 rows, and colours written as tags. *)
Definition tty : Logger.Process :=
  {| Logger.isTTY := true; Logger.CI := None |}.

Definition at_noon : Logger.Env :=
  {| Logger.rows := 24; Logger.now := "12:00:00" |}.

Definition tag (name s : string) : string :=
  "<" +:+ name +:+ ">" +:+ s +:+ "</" +:+ name +:+ ">".

Definition info_logger : Logger.Logger :=
  {| Logger.thresh := 3; Logger.prefix := "[vite]";
     Logger.canClearScreen := true; Logger.loggedErrors := [];
     Logger.warnedMessages := []; Logger.hasWarned := false |}.

Definition with_error : Logger.LogErrorOptions :=
  {| Logger.base := {| Logger.clear := false; Logger.timestamp := true |};
     Logger.err := Some 7 |}.

(** Plugins, by name and what they enforce. *)
Definition plugins : list (string * option Config.Enforce +
                          list (string * option Config.Enforce)) :=
  [inl ("vue", None);
   inr [("legacy", Some Config.post); ("alias", Some Config.pre)];
   inl ("inspect", Some Config.pre)]%string.

(** [arraify] of [utils]: an array is itself, a string the array of it. *)
Definition arraify (target : string + list string) : list string :=
  match target with
  | inl s => [s]
  | inr l => l
  end.

(** The env files of [/app], the variables of a process and the names
    that an object inherits. *)
Definition env_files (envDir file : string)
  : option (list (string * string)) :=
  if bool_decide (envDir = "/app") then
    if bool_decide (file = ".env") then
      Some [("VITE_API", "/api"); ("VITE_TITLE", "App");
            ("DB_PASSWORD", "hunter2"); ("NODE_ENV", "production")]
    else if bool_decide (file = ".env.local") then
      Some [("VITE_TITLE", "Local")]
    else if bool_decide (file = ".env.development") then
      Some [("VITE_API", "/dev-api")]
    else None
  else None.

Definition process_env : list (string * string) :=
  [("PATH", "/bin"); ("VITE_PORT", "3000")].

Definition inherited (key : string) : bool :=
  bool_decide (key ∈ ["constructor"; "toString"; "valueOf"; "__proto__"]).

End Samples.


(** * Properties *)

(** ** Collections *)

Lemma JsSet_has_true s x : JsSet.has s x = true ↔ x ∈ s.
Proof. unfold JsSet.has. apply bool_decide_eq_true. Qed.

Lemma JsSet_has_false s x : JsSet.has s x = false ↔ x ∉ s.
Proof. unfold JsSet.has. apply bool_decide_eq_false. Qed.

Lemma JsSet_elem_of_add s x y : y ∈ JsSet.add s x ↔ y = x ∨ y ∈ s.
Proof.
  unfold JsSet.add. destruct (JsSet.has s x) eqn:E.
  - apply JsSet_has_true in E. split; [tauto|]. intros [Hy|?]; [by subst|done].
  - rewrite elem_of_app, list_elem_of_singleton. tauto.
Qed.

Lemma JsSet_add_fresh s x : x ∉ s → JsSet.add s x = s ++ [x].
Proof. intros E. apply JsSet_has_false in E. unfold JsSet.add. by rewrite E. Qed.

Lemma JsSet_elem_of_delete s x y : y ∈ JsSet.delete s x ↔ y ≠ x ∧ y ∈ s.
Proof. unfold JsSet.delete. by rewrite list_elem_of_filter. Qed.

Lemma JsSet_size_0 s : JsSet.size s = 0 ↔ s = [].
Proof. unfold JsSet.size. apply length_zero_iff_nil. Qed.

Lemma JsMap_get_set_eq {V} (m : list (string * V)) k v :
  JsMap.get (JsMap.set m k v) k = Some v.
Proof.
  induction m as [|[k' v'] m IH]; simpl.
  - by rewrite bool_decide_eq_true_2.
  - case_bool_decide as E; simpl.
    + by rewrite bool_decide_eq_true_2.
    + by rewrite bool_decide_eq_false_2.
Qed.

Lemma JsMap_get_set_ne {V} (m : list (string * V)) k k' v :
  k ≠ k' → JsMap.get (JsMap.set m k v) k' = JsMap.get m k'.
Proof.
  intros Hne. induction m as [|[k0 v0] m IH]; simpl.
  - by rewrite bool_decide_eq_false_2.
  - case_bool_decide as E; simpl.
    + subst k0. by rewrite !bool_decide_eq_false_2.
    + by rewrite IH.
Qed.

Lemma JsMap_keys_set {V} (m : list (string * V)) k v x :
  x ∈ (JsMap.set m k v).*1 ↔ x = k ∨ x ∈ m.*1.
Proof.
  induction m as [|[k0 v0] m IH]; simpl.
  - rewrite list_elem_of_singleton, elem_of_nil. tauto.
  - case_bool_decide as E; simpl; rewrite !elem_of_cons.
    + subst. tauto.
    + rewrite IH. tauto.
Qed.

Lemma JsMap_NoDup_set {V} (m : list (string * V)) k v :
  NoDup m.*1 → NoDup (JsMap.set m k v).*1.
Proof.
  induction m as [|[k0 v0] m IH]; simpl.
  - intros _. apply NoDup_singleton.
  - rewrite NoDup_cons. intros [Hk0 Hm]. case_bool_decide as E; simpl.
    + by apply NoDup_cons.
    + apply NoDup_cons. split; [|by apply IH].
      rewrite JsMap_keys_set. intros [->|?]; done.
Qed.

Lemma JsMap_get_of_elem {V} (m : list (string * V)) k v :
  NoDup m.*1 → (k, v) ∈ m → JsMap.get m k = Some v.
Proof.
  induction m as [|[k0 v0] m IH]; simpl.
  - by intros _ ?%elem_of_nil.
  - rewrite NoDup_cons. intros [Hk0 Hm] [[= -> ->]|Hin]%elem_of_cons.
    + by rewrite bool_decide_eq_true_2.
    + rewrite bool_decide_eq_false_2; [by apply IH|].
      intros ->. apply Hk0. apply list_elem_of_fmap. by exists (k, v).
Qed.

Section Properties.

Context `{Imports}.
Variable resolveId : string → bool → option (PartialResolvedId.t CustomMeta).

(** ** The store *)

Lemma nodes_update h f g : nodes (update h f g) = alter f h (nodes g).
Proof. done. Qed.

Lemma lookup_update h f g h' :
  nodes (update h f g) !! h' =
  if decide (h = h') then f <$> nodes g !! h' else nodes g !! h'.
Proof.
  rewrite nodes_update. case_decide as E.
  - subst. apply list_lookup_alter_eq.
  - by apply list_lookup_alter_ne.
Qed.

Lemma length_update h f g : length (nodes (update h f g)) = length (nodes g).
Proof. rewrite nodes_update. apply length_alter. Qed.

Lemma allocated_update h f g x : allocated (update h f g) x ↔ allocated g x.
Proof. unfold allocated. by rewrite length_update. Qed.

Lemma allocated_lookup g h : allocated g h ↔ is_Some (nodes g !! h).
Proof. unfold allocated. by rewrite lookup_lt_is_Some. Qed.

Lemma importersOf_update h f g x :
  importersOf (update h f g) x =
  if decide (h = x) then from_option (importers ∘ f) [] (nodes g !! x)
  else importersOf g x.
Proof.
  unfold importersOf. rewrite lookup_update. case_decide; [|done].
  by destruct (nodes g !! x).
Qed.

Lemma importedModulesOf_update h f g x :
  importedModulesOf (update h f g) x =
  if decide (h = x) then from_option (importedModules ∘ f) [] (nodes g !! x)
  else importedModulesOf g x.
Proof.
  unfold importedModulesOf. rewrite lookup_update. case_decide; [|done].
  by destruct (nodes g !! x).
Qed.

(** An update that leaves the edge sets of the node alone. *)
Lemma importersOf_update_frame h f g x :
  (∀ n, importers (f n) = importers n) →
  importersOf (update h f g) x = importersOf g x.
Proof.
  intros Hf. rewrite importersOf_update. case_decide; [|done].
  unfold importersOf. destruct (nodes g !! x); simpl; auto.
Qed.

Lemma importedModulesOf_update_frame h f g x :
  (∀ n, importedModules (f n) = importedModules n) →
  importedModulesOf (update h f g) x = importedModulesOf g x.
Proof.
  intros Hf. rewrite importedModulesOf_update. case_decide; [|done].
  unfold importedModulesOf. destruct (nodes g !! x); simpl; auto.
Qed.

Lemma importedModulesOf_unallocated g h :
  ¬ allocated g h → importedModulesOf g h = [].
Proof.
  unfold allocated, importedModulesOf. intros E.
  rewrite lookup_ge_None_2; [done|lia].
Qed.

(** ** Rules for the Hoare triples *)

Lemma hoare_ret {A} (a : A) (P : ModuleGraph → Prop) Q E :
  (∀ g, P g → Q a g) → triple P (mret a) Q E.
Proof. intros HQ g Hg. by apply HQ. Qed.

Lemma hoare_bind {A B} (m : M A) (k : A → M B) P R Q E :
  triple P m R E → (∀ a, triple (R a) (k a) Q E) → triple P (m ≫= k) Q E.
Proof.
  intros Hm Hk g Hg. unfold mbind, M_bind.
  specialize (Hm g Hg). destruct (m g) as [[a|e] g1]; [by apply Hk|done].
Qed.

Lemma hoare_gets {A} (f : ModuleGraph → A) (P : ModuleGraph → Prop) Q E :
  (∀ g, P g → Q (f g) g) → triple P (gets f) Q E.
Proof. intros HQ g Hg. by apply HQ. Qed.

Lemma hoare_modify f (P : ModuleGraph → Prop) Q E :
  (∀ g, P g → Q () (f g)) → triple P (modify f) Q E.
Proof. intros HQ g Hg. by apply HQ. Qed.

Lemma hoare_conseq {A} (m : M A) (P P' : ModuleGraph → Prop) Q Q' E E' :
  triple P' m Q' E' → (∀ g, P g → P' g) → (∀ a g, Q' a g → Q a g) →
  (∀ g, E' g → E g) →
  triple P m Q E.
Proof.
  intros Hm HP HQ HE g Hg. specialize (Hm g (HP g Hg)).
  destruct (m g) as [[a|e] g1]; auto.
Qed.

(** A method that throws before it writes: what held before the call
    holds of the graph it leaves. *)
Lemma hoare_thrown {A} (m : M A) (P : ModuleGraph → Prop) Q E :
  hoare P m Q →
  (∀ g e g', m g = (thrown e, g') → g' = g) →
  (∀ g, P g → E g) →
  triple P m Q E.
Proof.
  intros Hm Hthrow HE g Hg. specialize (Hm g Hg).
  destruct (m g) as [[a|e] g1] eqn:Em; [done|].
  rewrite (Hthrow g e g1 Em). by apply HE.
Qed.

Lemma hoare_forEach {X} (body : X → M unit) (l : list X)
    (I : ModuleGraph → Prop) E :
  (∀ x, x ∈ l → triple I (body x) (λ _, I) E) →
  triple I (forEach body l) (λ _, I) E.
Proof.
  induction l as [|x l IH]; intros Hbody.
  - by apply hoare_ret.
  - simpl. eapply hoare_bind.
    + apply Hbody. left.
    + intros []. apply IH. intros y Hy. apply Hbody. by right.
Qed.

(** The invariant of a loop with a local variable sees the elements done
    and those still to do. *)
Lemma hoare_forEachAcc {X A} (body : A → X → M A) (l : list X) (a0 : A)
    (I : list X → list X → A → ModuleGraph → Prop) E :
  (∀ done x rest a, l = done ++ x :: rest →
     triple (I done (x :: rest) a) (body a x) (I (done ++ [x]) rest) E) →
  triple (I [] l a0) (forEachAcc body l a0) (I l []) E.
Proof.
  intros Hbody.
  cut (∀ rest done a, l = done ++ rest →
         triple (I done rest a) (forEachAcc body rest a) (I l []) E).
  { intros Hcut. by apply (Hcut l [] a0). }
  induction rest as [|x rest IH]; intros done a Hl.
  - rewrite app_nil_r in Hl. rewrite Hl. by apply hoare_ret.
  - simpl. eapply hoare_bind.
    + by apply Hbody.
    + intros a'. apply IH. by rewrite <- app_assoc.
Qed.

Lemma hoare_forEach_prefix {X} (body : X → M unit) (l : list X)
    (I : list X → ModuleGraph → Prop) E :
  (∀ done x rest, l = done ++ x :: rest →
     triple (I done) (body x) (λ _, I (done ++ [x])) E) →
  triple (I []) (forEach body l) (λ _, I l) E.
Proof.
  intros Hbody.
  cut (∀ rest done, l = done ++ rest →
         triple (I done) (forEach body rest) (λ _, I l) E).
  { intros Hcut. by apply (Hcut l []). }
  induction rest as [|x rest IH]; intros done Hl.
  - rewrite app_nil_r in Hl. rewrite Hl. by apply hoare_ret.
  - simpl. eapply hoare_bind.
    + by apply (Hbody done x rest).
    + intros []. apply IH. by rewrite <- app_assoc.
Qed.

(** A loop returns if its body does. *)
Lemma forEach_returns {X} (body : X → M unit) (l : list X) :
  (∀ x g, x ∈ l → is_returned (body x g).1) →
  ∀ g, is_returned (forEach body l g).1.
Proof.
  induction l as [|x l IH]; intros Hbody g; [done|].
  simpl. unfold mbind, M_bind.
  pose proof (Hbody x g (list_elem_of_here _ _)) as Hx.
  destruct (body x g) as [[[]|e] g1]; [|done].
  apply IH. intros y g' Hy. apply Hbody. by right.
Qed.

Lemma forEachAcc_returns {X A} (body : A → X → M A) (l : list X) :
  (∀ a x g, is_returned (body a x g).1) →
  ∀ a g, is_returned (forEachAcc body l a g).1.
Proof.
  intros Hbody. induction l as [|x l IH]; intros a g; [done|].
  simpl. unfold mbind, M_bind.
  pose proof (Hbody a x g) as Hx.
  destruct (body a x g) as [[a'|e] g1]; [|done].
  apply IH.
Qed.

(** A loop that returns has run its body on every element, and every
    run returned. *)
Lemma forEach_returned {X} (body : X → M unit) (l : list X)
    (R : X → Prop) :
  (∀ x g, is_returned (body x g).1 → R x) →
  ∀ g, is_returned (forEach body l g).1 → Forall R l.
Proof.
  intros Hbody. induction l as [|x l IH]; intros g Hg; [done|].
  simpl in Hg. unfold mbind, M_bind in Hg.
  pose proof (Hbody x g) as Hx.
  destruct (body x g) as [[[]|e] g1]; [|done].
  constructor; [by apply Hx|]. by apply (IH g1).
Qed.

(** ** [ensureEntryFromUrl] and [createFileOnlyEntry] in closed form *)

Lemma alter_snoc {A} (f : A → A) (l : list A) (x : A) :
  alter f (length l) (l ++ [x]) = l ++ [f x].
Proof.
  replace (length l) with (length l + 0) by lia.
  by rewrite alter_app_r.
Qed.

Lemma ensureEntryFromUrl_throws rawUrl ssr g e :
  resolveUrl resolveId rawUrl ssr = thrown e →
  ensureEntryFromUrl resolveId rawUrl ssr g = (thrown e, g).
Proof.
  intros Hr. unfold ensureEntryFromUrl, mbind, M_bind, await. by rewrite Hr.
Qed.

Lemma ensureEntryFromUrl_hit rawUrl ssr g u rid m h :
  resolveUrl resolveId rawUrl ssr = returned (u, rid, m) →
  urlToModuleMap g !! u = Some h →
  ensureEntryFromUrl resolveId rawUrl ssr g = (returned h, g).
Proof.
  intros Hr Hu. unfold ensureEntryFromUrl, mbind, M_bind, await.
  rewrite Hr. unfold gets. by rewrite Hu.
Qed.

Lemma ensureEntryFromUrl_miss rawUrl ssr g u rid m :
  resolveUrl resolveId rawUrl ssr = returned (u, rid, m) →
  urlToModuleMap g !! u = None →
  ensureEntryFromUrl resolveId rawUrl ssr g =
  (returned (length (nodes g)),
   {| nodes := nodes g ++ [entry_node u rid m];
      urlToModuleMap := <[u := length (nodes g)]> (urlToModuleMap g);
      idToModuleMap := JsMap.set (idToModuleMap g) rid (length (nodes g));
      fileToModulesMap :=
        <[cleanUrl rid :=
            JsSet.add (default [] (fileToModulesMap g !! cleanUrl rid))
              (length (nodes g))]> (fileToModulesMap g);
      safeModulesPath := safeModulesPath g |}).
Proof.
  intros Hr Hu. unfold ensureEntryFromUrl, mbind, M_bind, await.
  rewrite Hr. unfold gets. rewrite Hu.
  unfold alloc, modify, bucket_ensure, bucket_add, mbind, M_bind, gets,
    mret, M_ret, update, entry_node.
  destruct m as [x|]; simpl;
    destruct (fileToModulesMap g !! cleanUrl rid) as [s|] eqn:Hf; simpl;
    rewrite ?Hf, ?alter_snoc, ?lookup_insert_eq, ?insert_insert_eq; simpl;
    rewrite ?alter_snoc; simpl; rewrite ?alter_snoc; done.
Qed.

(** The three cases of [ensureEntryFromUrl]: [resolveUrl] throws, the url
    is registered, or it is not. *)
Ltac ensure_cases rawUrl ssr g :=
  let u := fresh "u" in
  let rid := fresh "rid" in
  let m := fresh "m" in
  let e := fresh "e" in
  let h := fresh "h" in
  let Hr := fresh "Hr" in
  let Hu := fresh "Hu" in
  destruct (resolveUrl resolveId rawUrl ssr) as [[[u rid] m]|e] eqn:Hr;
  [ destruct (urlToModuleMap g !! u) as [h|] eqn:Hu;
    [ rewrite ?(ensureEntryFromUrl_hit _ _ _ _ _ _ _ Hr Hu) in *
    | rewrite ?(ensureEntryFromUrl_miss _ _ _ _ _ _ Hr Hu) in * ]
  | rewrite ?(ensureEntryFromUrl_throws _ _ _ _ Hr) in * ].

Lemma createFileOnlyEntry_unfold file0 g :
  let f := normalizePath file0 in
  let s := default [] (fileToModulesMap g !! f) in
  let g1 := match fileToModulesMap g !! f with
            | Some _ => g
            | None => set_fileToModulesMap (<[f := []]> (fileToModulesMap g)) g
            end in
  createFileOnlyEntry file0 g =
  match List.find (fileOnlyMatch g (FS_PREFIX +:+ f) f) s with
  | Some m => (returned m, g1)
  | None =>
      (returned (length (nodes g)),
       {| nodes := nodes g ++ [file_only_node f];
          urlToModuleMap := urlToModuleMap g;
          idToModuleMap := idToModuleMap g;
          fileToModulesMap :=
            <[f := JsSet.add s (length (nodes g))]> (fileToModulesMap g);
          safeModulesPath := safeModulesPath g |})
  end.
Proof.
  intros f s g1. unfold createFileOnlyEntry. fold f.
  unfold bucket_ensure, mbind, M_bind, gets, modify, mret, M_ret.
  subst s g1. destruct (fileToModulesMap g !! f) as [s|] eqn:Hf; simpl.
  - destruct (List.find _ s) as [m|]; [done|].
    unfold alloc, bucket_add, modify, update, file_only_node. simpl.
    by rewrite Hf, alter_snoc.
  - unfold alloc, bucket_add, modify, update, file_only_node. simpl.
    by rewrite alter_snoc, lookup_insert_eq, insert_insert_eq.
Qed.


(** ** Creating entries only extends the graph *)

Lemma extends_refl g : extends g g.
Proof. exists []. by rewrite app_nil_r. Qed.

Lemma extends_allocated g g' h : extends g g' → allocated g h → allocated g' h.
Proof.
  intros (e & Hn & _) Hh. unfold allocated in *.
  rewrite Hn, length_app. lia.
Qed.

Lemma extends_edges_at g g' h (proj : ModuleNode → list nat) :
  extends g g' →
  (∀ n, importers n = [] ∧ importedModules n = [] → proj n = []) →
  from_option proj [] (nodes g' !! h) = from_option proj [] (nodes g !! h).
Proof.
  intros (e & Hn & He & _) Hproj. rewrite Hn.
  destruct (decide (h < length (nodes g))) as [Hlt|Hge].
  - by rewrite lookup_app_l.
  - rewrite lookup_app_r by lia.
    rewrite (lookup_ge_None_2 (nodes g)) by lia. simpl.
    destruct (e !! _) as [n|] eqn:En; [|done]. simpl.
    apply Hproj. eapply Forall_lookup_1 in He; eauto.
Qed.

Lemma extends_importersOf g g' h :
  extends g g' → importersOf g' h = importersOf g h.
Proof. intros He. apply extends_edges_at; [done|]. by intros n [??]. Qed.

Lemma extends_importedModulesOf g g' h :
  extends g g' → importedModulesOf g' h = importedModulesOf g h.
Proof. intros He. apply extends_edges_at; [done|]. by intros n [??]. Qed.

Lemma entry_node_edges u rid m :
  importers (entry_node u rid m) = [] ∧
  importedModules (entry_node u rid m) = [].
Proof. by destruct m. Qed.

(** [ensureEntryFromUrl] throws exactly if [resolveUrl] does, and then it
    has written nothing. *)
Lemma ensureEntryFromUrl_returns rawUrl ssr g :
  is_returned (ensureEntryFromUrl resolveId rawUrl ssr g).1 ↔
  is_Some (canonical resolveId rawUrl ssr).
Proof.
  unfold canonical. ensure_cases rawUrl ssr g; simpl.
  - split; [by eexists|done].
  - split; [by eexists|done].
  - split; [done|]. by intros [? [=]].
Qed.

Lemma ensureEntryFromUrl_thrown rawUrl ssr g e g' :
  ensureEntryFromUrl resolveId rawUrl ssr g = (thrown e, g') → g' = g.
Proof. ensure_cases rawUrl ssr g; by intros [=]. Qed.

Lemma ensureEntryFromUrl_extends rawUrl ssr g :
  extends g (ensureEntryFromUrl resolveId rawUrl ssr g).2.
Proof.
  ensure_cases rawUrl ssr g; simpl; [apply extends_refl| |apply extends_refl].
  exists [entry_node u rid m]. split_and!; [done| |by apply insert_subseteq].
  apply Forall_singleton, entry_node_edges.
Qed.

Lemma ensureEntryFromUrl_registered rawUrl ssr g h :
  (ensureEntryFromUrl resolveId rawUrl ssr g).1 = returned h →
  registered resolveId (ensureEntryFromUrl resolveId rawUrl ssr g).2
    rawUrl ssr = Some h.
Proof.
  unfold registered, canonical. ensure_cases rawUrl ssr g; simpl.
  - by intros [= <-].
  - intros [= <-]. apply lookup_insert_eq.
  - done.
Qed.

Lemma ensureEntryFromUrl_allocated rawUrl ssr g :
  url_index_allocated g →
  url_index_allocated (ensureEntryFromUrl resolveId rawUrl ssr g).2 ∧
  ∀ h, (ensureEntryFromUrl resolveId rawUrl ssr g).1 = returned h →
       allocated (ensureEntryFromUrl resolveId rawUrl ssr g).2 h.
Proof.
  intros Hg.
  cut (url_index_allocated (ensureEntryFromUrl resolveId rawUrl ssr g).2).
  { intros Hg'. split; [done|]. intros h Hh.
    apply ensureEntryFromUrl_registered in Hh. unfold registered in Hh.
    destruct (canonical resolveId rawUrl ssr) as [c|]; [|done].
    by eapply Hg'. }
  ensure_cases rawUrl ssr g; simpl; [done| |done].
  intros u' h'. unfold allocated. simpl. rewrite length_app. simpl.
  rewrite lookup_insert. case_decide.
  - intros [= <-]. lia.
  - intros Hh'. apply Hg in Hh'. unfold allocated in Hh'. lia.
Qed.

Lemma url_index_allocated_update h f g :
  url_index_allocated g → url_index_allocated (update h f g).
Proof. intros Hg u x Hx. apply allocated_update. by eapply Hg. Qed.

(** [resolveDep] on an element of the set. *)
Lemma resolveDep_returns ssr x g :
  is_returned (resolveDep resolveId ssr x g).1 ↔ resolves resolveId ssr x.
Proof.
  destruct x as [u|d]; simpl; [apply ensureEntryFromUrl_returns|done].
Qed.

Lemma resolveDep_thrown ssr x g e g' :
  resolveDep resolveId ssr x g = (thrown e, g') → g' = g.
Proof.
  destruct x as [u|d]; simpl; [apply ensureEntryFromUrl_thrown|by intros [=]].
Qed.

Lemma resolveDep_extends ssr x g : extends g (resolveDep resolveId ssr x g).2.
Proof.
  destruct x as [u|d]; simpl; [apply ensureEntryFromUrl_extends|].
  apply extends_refl.
Qed.

Lemma resolveDep_allocated ssr x g :
  url_index_allocated g →
  (∀ d, x = inr d → allocated g d) →
  url_index_allocated (resolveDep resolveId ssr x g).2 ∧
  ∀ d, (resolveDep resolveId ssr x g).1 = returned d →
       allocated (resolveDep resolveId ssr x g).2 d.
Proof.
  intros Hg Hx. destruct x as [u|d]; simpl.
  - by apply ensureEntryFromUrl_allocated.
  - split; [done|]. intros d' [= <-]. by apply Hx.
Qed.


(** ** Writes to the edge sets *)

Lemma importersOf_update_importers d (F : list nat → list nat) g x :
  allocated g d ∨ F [] = [] →
  importersOf (update d (λ n, set_importers (F (importers n)) n) g) x =
  if decide (d = x) then F (importersOf g x) else importersOf g x.
Proof.
  intros Hd. rewrite importersOf_update. case_decide as E; [|done]. subst x.
  unfold importersOf. destruct (nodes g !! d) as [n|] eqn:En; simpl; [done|].
  destruct Hd as [Hd|Hd]; [|done].
  apply allocated_lookup in Hd. rewrite En in Hd. by destruct Hd.
Qed.

Lemma importedModulesOf_update_importedModules d (F : list nat → list nat)
    g x :
  allocated g d ∨ F [] = [] →
  importedModulesOf
    (update d (λ n, set_importedModules (F (importedModules n)) n) g) x =
  if decide (d = x) then F (importedModulesOf g x) else importedModulesOf g x.
Proof.
  intros Hd. rewrite importedModulesOf_update. case_decide as E; [|done].
  subst x. unfold importedModulesOf.
  destruct (nodes g !! d) as [n|] eqn:En; simpl; [done|].
  destruct Hd as [Hd|Hd]; [|done].
  apply allocated_lookup in Hd. rewrite En in Hd. by destruct Hd.
Qed.

Lemma edge_symmetric_sym_except mod' g :
  edge_symmetric g ↔ sym_except mod' [] g.
Proof.
  split.
  - intros Hs. split_and!.
    + intros a b _. apply Hs.
    + intros a. apply Hs.
    + intros a Ha. left. by apply Hs.
  - intros (H1 & H2 & H3) a b. destruct (decide (b = mod')) as [->|Hb].
    + split; [apply H2|]. intros Ha. destruct (H3 a Ha) as [?|Hin]; [done|].
      by apply elem_of_nil in Hin.
    + by apply H1.
Qed.

Lemma sym_except_ext mod' pending g g' :
  (∀ x, importersOf g' x = importersOf g x) →
  (∀ x, importedModulesOf g' x = importedModulesOf g x) →
  sym_except mod' pending g → sym_except mod' pending g'.
Proof.
  intros Hi Hm (H1 & H2 & H3). split_and!.
  - intros a b Hb. rewrite Hi, Hm. by apply H1.
  - intros a. rewrite Hi, Hm. apply H2.
  - intros a. rewrite Hi, Hm. apply H3.
Qed.

Lemma edge_symmetric_ext g g' :
  (∀ x, importersOf g' x = importersOf g x) →
  (∀ x, importedModulesOf g' x = importedModulesOf g x) →
  edge_symmetric g → edge_symmetric g'.
Proof. intros Hi Hm Hs a b. rewrite Hi, Hm. apply Hs. Qed.

(** ** Edge symmetry through [updateModuleInfo] *)

Lemma addImport_unfold mod' ssr x g :
  addImport resolveId mod' ssr x g =
  match resolveDep resolveId ssr x g with
  | (returned d, g1) =>
      (returned (),
       update mod'
         (λ n, set_importedModules (JsSet.add (importedModules n) d) n)
         (update d (λ n, set_importers (JsSet.add (importers n) mod') n) g1))
  | (thrown e, g1) => (thrown e, g1)
  end.
Proof.
  unfold addImport, mbind, M_bind, modify.
  by destruct (resolveDep resolveId ssr x g) as [[d|e] g1].
Qed.

Lemma addImport_thrown mod' ssr x g e g' :
  addImport resolveId mod' ssr x g = (thrown e, g') → g' = g.
Proof.
  rewrite addImport_unfold.
  destruct (resolveDep resolveId ssr x g) as [[d|e0] g1] eqn:Hr; [done|].
  intros Heq. inversion Heq. subst. by eapply resolveDep_thrown.
Qed.

Lemma addImport_returns mod' ssr x g :
  is_returned (addImport resolveId mod' ssr x g).1 ↔
  resolves resolveId ssr x.
Proof.
  rewrite addImport_unfold, <- (resolveDep_returns ssr x g).
  by destruct (resolveDep resolveId ssr x g) as [[d|e] g1].
Qed.

Lemma addImport_sym mod' ssr x prev (imported : list (string + nat)) :
  x ∈ imported →
  let I g :=
    sym_except mod' prev g ∧ allocated g mod' ∧ url_index_allocated g ∧
    (∀ d, inr d ∈ imported → allocated g d) in
  hoare I (addImport resolveId mod' ssr x) (λ _, I).
Proof.
  intros Hx I g (Hsym & Hmod & Hurl & Himp). rewrite addImport_unfold.
  assert (Hext := resolveDep_extends ssr x g).
  destruct (resolveDep_allocated ssr x g Hurl) as [Hurl1 Hd].
  { intros d ->. by apply Himp. }
  destruct (resolveDep resolveId ssr x g) as [[d|e] g1]; [|done].
  simpl in *. specialize (Hd d eq_refl).
  assert (Hmod1 : allocated g1 mod') by by eapply extends_allocated.
  assert (Hsym1 : sym_except mod' prev g1).
  { eapply sym_except_ext; [..|exact Hsym]; intros y;
      [by apply extends_importersOf|by apply extends_importedModulesOf]. }
  destruct Hsym1 as (H1 & H2 & H3).
  set (g2 := update d _ g1).
  assert (Hmod2 : allocated g2 mod') by by apply allocated_update.
  assert (Hi : ∀ y, importersOf (update mod' (λ n, set_importedModules
             (JsSet.add (importedModules n) d) n) g2) y
           = if decide (d = y) then JsSet.add (importersOf g1 y) mod'
             else importersOf g1 y).
  { intros y. rewrite importersOf_update_frame by done.
    apply (importersOf_update_importers d (λ s, JsSet.add s mod')). by left. }
  assert (Hm : ∀ y, importedModulesOf (update mod' (λ n, set_importedModules
             (JsSet.add (importedModules n) d) n) g2) y
           = if decide (mod' = y) then JsSet.add (importedModulesOf g1 y) d
             else importedModulesOf g1 y).
  { intros y.
    rewrite (importedModulesOf_update_importedModules mod'
               (λ s, JsSet.add s d)) by by left.
    case_decide; [f_equal|]; by apply importedModulesOf_update_frame. }
  split_and!.
  - split_and!.
    + intros a b Hb. rewrite Hi, Hm. rewrite decide_False by done.
      case_decide; [|by apply H1].
      rewrite JsSet_elem_of_add, H1 by done.
      split; [by right|]. by intros [?|?].
    + intros a. rewrite Hi, Hm. rewrite decide_True by done.
      rewrite JsSet_elem_of_add. intros [->|Ha].
      * rewrite decide_True by done. apply JsSet_elem_of_add. by left.
      * case_decide; [apply JsSet_elem_of_add; by left|by apply H2].
    + intros a. rewrite Hi, Hm. rewrite (decide_True (P := mod' = mod')) by done.
      rewrite JsSet_elem_of_add. case_decide as E.
      * subst. intros _. by left; left.
      * intros Ha. destruct (H3 a Ha); auto.
  - by apply allocated_update.
  - by do 2 apply url_index_allocated_update.
  - intros d' Hd'. do 2 apply allocated_update.
    eapply extends_allocated; [done|]. by apply Himp.
Qed.


Lemma dropImporter_unfold mod' acc x g :
  dropImporter mod' acc x g =
  if JsSet.has (importedModulesOf g mod') x then (returned acc, g)
  else
    let g1 := update x
      (λ n, set_importers (JsSet.delete (importers n) mod') n) g in
    (returned (if bool_decide (JsSet.size (importersOf g1 x) = 0)
               then Some (JsSet.add (default [] acc) x) else acc), g1).
Proof.
  unfold dropImporter, mbind, M_bind, gets, modify. simpl.
  destruct (JsSet.has _ x); simpl; [done|]. by case_bool_decide.
Qed.

Lemma dropImporter_returns mod' acc x g :
  is_returned (dropImporter mod' acc x g).1.
Proof. rewrite dropImporter_unfold. by destruct (JsSet.has _ x). Qed.

(** A method that never throws. *)
Lemma hoare_returns {A} (m : M A) (P : ModuleGraph → Prop) Q E :
  hoare P m Q → (∀ g, is_returned (m g).1) → triple P m Q E.
Proof.
  intros Hm Hret g Hg. specialize (Hm g Hg). specialize (Hret g).
  by destruct (m g) as [[a|e] g1].
Qed.

Lemma importersOf_drop mod' x g y :
  importersOf
    (update x (λ n, set_importers (JsSet.delete (importers n) mod') n) g) y =
  if decide (x = y) then JsSet.delete (importersOf g y) mod'
  else importersOf g y.
Proof.
  apply (importersOf_update_importers x (λ s, JsSet.delete s mod')).
  by right.
Qed.

Lemma dropImporter_sym mod' acc x rest :
  hoare (sym_except mod' (x :: rest)) (dropImporter mod' acc x)
    (λ _, sym_except mod' rest).
Proof.
  intros g (H1 & H2 & H3). rewrite dropImporter_unfold.
  destruct (JsSet.has _ x) eqn:Hx; simpl.
  - apply JsSet_has_true in Hx. split_and!; [done..|].
    intros a Ha. destruct (H3 a Ha) as [?|[->|?]%elem_of_cons]; auto.
  - apply JsSet_has_false in Hx. split_and!.
    + intros a b Hb. rewrite importersOf_drop.
      rewrite importedModulesOf_update_frame by done.
      case_decide; [|by apply H1].
      rewrite JsSet_elem_of_delete, H1 by done. tauto.
    + intros a Ha. rewrite importedModulesOf_update_frame in Ha by done.
      rewrite importersOf_drop. rewrite decide_False; [by apply H2|].
      by intros ->.
    + intros a. rewrite importersOf_drop.
      rewrite importedModulesOf_update_frame by done.
      case_decide as E.
      * rewrite JsSet_elem_of_delete. by intros [? _].
      * intros Ha. destruct (H3 a Ha) as [?|[->|?]%elem_of_cons]; auto.
        done.
Qed.

Lemma acceptDep_unfold mod' ssr x g :
  acceptDep resolveId mod' ssr x g =
  match resolveDep resolveId ssr x g with
  | (returned d, g1) =>
      (returned (),
       update mod'
         (λ n, set_acceptedHmrDeps (JsSet.add (acceptedHmrDeps n) d) n) g1)
  | (thrown e, g1) => (thrown e, g1)
  end.
Proof.
  unfold acceptDep, mbind, M_bind, modify.
  by destruct (resolveDep resolveId ssr x g) as [[d|e] g1].
Qed.

Lemma acceptDep_thrown mod' ssr x g e g' :
  acceptDep resolveId mod' ssr x g = (thrown e, g') → g' = g.
Proof.
  rewrite acceptDep_unfold.
  destruct (resolveDep resolveId ssr x g) as [[d|e0] g1] eqn:Hr; [done|].
  intros Heq. inversion Heq. subst. by eapply resolveDep_thrown.
Qed.

Lemma acceptDep_returns mod' ssr x g :
  is_returned (acceptDep resolveId mod' ssr x g).1 ↔
  resolves resolveId ssr x.
Proof.
  rewrite acceptDep_unfold, <- (resolveDep_returns ssr x g).
  by destruct (resolveDep resolveId ssr x g) as [[d|e] g1].
Qed.

Lemma acceptDep_sym mod' ssr x :
  let I g := edge_symmetric g ∧ url_index_allocated g in
  hoare I (acceptDep resolveId mod' ssr x) (λ _, I).
Proof.
  intros I g [Hs Hu]. rewrite acceptDep_unfold.
  assert (Hext := resolveDep_extends ssr x g).
  assert (Hall : url_index_allocated (resolveDep resolveId ssr x g).2).
  { destruct x as [u|d]; simpl; [|done].
    by apply ensureEntryFromUrl_allocated. }
  destruct (resolveDep resolveId ssr x g) as [[d|e] g1]; [|done].
  simpl in *. split.
  - eapply edge_symmetric_ext; [..|exact Hs]; intros y.
    + rewrite importersOf_update_frame by done.
      by apply extends_importersOf.
    + rewrite importedModulesOf_update_frame by done.
      by apply extends_importedModulesOf.
  - by apply url_index_allocated_update.
Qed.



(** The proof rule of [updateModuleInfo]: an invariant for each of its
    three loops.  [prev] is the set [mod.importedModules] held before the
    call.  The method throws in its first or in its third loop, between
    two runs of the body. *)
Lemma triple_updateModuleInfo mod' imported accepted isSelfAccepting' ssr
    (P : ModuleGraph → Prop)
    (I1 : list nat → list (string + nat) → ModuleGraph → Prop)
    (I2 : list nat → list nat → list nat → option (list nat) →
          ModuleGraph → Prop)
    (I3 : option (list nat) → ModuleGraph → Prop)
    (Q : option (list nat) → ModuleGraph → Prop)
    (E : ModuleGraph → Prop) :
  (∀ g, P g →
     let g1 := update mod' (set_isSelfAccepting isSelfAccepting') g in
     I1 (importedModulesOf g1 mod') []
        (update mod' (set_importedModules []) g1)) →
  (∀ prev done x rest, imported = done ++ x :: rest →
     hoare (I1 prev done) (addImport resolveId mod' ssr x)
       (λ _, I1 prev (done ++ [x]))) →
  (∀ prev g, I1 prev imported g → I2 prev [] prev None g) →
  (∀ prev done x rest acc, prev = done ++ x :: rest →
     hoare (I2 prev done (x :: rest) acc) (dropImporter mod' acc x)
       (I2 prev (done ++ [x]) rest)) →
  (∀ prev acc g, I2 prev prev [] acc g →
     I3 acc (update mod' (set_acceptedHmrDeps []) g)) →
  (∀ acc x, x ∈ accepted →
     hoare (I3 acc) (acceptDep resolveId mod' ssr x) (λ _, I3 acc)) →
  (∀ acc g, I3 acc g → Q acc g) →
  (∀ prev done g, I1 prev done g → E g) →
  (∀ acc g, I3 acc g → E g) →
  triple P
    (updateModuleInfo resolveId mod' imported accepted isSelfAccepting' ssr)
    Q E.
Proof.
  intros Hinit H1 H12 H2 H23 H3 HQ HE1 HE3. unfold updateModuleInfo.
  eapply hoare_bind with (R := λ _ g1, ∃ g, P g ∧
    g1 = update mod' (set_isSelfAccepting isSelfAccepting') g).
  { apply hoare_modify. eauto. }
  intros []. eapply hoare_bind with (R := λ prev g1, ∃ g, P g ∧
    g1 = update mod' (set_isSelfAccepting isSelfAccepting') g ∧
    prev = importedModulesOf g1 mod').
  { apply hoare_gets. intros g1 (g & Hg & ->). eauto. }
  intros prev. eapply hoare_bind with (R := λ _, I1 prev []).
  { apply hoare_modify. intros g1 (g & Hg & -> & ->). by apply Hinit. }
  intros [].
  eapply hoare_bind with (R := λ _, I1 prev imported).
  { apply hoare_forEach_prefix. intros done x rest Hl.
    apply hoare_thrown;
      [by apply (H1 prev done x rest)|apply addImport_thrown|apply HE1]. }
  intros []. eapply hoare_bind with (R := I2 prev prev []).
  { eapply hoare_conseq; [apply (hoare_forEachAcc _ _ _ (I2 prev))|..].
    - intros done x rest a Hl.
      apply hoare_returns; [by apply H2|apply dropImporter_returns].
    - intros g. apply H12.
    - intros a g Ha. exact Ha.
    - intros g Hg. exact Hg. }
  intros acc. eapply hoare_bind with (R := λ _, I3 acc).
  { apply hoare_modify. intros g. apply H23. }
  intros []. eapply hoare_bind with (R := λ _, I3 acc).
  { apply hoare_forEach. intros x Hx.
    apply hoare_thrown; [by apply H3|apply acceptDep_thrown|apply HE3]. }
  intros []. apply hoare_ret. intros g. apply HQ.
Qed.

Lemma hoare_updateModuleInfo mod' imported accepted isSelfAccepting' ssr
    (P : ModuleGraph → Prop)
    (I1 : list nat → list (string + nat) → ModuleGraph → Prop)
    (I2 : list nat → list nat → list nat → option (list nat) →
          ModuleGraph → Prop)
    (I3 : option (list nat) → ModuleGraph → Prop)
    (Q : option (list nat) → ModuleGraph → Prop) :
  (∀ g, P g →
     let g1 := update mod' (set_isSelfAccepting isSelfAccepting') g in
     I1 (importedModulesOf g1 mod') []
        (update mod' (set_importedModules []) g1)) →
  (∀ prev done x rest, imported = done ++ x :: rest →
     hoare (I1 prev done) (addImport resolveId mod' ssr x)
       (λ _, I1 prev (done ++ [x]))) →
  (∀ prev g, I1 prev imported g → I2 prev [] prev None g) →
  (∀ prev done x rest acc, prev = done ++ x :: rest →
     hoare (I2 prev done (x :: rest) acc) (dropImporter mod' acc x)
       (I2 prev (done ++ [x]) rest)) →
  (∀ prev acc g, I2 prev prev [] acc g →
     I3 acc (update mod' (set_acceptedHmrDeps []) g)) →
  (∀ acc x, x ∈ accepted →
     hoare (I3 acc) (acceptDep resolveId mod' ssr x) (λ _, I3 acc)) →
  (∀ acc g, I3 acc g → Q acc g) →
  hoare P
    (updateModuleInfo resolveId mod' imported accepted isSelfAccepting' ssr)
    Q.
Proof.
  intros Hinit H1 H12 H2 H23 H3 HQ.
  by eapply triple_updateModuleInfo.
Qed.

(** What holds of the graph a method leaves, whether it returned or
    threw. *)
Lemma triple_left {A} (m : M A) (P I : ModuleGraph → Prop) g :
  triple P m (λ _, I) I → P g → I (m g).2.
Proof.
  intros Hm Hg. specialize (Hm g Hg). by destruct (m g) as [[a|e] g1].
Qed.

(** What holds of the result and the graph when the method returned. *)
Lemma hoare_returned {A} (m : M A) (P : ModuleGraph → Prop) Q g a :
  hoare P m Q → P g → (m g).1 = returned a → Q a (m g).2.
Proof.
  intros Hm Hg. specialize (Hm g Hg). destruct (m g) as [[a'|e] g1]; [|done].
  by intros [= <-].
Qed.

(** [updateModuleInfo] returns exactly if [resolveUrl] returns for every
    url of the two sets; otherwise it throws. *)
Lemma updateModuleInfo_returns mod' imported accepted isSelfAccepting' ssr g :
  is_returned (updateModuleInfo resolveId mod' imported accepted
                 isSelfAccepting' ssr g).1 ↔
  Forall (resolves resolveId ssr) (imported ++ accepted).
Proof.
  rewrite Forall_app.
  unfold updateModuleInfo, mbind, M_bind, modify, gets, mret, M_ret.
  set (g0 := update mod' (set_isSelfAccepting isSelfAccepting') g).
  set (g1 := update mod' (set_importedModules []) g0).
  pose proof (forEach_returns (addImport resolveId mod' ssr) imported) as R1.
  pose proof (forEach_returned (addImport resolveId mod' ssr) imported
                (resolves resolveId ssr)
                (λ x g, proj1 (addImport_returns mod' ssr x g)) g1) as R1'.
  destruct (forEach (addImport resolveId mod' ssr) imported g1)
    as [[[]|e1] g2] eqn:E1; simpl in *.
  2:{ split; [done|]. intros [Hi _]. specialize (R1 (λ x g' _,
        proj2 (addImport_returns mod' ssr x g')
          (proj1 (Forall_forall _ _) Hi x ltac:(done))) g1).
      by rewrite E1 in R1. }
  pose proof (forEachAcc_returns (dropImporter mod')
                (importedModulesOf g0 mod')
                (dropImporter_returns mod') None g2) as R2.
  destruct (forEachAcc (dropImporter mod') _ None g2) as [[acc|e2] g3];
    [|done].
  set (g4 := update mod' (set_acceptedHmrDeps []) g3).
  pose proof (forEach_returns (acceptDep resolveId mod' ssr) accepted) as R3.
  pose proof (forEach_returned (acceptDep resolveId mod' ssr) accepted
                (resolves resolveId ssr)
                (λ x g, proj1 (acceptDep_returns mod' ssr x g)) g4) as R3'.
  destruct (forEach (acceptDep resolveId mod' ssr) accepted g4)
    as [[[]|e3] g5] eqn:E3; simpl in *.
  - split; [|done]. intros _. split; [by apply R1'|by apply R3'].
  - split; [done|]. intros [_ Ha]. specialize (R3 (λ x g' _,
      proj2 (acceptDep_returns mod' ssr x g')
        (proj1 (Forall_forall _ _) Ha x ltac:(done))) g4).
    by rewrite E3 in R3.
Qed.

(** A well-formed [updateModuleInfo] that returns keeps the edges
    symmetric. *)
Lemma updateModuleInfo_sym mod' imported accepted isSelfAccepting' ssr :
  hoare
    (λ g, edge_symmetric g ∧ url_index_allocated g ∧
          call_ok g (UpdateModuleInfo mod' imported accepted
                       isSelfAccepting' ssr))
    (updateModuleInfo resolveId mod' imported accepted isSelfAccepting' ssr)
    (λ _ g, edge_symmetric g ∧ url_index_allocated g).
Proof.
  eapply hoare_updateModuleInfo with
    (I1 := λ prev _ g, sym_except mod' prev g ∧ allocated g mod' ∧
             url_index_allocated g ∧
             (∀ d, inr d ∈ imported → allocated g d))
    (I2 := λ _ _ rest _ g, sym_except mod' rest g ∧ url_index_allocated g)
    (I3 := λ _ g, edge_symmetric g ∧ url_index_allocated g).
  - intros g (Hs & Hu & Hm & Hi & Ha). simpl.
    set (g1 := update mod' (set_isSelfAccepting isSelfAccepting') g).
    assert (Hm1 : allocated g1 mod') by by apply allocated_update.
    assert (Hmi : ∀ y, importedModulesOf
               (update mod' (set_importedModules []) g1) y =
               if decide (mod' = y) then [] else importedModulesOf g y).
    { intros y.
      rewrite (importedModulesOf_update_importedModules mod' (λ _, []))
        by by left.
      case_decide; [done|]. by apply importedModulesOf_update_frame. }
    assert (Hii : ∀ y, importersOf
               (update mod' (set_importedModules []) g1) y = importersOf g y).
    { intros y. rewrite importersOf_update_frame by done.
      by apply importersOf_update_frame. }
    split_and!.
    + split_and!.
      * intros a b Hb. rewrite Hmi, Hii. rewrite decide_False by done.
        apply Hs.
      * intros a. rewrite Hmi. rewrite decide_True by done.
        by intros ?%elem_of_nil.
      * intros a. rewrite Hii. intros Ha'. right.
        unfold g1. rewrite importedModulesOf_update_frame by done.
        by apply Hs.
    + by apply allocated_update.
    + by do 2 apply url_index_allocated_update.
    + intros d Hd. do 2 apply allocated_update. by apply Hi.
  - intros prev done x rest Hl.
    apply (addImport_sym mod' ssr x prev imported).
    rewrite Hl. apply elem_of_app. right. left.
  - intros prev g (Hs & _ & Hu & _). done.
  - intros prev done x rest acc _ g [Hs Hu].
    pose proof (dropImporter_sym mod' acc x rest g Hs) as Hd.
    rewrite dropImporter_unfold in *.
    destruct (JsSet.has _ x); simpl in *; [done|].
    split; [done|]. by apply url_index_allocated_update.
  - intros prev acc g [Hs Hu]. split.
    + apply edge_symmetric_sym_except in Hs.
      eapply edge_symmetric_ext; [..|exact Hs]; intros y;
        [by apply importersOf_update_frame
        |by apply importedModulesOf_update_frame].
    + by apply url_index_allocated_update.
  - intros acc x _. apply acceptDep_sym.
  - done.
Qed.

(** ** Back-edges, whether [updateModuleInfo] returns or throws *)

Lemma imports_mirrored_ext g g' :
  (∀ x, importersOf g' x = importersOf g x) →
  (∀ x, importedModulesOf g' x = importedModulesOf g x) →
  imports_mirrored g → imports_mirrored g'.
Proof. intros Hi Hm Hs a b. rewrite Hi, Hm. apply Hs. Qed.

Lemma edge_symmetric_mirrored g : edge_symmetric g → imports_mirrored g.
Proof. intros Hs a b. apply Hs. Qed.

(** ** The invalidation cascade *)

Lemma filter_length_le {A} (P Q : A → Prop)
    `{∀ x, Decision (P x)} `{∀ x, Decision (Q x)} (l : list A) :
  (∀ y, Q y → P y) → length (filter Q l) ≤ length (filter P l).
Proof.
  intros HQP. induction l as [|a l IH]; [done|].
  rewrite !filter_cons. destruct (decide (Q a)) as [Hq|Hq].
  - rewrite decide_True by auto. simpl. lia.
  - destruct (decide (P a)); simpl; lia.
Qed.

Lemma filter_length_lt {A} (P Q : A → Prop)
    `{∀ x, Decision (P x)} `{∀ x, Decision (Q x)} (l : list A) (x : A) :
  (∀ y, Q y → P y) → x ∈ l → P x → ¬ Q x →
  length (filter Q l) < length (filter P l).
Proof.
  intros HQP Hx HP HQ. induction l as [|a l IH]; [by apply elem_of_nil in Hx|].
  rewrite !filter_cons. apply elem_of_cons in Hx as [<-|Hx].
  - rewrite decide_False, decide_True by done. simpl.
    pose proof (filter_length_le P Q l HQP). lia.
  - specialize (IH Hx). destruct (decide (Q a)) as [Hq|Hq].
    + rewrite decide_True by auto. simpl. lia.
    + destruct (decide (P a)); simpl; lia.
Qed.

Lemma unseen_app_le g seen0 new : unseen g (seen0 ++ new) ≤ unseen g seen0.
Proof.
  apply filter_length_le. intros y Hy Hin. apply Hy, elem_of_app. by left.
Qed.

Lemma unseen_snoc_lt g seen0 x :
  allocated g x → x ∉ seen0 → unseen g (seen0 ++ [x]) < unseen g seen0.
Proof.
  intros Ha Hx. apply (filter_length_lt _ _ _ x).
  - intros y Hy Hin. apply Hy, elem_of_app. by left.
  - apply elem_of_seq. unfold allocated in Ha. lia.
  - done.
  - intros Hn. apply Hn, elem_of_app. right. by left.
Qed.

Lemma importers_closed_spec g :
  importers_closed g ↔ ∀ x y, y ∈ importersOf g x → allocated g y.
Proof.
  unfold importers_closed, importersOf. rewrite Forall_lookup. split.
  - intros Hc x y Hy. destruct (nodes g !! x) as [n|] eqn:En; simpl in Hy.
    + specialize (Hc x n En). rewrite Forall_forall in Hc. by apply Hc.
    + by apply elem_of_nil in Hy.
  - intros Hc x n En. apply Forall_forall. intros y Hy. apply (Hc x).
    by rewrite En.
Qed.


Lemma imported_by_ext g g' a b :
  (∀ x, importersOf g' x = importersOf g x) →
  imported_by g a b → imported_by g' a b.
Proof.
  intros He. apply rtc_subrel. intros x y Hy. by rewrite He.
Qed.

Lemma cascade_ext g g' roots seen0 new :
  (∀ x, importersOf g' x = importersOf g x) →
  length (nodes g') = length (nodes g) →
  cascade g roots seen0 new → cascade g' roots seen0 new.
Proof.
  intros He Hl (Hnd & Hnew & Hroots & Hcl & Hreach). split_and!; [done|..].
  - intros x Hx. destruct (Hnew x Hx). split; [done|].
    unfold allocated in *. by rewrite Hl.
  - done.
  - intros x y Hx. rewrite He. by apply Hcl.
  - intros x Hx. destruct (Hreach x Hx) as (r & Hr & Hrx).
    exists r. split; [done|]. by apply (imported_by_ext g).
Qed.

Lemma cascade_seen g roots seen0 :
  (∀ r, r ∈ roots → r ∈ seen0) → cascade g roots seen0 [].
Proof.
  intros Hr. split_and!.
  - apply NoDup_nil_2.
  - by intros x ?%elem_of_nil.
  - intros r Hin. rewrite app_nil_r. by apply Hr.
  - by intros x y ?%elem_of_nil.
  - by intros x ?%elem_of_nil.
Qed.

Lemma cascade_app g r1 r2 seen0 n1 n2 :
  cascade g r1 seen0 n1 → cascade g r2 (seen0 ++ n1) n2 →
  cascade g (r1 ++ r2) seen0 (n1 ++ n2).
Proof.
  intros (Hnd1 & Hnew1 & Hroots1 & Hcl1 & Hreach1)
         (Hnd2 & Hnew2 & Hroots2 & Hcl2 & Hreach2).
  split_and!.
  - apply NoDup_app. split_and!; [done| |done].
    intros x Hx1 Hx2. destruct (Hnew2 x Hx2) as [Hn _].
    apply Hn, elem_of_app. by right.
  - intros x [Hx|Hx]%elem_of_app; [by apply Hnew1|].
    destruct (Hnew2 x Hx) as [Hn Ha]. split; [|done].
    intros Hin. apply Hn, elem_of_app. by left.
  - intros r [Hr|Hr]%elem_of_app.
    + rewrite app_assoc. apply elem_of_app. left. by apply Hroots1.
    + rewrite app_assoc. by apply Hroots2.
  - intros x y [Hx|Hx]%elem_of_app Hy; rewrite app_assoc.
    + apply elem_of_app. left. by eapply Hcl1.
    + by eapply Hcl2.
  - intros x [Hx|Hx]%elem_of_app.
    + destruct (Hreach1 x Hx) as (r & Hr & Hrx). exists r.
      split; [|done]. apply elem_of_app. by left.
    + destruct (Hreach2 x Hx) as (r & Hr & Hrx). exists r.
      split; [|done]. apply elem_of_app. by right.
Qed.

Lemma cascade_visit g mod' seen0 new :
  mod' ∉ seen0 → allocated g mod' →
  cascade g (importersOf g mod') (seen0 ++ [mod']) new →
  cascade g [mod'] seen0 (mod' :: new).
Proof.
  intros Hm Ha (Hnd & Hnew & Hroots & Hcl & Hreach). split_and!.
  - apply NoDup_cons. split; [|done]. intros Hin.
    destruct (Hnew _ Hin) as [Hn _]. apply Hn, elem_of_app. right. by left.
  - intros x [->|Hx]%elem_of_cons; [done|].
    destruct (Hnew x Hx) as [Hn Hx']. split; [|done].
    intros Hin. apply Hn, elem_of_app. by left.
  - intros r ->%list_elem_of_singleton. apply elem_of_app. right. by left.
  - intros x y [->|Hx]%elem_of_cons Hy.
    + specialize (Hroots y Hy). by rewrite <- app_assoc in Hroots.
    + specialize (Hcl x y Hx Hy). by rewrite <- app_assoc in Hcl.
  - intros x [->|Hx]%elem_of_cons.
    + exists mod'. split; [by left|]. apply rtc_refl.
    + destruct (Hreach x Hx) as (r & Hr & Hrx). exists mod'.
      split; [by left|]. by eapply rtc_l.
Qed.

Lemma touch_app n1 n2 d1 d2 h n :
  touch n2 d2 h (touch n1 d1 h n) = touch (n1 ++ n2) (d1 ++ d2) h n.
Proof.
  unfold touch.
  rewrite (bool_decide_ext (h ∈ n1 ++ n2) (h ∈ n1 ∨ h ∈ n2))
    by apply elem_of_app.
  rewrite (bool_decide_ext (h ∈ d1 ++ d2) (h ∈ d1 ∨ h ∈ d2))
    by apply elem_of_app.
  rewrite !bool_decide_or.
  by destruct (bool_decide (h ∈ n1)), (bool_decide (h ∈ n2)),
    (bool_decide (h ∈ d1)), (bool_decide (h ∈ d2)).
Qed.

Lemma touch_importers new direct h n :
  importers (touch new direct h n) = importers n.
Proof.
  unfold touch. by destruct (bool_decide (h ∈ direct)), (bool_decide (h ∈ new)).
Qed.

Lemma touch_importedModules new direct h n :
  importedModules (touch new direct h n) = importedModules n.
Proof.
  unfold touch. by destruct (bool_decide (h ∈ direct)), (bool_decide (h ∈ new)).
Qed.

Lemma sweeps_to_refl s : sweeps_to s [] [] s.
Proof.
  split; rewrite ?app_nil_r; try done.
  intros h. by destruct (nodes (graph s) !! h).
Qed.

Lemma sweeps_to_trans s s1 s2 n1 n2 d1 d2 :
  sweeps_to s n1 d1 s1 → sweeps_to s1 n2 d2 s2 →
  sweeps_to s (n1 ++ n2) (d1 ++ d2) s2.
Proof.
  intros [] []. split.
  - rewrite app_assoc. congruence.
  - rewrite app_assoc. congruence.
  - intros h. rewrite sweeps_nodes1, sweeps_nodes0.
    destruct (nodes (graph s) !! h) as [n|]; simpl; [|done].
    by rewrite touch_app.
  - congruence.
  - congruence.
  - congruence.
Qed.

Lemma sweeps_to_importersOf s new direct s' x :
  sweeps_to s new direct s' → importersOf (graph s') x = importersOf (graph s) x.
Proof.
  intros []. unfold importersOf. rewrite sweeps_nodes0.
  destruct (nodes (graph s) !! x); simpl; [|done]. apply touch_importers.
Qed.

Lemma sweeps_to_importedModulesOf s new direct s' x :
  sweeps_to s new direct s' →
  importedModulesOf (graph s') x = importedModulesOf (graph s) x.
Proof.
  intros []. unfold importedModulesOf. rewrite sweeps_nodes0.
  destruct (nodes (graph s) !! x); simpl; [|done].
  apply touch_importedModules.
Qed.

Lemma sweeps_to_length s new direct s' :
  sweeps_to s new direct s' →
  length (nodes (graph s')) = length (nodes (graph s)).
Proof.
  intros []. apply Nat.le_antisymm.
  - apply Nat.nlt_ge. intros Hlt.
    apply lookup_lt_is_Some_2 in Hlt. rewrite sweeps_nodes0 in Hlt.
    rewrite lookup_ge_None_2 in Hlt by done. by destruct Hlt.
  - apply Nat.nlt_ge. intros Hlt.
    apply lookup_lt_is_Some_2 in Hlt.
    assert (Hn := sweeps_nodes0 (length (nodes (graph s')))).
    rewrite lookup_ge_None_2 in Hn by done.
    destruct Hlt as [n Hlt]. by rewrite Hlt in Hn.
Qed.

Lemma sweeps_to_allocated s new direct s' x :
  sweeps_to s new direct s' → allocated (graph s') x ↔ allocated (graph s) x.
Proof. intros Hs. unfold allocated. by rewrite (sweeps_to_length _ _ _ _ Hs). Qed.

Lemma sweeps_to_closed s new direct s' :
  sweeps_to s new direct s' →
  importers_closed (graph s) → importers_closed (graph s').
Proof.
  intros Hs. rewrite !importers_closed_spec. intros Hc x y.
  rewrite (sweeps_to_importersOf _ _ _ _ _ Hs),
    (sweeps_to_allocated _ _ _ _ _ Hs). apply Hc.
Qed.

Lemma sweeps_to_unseen s new direct s' :
  sweeps_to s new direct s' →
  unseen (graph s') (seen s') ≤ unseen (graph s) (seen s).
Proof.
  intros Hs. unfold unseen. rewrite (sweeps_to_length _ _ _ _ Hs).
  rewrite (sweeps_seen _ _ _ _ Hs). apply unseen_app_le.
Qed.

(** A loop of cascades or invalidations under one [seen] set. *)
Lemma forEachSweep_cascade (body : nat → Sweep → option Sweep)
    (Pre : Sweep → Prop) (direct : nat → list nat) l :
  (∀ s new d s', sweeps_to s new d s' → Pre s → Pre s') →
  (∀ r s, importers_closed (graph s) → allocated (graph s) r → Pre s →
     ∃ new s', body r s = Some s' ∧ sweeps_to s new (direct r) s' ∧
               cascade (graph s) [r] (seen s) new) →
  ∀ s, importers_closed (graph s) → Forall (allocated (graph s)) l → Pre s →
    ∃ new s', forEachSweep body l s = Some s' ∧
              sweeps_to s new (l ≫= direct) s' ∧
              cascade (graph s) l (seen s) new.
Proof.
  intros HPre Hbody. induction l as [|r l IH]; intros s Hc Hl Hs.
  - exists [], s. split_and!; [done|apply sweeps_to_refl|].
    apply cascade_seen. by intros r ?%elem_of_nil.
  - apply Forall_cons in Hl as [Hr Hl].
    destruct (Hbody r s Hc Hr Hs) as (n1 & s1 & E1 & S1 & C1).
    simpl. rewrite E1. simpl.
    destruct (IH s1) as (n2 & s2 & E2 & S2 & C2).
    { by eapply sweeps_to_closed. }
    { eapply Forall_impl; [exact Hl|]. intros y Hy.
      by apply (sweeps_to_allocated _ _ _ _ _ S1). }
    { by eapply HPre. }
    exists (n1 ++ n2), s2. split_and!; [done|by eapply sweeps_to_trans|].
    apply (cascade_app _ [r] l); [done|].
    rewrite <- (sweeps_seen _ _ _ _ S1).
    eapply (cascade_ext (graph s1)); [..|exact C2].
    + intros y. symmetry. by eapply sweeps_to_importersOf.
    + symmetry. by eapply sweeps_to_length.
Qed.


Lemma unseen_le g seen0 : unseen g seen0 ≤ length (nodes g).
Proof.
  unfold unseen. etrans; [apply length_filter|]. by rewrite length_seq.
Qed.

Lemma bind_const_nil (l : list nat) : l ≫= (λ _, @nil nat) = [].
Proof. induction l as [|a l IH]; [done|]. exact IH. Qed.

Lemma bind_singleton (l : list nat) : l ≫= (λ r, [r]) = l.
Proof.
  induction l as [|a l IH]; [done|].
  change (a :: (l ≫= (λ r, [r])) = a :: l). by rewrite IH.
Qed.

Lemma invalidateSSRModule_cascade fuel :
  ∀ mod' s,
    importers_closed (graph s) → allocated (graph s) mod' →
    unseen (graph s) (seen s) < fuel →
    ∃ new s', invalidateSSRModule fuel mod' s = Some s' ∧
              sweeps_to s new [] s' ∧
              cascade (graph s) [mod'] (seen s) new.
Proof.
  induction fuel as [|fuel IH]; intros mod' s Hc Hm Hf; [lia|].
  simpl. destruct (JsSet.has (seen s) mod') eqn:Hseen.
  - apply JsSet_has_true in Hseen. exists [], s.
    split_and!; [done|apply sweeps_to_refl|].
    apply cascade_seen. by intros r ->%list_elem_of_singleton.
  - apply JsSet_has_false in Hseen.
    set (s1 := {| graph := update mod' (set_ssrModule None) (graph s);
                  seen := JsSet.add (seen s) mod';
                  visits := visits s ++ [mod'] |}).
    assert (S1 : sweeps_to s [mod'] [] s1).
    { split; try done.
      - by apply JsSet_add_fresh.
      - intros h.
        change (graph s1) with (update mod' (set_ssrModule None) (graph s)).
        rewrite lookup_update. unfold touch. simpl.
        destruct (decide (mod' = h)) as [->|Hne].
        + rewrite bool_decide_eq_true_2 by by left.
          by destruct (nodes (graph s) !! h).
        + rewrite bool_decide_eq_false_2.
          * by destruct (nodes (graph s) !! h).
          * by intros ->%list_elem_of_singleton. }
    assert (Hc1 : importers_closed (graph s1)) by by eapply sweeps_to_closed.
    destruct (forEachSweep_cascade (invalidateSSRModule fuel)
                (λ s, unseen (graph s) (seen s) < fuel) (λ _, [])
                (importersOf (graph s1) mod')) with (s := s1)
      as (n2 & s2 & E2 & S2 & C2).
    + intros s0 new d s' Hs0 Hlt.
      pose proof (sweeps_to_unseen _ _ _ _ Hs0). lia.
    + intros r s0 Hc0 Hr Hlt. by apply IH.
    + done.
    + apply Forall_forall. intros y Hy.
      by apply (proj1 (importers_closed_spec _) Hc1 mod').
    + rewrite (sweeps_seen _ _ _ _ S1). unfold unseen.
      rewrite (sweeps_to_length _ _ _ _ S1).
      pose proof (unseen_snoc_lt (graph s) (seen s) mod' Hm Hseen).
      unfold unseen in *. lia.
    + rewrite bind_const_nil in S2.
      exists ([mod'] ++ n2), s2. split_and!; [done| |].
      * by apply (sweeps_to_trans _ _ _ _ _ [] [] S1 S2).
      * apply cascade_visit; [done..|].
        rewrite <- (sweeps_seen _ _ _ _ S1).
        rewrite <- (sweeps_to_importersOf _ _ _ _ mod' S1).
        eapply (cascade_ext (graph s1)); [..|exact C2].
        -- intros y. symmetry. by eapply sweeps_to_importersOf.
        -- symmetry. by eapply sweeps_to_length.
Qed.

Lemma invalidateModule_cascade mod' s :
  importers_closed (graph s) → allocated (graph s) mod' →
  ∃ new s', invalidateModule mod' s = Some s' ∧
            sweeps_to s new [mod'] s' ∧
            cascade (graph s) [mod'] (seen s) new.
Proof.
  intros Hc Hm. unfold invalidateModule.
  set (g3 := update mod' (set_ssrTransformResult None) _).
  set (s0 := {| graph := g3; seen := seen s; visits := visits s |}).
  assert (S0 : sweeps_to s [] [mod'] s0).
  { split; simpl; rewrite ?app_nil_r; try done.
    intros h. rewrite !list_lookup_alter. unfold touch. simpl.
    destruct (decide (mod' = h)) as [->|Hne].
    - rewrite bool_decide_eq_true_2 by by left.
      rewrite !decide_True by done.
      by destruct (nodes (graph s) !! h).
    - rewrite bool_decide_eq_false_2.
      + by destruct (nodes (graph s) !! h).
      + by intros ->%list_elem_of_singleton. }
  destruct (invalidateSSRModule_cascade (S (length (nodes g3))) mod' s0)
    as (new & s' & E & S1 & C).
  - by eapply sweeps_to_closed.
  - by apply (sweeps_to_allocated _ _ _ _ _ S0).
  - pose proof (unseen_le (graph s0) (seen s0)). simpl in *. lia.
  - exists new, s'. split_and!; [done| |].
    + apply (sweeps_to_trans _ _ _ [] new [mod'] [] S0 S1).
    + eapply (cascade_ext (graph s0)); [..|exact C].
      * intros y. symmetry. by eapply sweeps_to_importersOf.
      * symmetry. by eapply sweeps_to_length.
Qed.

Lemma invalidateEach_cascade mods g :
  importers_closed g → Forall (allocated g) mods →
  ∃ new s', invalidateEach mods g = Some s' ∧
            sweeps_to (fresh_sweep g) new mods s' ∧
            cascade g mods [] new.
Proof.
  intros Hc Hm. unfold invalidateEach.
  destruct (forEachSweep_cascade invalidateModule (λ _, True) (λ r, [r]) mods)
    with (s := fresh_sweep g) as (new & s' & E & S1 & C); try done.
  - intros r s Hcs Hr _. by apply invalidateModule_cascade.
  - rewrite bind_singleton in S1. by exists new, s'.
Qed.

(** From a fresh [seen] set the cascade visits exactly what is reached
    from the roots. *)
Lemma cascade_reaches g roots new x :
  cascade g roots [] new →
  x ∈ new ↔ ∃ r, r ∈ roots ∧ imported_by g r x.
Proof.
  intros (Hnd & Hnew & Hroots & Hcl & Hreach). split; [apply Hreach|].
  intros (r & Hr & Hrx). apply Hroots in Hr. simpl in Hr.
  induction Hrx as [|a b c Hab Hbc IH]; [done|].
  apply IH. by apply (Hcl a b).
Qed.


(** ** The indices *)

Lemma index_consistent_update h f g :
  (∀ n, url (f n) = url n ∧ id (f n) = id n ∧ file (f n) = file n) →
  index_consistent g → index_consistent (update h f g).
Proof.
  intros Hf [U1 U2 I1 I2 IK F1 F2].
  assert (Hfwd : ∀ x n, nodes g !! x = Some n →
            ∃ n', nodes (update h f g) !! x = Some n' ∧
                  url n' = url n ∧ id n' = id n ∧ file n' = file n).
  { intros x n Hx. rewrite lookup_update, Hx. case_decide; simpl.
    - eexists. split; [done|]. apply Hf.
    - by exists n. }
  assert (Hbwd : ∀ x n', nodes (update h f g) !! x = Some n' →
            ∃ n, nodes g !! x = Some n ∧
                 url n' = url n ∧ id n' = id n ∧ file n' = file n).
  { intros x n'. rewrite lookup_update. case_decide.
    - destruct (nodes g !! x) as [n|]; simpl; [|done].
      intros [= <-]. exists n. split; [done|]. apply Hf.
    - intros Hx. by exists n'. }
  split; simpl.
  - intros u x Hu. destruct (U1 u x Hu) as (n & Hn & Hun & Hid).
    destruct (Hfwd x n Hn) as (n' & Hn' & E1 & E2 & E3).
    exists n'. rewrite E1, E2. done.
  - intros x n' Hn' Hid. destruct (Hbwd x n' Hn') as (n & Hn & E1 & E2 & E3).
    rewrite E1. apply U2; [done|]. by rewrite <- E2.
  - intros i x Hi. destruct (I1 i x Hi) as (n & Hn & Hid).
    destruct (Hfwd x n Hn) as (n' & Hn' & E1 & E2 & E3).
    exists n'. by rewrite E2.
  - intros x n' i Hn' Hid. destruct (Hbwd x n' Hn') as (n & Hn & E1 & E2 & E3).
    apply (I2 x n); [done|]. by rewrite <- E2.
  - done.
  - intros f0 s x Hf0 Hx. destruct (F1 f0 s x Hf0 Hx) as (n & Hn & Hfile).
    destruct (Hfwd x n Hn) as (n' & Hn' & E1 & E2 & E3).
    exists n'. by rewrite E3.
  - intros x n' Hn'. destruct (Hbwd x n' Hn') as (n & Hn & E1 & E2 & E3).
    rewrite E3. by apply F2.
Qed.

(** Registering a new node [n]: under its url and id if it has an id, and
    under its file. *)
Lemma index_consistent_alloc g n f :
  index_consistent g → file n = Some f →
  (is_Some (id n) → urlToModuleMap g !! url n = None) →
  index_consistent
    {| nodes := nodes g ++ [n];
       urlToModuleMap :=
         match id n with
         | Some _ => <[url n := length (nodes g)]> (urlToModuleMap g)
         | None => urlToModuleMap g
         end;
       idToModuleMap :=
         match id n with
         | Some rid => JsMap.set (idToModuleMap g) rid (length (nodes g))
         | None => idToModuleMap g
         end;
       fileToModulesMap :=
         <[f := JsSet.add (default [] (fileToModulesMap g !! f))
                  (length (nodes g))]> (fileToModulesMap g);
       safeModulesPath := safeModulesPath g |}.
Proof.
  intros [U1 U2 I1 I2 IK F1 F2] Hfile Hfresh.
  assert (Hold : ∀ x m, nodes g !! x = Some m →
            (nodes g ++ [n]) !! x = Some m).
  { intros x m Hx. rewrite lookup_app_l; [done|]. by eapply lookup_lt_Some. }
  assert (Hnew : (nodes g ++ [n]) !! length (nodes g) = Some n).
  { by rewrite list_lookup_middle. }
  split; simpl.
  - intros u x. destruct (id n) as [rid|] eqn:Hid.
    + rewrite lookup_insert. case_decide as E.
      * intros [= <-]. exists n. by rewrite Hid.
      * intros Hu. destruct (U1 u x Hu) as (m & Hm & ?). exists m.
        split; [by apply Hold|done].
    + intros Hu. destruct (U1 u x Hu) as (m & Hm & ?). exists m.
      split; [by apply Hold|done].
  - intros x m [[Hlt Hx]|[-> <-]]%lookup_snoc_Some Hm.
    + specialize (U2 x m Hx Hm). destruct (id n) as [rid|] eqn:Hid; [|done].
      rewrite lookup_insert_ne; [done|]. intros E.
      rewrite <- E, Hfresh in U2; [done|by eexists].
    + destruct Hm as [rid Hid]. rewrite Hid. apply lookup_insert_eq.
  - intros i x. destruct (id n) as [rid|] eqn:Hid.
    + destruct (decide (rid = i)) as [->|Hne].
      * rewrite JsMap_get_set_eq. intros [= <-]. by exists n.
      * rewrite JsMap_get_set_ne by done. intros Hi.
        destruct (I1 i x Hi) as (m & Hm & ?). exists m.
        split; [by apply Hold|done].
    + intros Hi. destruct (I1 i x Hi) as (m & Hm & ?). exists m.
      split; [by apply Hold|done].
  - intros x m i [[Hlt Hx]|[-> <-]]%lookup_snoc_Some Hm.
    + specialize (I2 x m i Hx Hm). destruct (id n) as [rid|] eqn:Hid; [|done].
      destruct (decide (rid = i)) as [->|Hne].
      * rewrite JsMap_get_set_eq. by eexists.
      * by rewrite JsMap_get_set_ne.
    + rewrite Hm. rewrite JsMap_get_set_eq. by eexists.
  - destruct (id n); [by apply JsMap_NoDup_set|done].
  - intros f0 s x. rewrite lookup_insert. case_decide as E.
    + subst f0. intros [= <-]. rewrite JsSet_elem_of_add. intros [->|Hx].
      * by exists n.
      * destruct (fileToModulesMap g !! f) as [s|] eqn:Hs; simpl in Hx.
        -- destruct (F1 f s x Hs Hx) as (m & Hm & ?). exists m.
           split; [by apply Hold|done].
        -- by apply elem_of_nil in Hx.
    + intros Hs Hx. destruct (F1 f0 s x Hs Hx) as (m & Hm & ?). exists m.
      split; [by apply Hold|done].
  - intros x m [[Hlt Hx]|[-> <-]]%lookup_snoc_Some.
    + destruct (F2 x m Hx) as (f0 & s & Hf0 & Hs & Hin).
      destruct (decide (f = f0)) as [->|Hne].
      * exists f0, (JsSet.add s (length (nodes g))). rewrite Hs. simpl.
        split_and!; [done|apply lookup_insert_eq|].
        apply JsSet_elem_of_add. by right.
      * exists f0, s. by rewrite lookup_insert_ne.
    + exists f, (JsSet.add (default [] (fileToModulesMap g !! f))
                   (length (nodes g))).
      split_and!; [done|apply lookup_insert_eq|].
      apply JsSet_elem_of_add. by left.
Qed.

Lemma ensureEntryFromUrl_index rawUrl ssr g :
  index_consistent g →
  index_consistent (ensureEntryFromUrl resolveId rawUrl ssr g).2.
Proof.
  intros Hg. ensure_cases rawUrl ssr g; simpl; [done| |done].
  assert (Hn : url (entry_node u rid m) = u ∧
               id (entry_node u rid m) = Some rid ∧
               file (entry_node u rid m) = Some (cleanUrl rid))
    by by destruct m.
  destruct Hn as (E1 & E2 & E3).
  pose proof (index_consistent_alloc g (entry_node u rid m) (cleanUrl rid)
                Hg E3) as Ha.
  rewrite E1, E2 in Ha. by apply Ha.
Qed.

Lemma index_consistent_bucket g f :
  index_consistent g → fileToModulesMap g !! f = None →
  index_consistent (set_fileToModulesMap (<[f := []]> (fileToModulesMap g)) g).
Proof.
  intros [U1 U2 I1 I2 IK F1 F2] Hf. split; simpl; try done.
  - intros f0 s x. rewrite lookup_insert. case_decide.
    + intros [= <-]. by intros ?%elem_of_nil.
    + apply F1.
  - intros x n Hx. destruct (F2 x n Hx) as (f0 & s & Hf0 & Hs & Hin).
    exists f0, s. split_and!; [done| |done].
    rewrite lookup_insert_ne; [done|]. intros ->. by rewrite Hf in Hs.
Qed.

Lemma createFileOnlyEntry_index file0 g :
  index_consistent g → index_consistent (createFileOnlyEntry file0 g).2.
Proof.
  intros Hg. rewrite createFileOnlyEntry_unfold. simpl.
  destruct (List.find _ _) as [m|]; simpl.
  - destruct (fileToModulesMap g !! normalizePath file0) eqn:Hf; [done|].
    by apply index_consistent_bucket.
  - apply (index_consistent_alloc g (file_only_node (normalizePath file0))
             (normalizePath file0) Hg); [done|].
    by intros [? [=]].
Qed.


Lemma index_consistent_url_allocated g :
  index_consistent g → url_index_allocated g.
Proof.
  intros Hg u h Hu. destruct (url_index_sound g Hg u h Hu) as (n & Hn & _).
  apply allocated_lookup. by eexists.
Qed.

Lemma resolveDep_index ssr x g :
  index_consistent g → index_consistent (resolveDep resolveId ssr x g).2.
Proof. destruct x; simpl; [apply ensureEntryFromUrl_index|done]. Qed.

(** [updateModuleInfo] keeps the indices consistent, whether it returns
    or throws. *)
Lemma updateModuleInfo_index mod' imported accepted isSelfAccepting' ssr :
  triple index_consistent
    (updateModuleInfo resolveId mod' imported accepted isSelfAccepting' ssr)
    (λ _, index_consistent) index_consistent.
Proof.
  eapply triple_updateModuleInfo with
    (I1 := λ _ _, index_consistent)
    (I2 := λ _ _ _ _, index_consistent)
    (I3 := λ _, index_consistent).
  - intros g Hg. simpl. by do 2 (apply index_consistent_update; [done|]).
  - intros prev done x rest _ g Hg. rewrite addImport_unfold.
    pose proof (resolveDep_index ssr x g Hg) as Hi.
    destruct (resolveDep resolveId ssr x g) as [[d|e] g1]; [|done].
    by do 2 (apply index_consistent_update; [done|]).
  - done.
  - intros prev done x rest acc _ g Hg. rewrite dropImporter_unfold.
    destruct (JsSet.has _ x); simpl; [done|].
    by apply index_consistent_update.
  - intros prev acc g Hg. by apply index_consistent_update.
  - intros acc x _ g Hg. rewrite acceptDep_unfold.
    pose proof (resolveDep_index ssr x g Hg) as Hi.
    destruct (resolveDep resolveId ssr x g) as [[d|e] g1]; [|done].
    by apply index_consistent_update.
  - done.
  - done.
  - done.
Qed.

Lemma sweeps_to_index s new direct s' :
  sweeps_to s new direct s' →
  index_consistent (graph s) → index_consistent (graph s').
Proof.
  intros [Hseen Hvis Hn Hu Hi Hf] [U1 U2 I1 I2 IK F1 F2].
  assert (Ht : ∀ h n, url (touch new direct h n) = url n ∧
                      id (touch new direct h n) = id n ∧
                      file (touch new direct h n) = file n).
  { intros h n. unfold touch.
    by destruct (bool_decide (h ∈ direct)), (bool_decide (h ∈ new)). }
  assert (Hfwd : ∀ x n, nodes (graph s) !! x = Some n →
            ∃ n', nodes (graph s') !! x = Some n' ∧
                  url n' = url n ∧ id n' = id n ∧ file n' = file n).
  { intros x n Hx. rewrite Hn, Hx. simpl. eexists. split; [done|]. apply Ht. }
  assert (Hbwd : ∀ x n', nodes (graph s') !! x = Some n' →
            ∃ n, nodes (graph s) !! x = Some n ∧
                 url n' = url n ∧ id n' = id n ∧ file n' = file n).
  { intros x n'. rewrite Hn.
    destruct (nodes (graph s) !! x) as [n|]; simpl; [|done].
    intros [= <-]. exists n. split; [done|]. apply Ht. }
  split; rewrite ?Hu, ?Hi, ?Hf.
  - intros u x Hx. destruct (U1 u x Hx) as (n & Hnx & E & Hid).
    destruct (Hfwd x n Hnx) as (n' & Hn' & E1 & E2 & E3).
    exists n'. by rewrite E1, E2.
  - intros x n' Hn' Hid. destruct (Hbwd x n' Hn') as (n & Hnx & E1 & E2 & E3).
    rewrite E1. apply U2; [done|]. by rewrite <- E2.
  - intros i x Hx. destruct (I1 i x Hx) as (n & Hnx & Hid).
    destruct (Hfwd x n Hnx) as (n' & Hn' & E1 & E2 & E3).
    exists n'. by rewrite E2.
  - intros x n' i Hn' Hid. destruct (Hbwd x n' Hn') as (n & Hnx & E1 & E2 & E3).
    apply (I2 x n); [done|]. by rewrite <- E2.
  - done.
  - intros f0 b x Hb Hx. destruct (F1 f0 b x Hb Hx) as (n & Hnx & Hfile).
    destruct (Hfwd x n Hnx) as (n' & Hn' & E1 & E2 & E3).
    exists n'. by rewrite E3.
  - intros x n' Hn'. destruct (Hbwd x n' Hn') as (n & Hnx & E1 & E2 & E3).
    rewrite E3. by apply F2.
Qed.

Lemma sweeps_to_symmetric s new direct s' :
  sweeps_to s new direct s' →
  edge_symmetric (graph s) → edge_symmetric (graph s').
Proof.
  intros Hs. apply edge_symmetric_ext; intros x.
  - by eapply sweeps_to_importersOf.
  - by eapply sweeps_to_importedModulesOf.
Qed.

Lemma edge_symmetric_closed g : edge_symmetric g → importers_closed g.
Proof.
  intros Hs. apply importers_closed_spec. intros x y Hy.
  apply Hs in Hy.
  destruct (decide (y < length (nodes g))) as [|Hn]; [done|].
  rewrite importedModulesOf_unallocated in Hy by done.
  by apply elem_of_nil in Hy.
Qed.

Lemma createFileOnlyEntry_extends file0 g :
  extends g (createFileOnlyEntry file0 g).2.
Proof.
  rewrite createFileOnlyEntry_unfold. simpl.
  destruct (List.find _ _) as [m|]; simpl.
  - destruct (fileToModulesMap g !! normalizePath file0); [apply extends_refl|].
    exists []. by rewrite app_nil_r.
  - exists [file_only_node (normalizePath file0)].
    split_and!; [done| |done]. by apply Forall_singleton.
Qed.

Lemma extends_symmetric g g' :
  extends g g' → edge_symmetric g → edge_symmetric g'.
Proof.
  intros He. apply edge_symmetric_ext; intros x.
  - by apply extends_importersOf.
  - by apply extends_importedModulesOf.
Qed.

Lemma extends_mirrored g g' :
  extends g g' → imports_mirrored g → imports_mirrored g'.
Proof.
  intros He. apply imports_mirrored_ext; intros x.
  - by apply extends_importersOf.
  - by apply extends_importedModulesOf.
Qed.

Lemma extends_closed g g' :
  extends g g' → importers_closed g → importers_closed g'.
Proof.
  intros He. rewrite !importers_closed_spec. intros Hc x y.
  rewrite (extends_importersOf g g') by done. intros Hy.
  eapply extends_allocated; [done|]. by eapply Hc.
Qed.

Lemma importers_closed_ext g g' :
  (∀ x, importersOf g' x = importersOf g x) →
  (∀ x, allocated g' x ↔ allocated g x) →
  importers_closed g → importers_closed g'.
Proof.
  intros Hi Ha. rewrite !importers_closed_spec. intros Hc x y.
  rewrite Hi, Ha. apply Hc.
Qed.

(** An update of a node that leaves its two edge sets alone. *)
Lemma update_edges_frame h f g :
  (∀ n, importers (f n) = importers n) →
  (∀ n, importedModules (f n) = importedModules n) →
  (imports_mirrored g → imports_mirrored (update h f g)) ∧
  (importers_closed g → importers_closed (update h f g)).
Proof.
  intros Hi Hm. split.
  - apply imports_mirrored_ext; intros x;
      [by apply importersOf_update_frame
      |by apply importedModulesOf_update_frame].
  - apply importers_closed_ext; intros x;
      [by apply importersOf_update_frame|apply allocated_update].
Qed.

(** The back-edges and the handles through the loops of
    [updateModuleInfo]. *)
Lemma addImport_mirrored mod' ssr x (imported : list (string + nat)) :
  x ∈ imported →
  let I g :=
    imports_mirrored g ∧ importers_closed g ∧ allocated g mod' ∧
    url_index_allocated g ∧ (∀ d, inr d ∈ imported → allocated g d) in
  hoare I (addImport resolveId mod' ssr x) (λ _, I).
Proof.
  intros Hx I g (Hs & Hc & Hmod & Hurl & Himp). rewrite addImport_unfold.
  assert (Hext := resolveDep_extends ssr x g).
  destruct (resolveDep_allocated ssr x g Hurl) as [Hurl1 Hd].
  { intros d ->. by apply Himp. }
  destruct (resolveDep resolveId ssr x g) as [[d|e] g1]; [|done].
  simpl in *. specialize (Hd d eq_refl).
  assert (Hmod1 : allocated g1 mod') by by eapply extends_allocated.
  assert (Hs1 : imports_mirrored g1) by by eapply extends_mirrored.
  assert (Hc1 : importers_closed g1) by by eapply extends_closed.
  set (g2 := update d _ g1).
  assert (Hmod2 : allocated g2 mod') by by apply allocated_update.
  assert (Hi : ∀ y, importersOf (update mod' (λ n, set_importedModules
             (JsSet.add (importedModules n) d) n) g2) y
           = if decide (d = y) then JsSet.add (importersOf g1 y) mod'
             else importersOf g1 y).
  { intros y. rewrite importersOf_update_frame by done.
    apply (importersOf_update_importers d (λ s, JsSet.add s mod')). by left. }
  assert (Hm : ∀ y, importedModulesOf (update mod' (λ n, set_importedModules
             (JsSet.add (importedModules n) d) n) g2) y
           = if decide (mod' = y) then JsSet.add (importedModulesOf g1 y) d
             else importedModulesOf g1 y).
  { intros y.
    rewrite (importedModulesOf_update_importedModules mod'
               (λ s, JsSet.add s d)) by by left.
    case_decide; [f_equal|]; by apply importedModulesOf_update_frame. }
  split_and!.
  - intros a b. rewrite Hi, Hm. intros Ha.
    assert (Hold : a ∈ importedModulesOf g1 b → b ∈
              (if decide (d = a) then JsSet.add (importersOf g1 a) mod'
               else importersOf g1 a)).
    { intros Hin. apply Hs1 in Hin. destruct (decide (d = a)); [|done].
      apply JsSet_elem_of_add. by right. }
    destruct (decide (mod' = b)) as [Eb|Eb]; [|by apply Hold]. subst b.
    apply JsSet_elem_of_add in Ha as [->|Ha]; [|by apply Hold].
    rewrite decide_True by done. apply JsSet_elem_of_add. by left.
  - apply importers_closed_spec. intros y z. rewrite Hi. intros Hz.
    do 2 apply allocated_update. rewrite importers_closed_spec in Hc1.
    destruct (decide (d = y)); [|by eapply Hc1].
    apply JsSet_elem_of_add in Hz as [->|Hz]; [done|by eapply Hc1].
  - by apply allocated_update.
  - by do 2 apply url_index_allocated_update.
  - intros d' Hd'. do 2 apply allocated_update.
    eapply extends_allocated; [done|]. by apply Himp.
Qed.

Lemma dropImporter_mirrored mod' acc x :
  let I g := imports_mirrored g ∧ importers_closed g ∧
             url_index_allocated g in
  hoare I (dropImporter mod' acc x) (λ _, I).
Proof.
  intros I g (Hs & Hc & Hu). rewrite dropImporter_unfold.
  destruct (JsSet.has _ x) eqn:Hx; simpl; [done|].
  apply JsSet_has_false in Hx. split_and!.
  - intros a b. rewrite importersOf_drop.
    rewrite importedModulesOf_update_frame by done. intros Ha.
    destruct (decide (x = a)) as [E|E]; [|by apply Hs]. subst a.
    apply JsSet_elem_of_delete. split; [by intros ->|by apply Hs].
  - apply importers_closed_spec. intros y z. rewrite importersOf_drop.
    intros Hz. apply allocated_update. rewrite importers_closed_spec in Hc.
    destruct (decide (x = y)); [|by eapply Hc].
    apply JsSet_elem_of_delete in Hz as [_ Hz]. by eapply Hc.
  - by apply url_index_allocated_update.
Qed.

Lemma updateModuleInfo_mirrored mod' imported accepted isSelfAccepting' ssr :
  let I g := imports_mirrored g ∧ importers_closed g ∧
             url_index_allocated g in
  triple
    (λ g, I g ∧ call_ok g (UpdateModuleInfo mod' imported accepted
                             isSelfAccepting' ssr))
    (updateModuleInfo resolveId mod' imported accepted isSelfAccepting' ssr)
    (λ _, I) I.
Proof.
  intros I.
  eapply triple_updateModuleInfo with
    (I1 := λ _ _ g, imports_mirrored g ∧ importers_closed g ∧
             allocated g mod' ∧ url_index_allocated g ∧
             (∀ d, inr d ∈ imported → allocated g d))
    (I2 := λ _ _ _ _, I)
    (I3 := λ _, I).
  - intros g ((Hs & Hc & Hu) & Hm & Hi & Ha). simpl.
    set (g1 := update mod' (set_isSelfAccepting isSelfAccepting') g).
    assert (Hs1 : imports_mirrored g1) by by apply update_edges_frame.
    assert (Hc1 : importers_closed g1) by by apply update_edges_frame.
    split_and!.
    + intros a b.
      rewrite (importedModulesOf_update_importedModules mod' (λ _, []))
        by by right.
      rewrite importersOf_update_frame by done.
      case_decide; [by intros ?%elem_of_nil|apply Hs1].
    + revert Hc1. apply importers_closed_ext; intros x;
        [by apply importersOf_update_frame|apply allocated_update].
    + by do 2 apply allocated_update.
    + by do 2 apply url_index_allocated_update.
    + intros d Hd. do 2 apply allocated_update. by apply Hi.
  - intros prev done x rest Hl.
    apply (addImport_mirrored mod' ssr x imported).
    rewrite Hl. apply elem_of_app. right. left.
  - intros prev g (Hs & Hc & _ & Hu & _). done.
  - intros prev done x rest acc _. apply dropImporter_mirrored.
  - intros prev acc g (Hs & Hc & Hu). split_and!.
    + by apply update_edges_frame.
    + by apply update_edges_frame.
    + by apply url_index_allocated_update.
  - intros acc x _ g (Hs & Hc & Hu). rewrite acceptDep_unfold.
    assert (Hext := resolveDep_extends ssr x g).
    assert (Hall : url_index_allocated (resolveDep resolveId ssr x g).2).
    { destruct x as [u|d]; simpl; [|done].
      by apply ensureEntryFromUrl_allocated. }
    destruct (resolveDep resolveId ssr x g) as [[d|e] g1]; [|done].
    simpl in *. split_and!.
    + apply update_edges_frame; [done..|]. by eapply extends_mirrored.
    + apply update_edges_frame; [done..|]. by eapply extends_closed.
    + by apply url_index_allocated_update.
  - done.
  - intros prev done g (Hs & Hc & _ & Hu & _). done.
  - done.
Qed.

Lemma sweeps_to_mirrored s new direct s' :
  sweeps_to s new direct s' →
  imports_mirrored (graph s) → imports_mirrored (graph s').
Proof.
  intros Hs. apply imports_mirrored_ext; intros x.
  - by eapply sweeps_to_importersOf.
  - by eapply sweeps_to_importedModulesOf.
Qed.

Lemma graph_inv_new : graph_inv new_ModuleGraph.
Proof.
  split_and!.
  - intros a b. unfold importedModulesOf, importersOf. simpl.
    by rewrite !elem_of_nil.
  - by apply Forall_nil.
  - split; simpl; try done. apply NoDup_nil_2.
Qed.

(** The handles of the id index and of the file index are nodes of the
    store. *)
Lemma index_consistent_ids_allocated g :
  index_consistent g → Forall (allocated g) (JsMap.values (idToModuleMap g)).
Proof.
  intros Hi. apply Forall_forall. intros x Hx. unfold JsMap.values in Hx.
  apply list_elem_of_fmap in Hx as ([i x'] & -> & Hin). simpl.
  apply JsMap_get_of_elem in Hin; [|by apply id_index_keys].
  destruct (id_index_sound g Hi i x' Hin) as (n & Hn & _).
  apply allocated_lookup. by eexists.
Qed.

Lemma index_consistent_files_allocated g f mods :
  index_consistent g → fileToModulesMap g !! f = Some mods →
  Forall (allocated g) mods.
Proof.
  intros Hi Hf. apply Forall_forall. intros x Hx.
  destruct (file_index_sound g Hi f mods x Hf Hx) as (n & Hn & _).
  apply allocated_lookup. by eexists.
Qed.

(** What a sweep is to the graph: every well-formed invalidation returns
    (the fuel is enough). *)
Lemma step_sweeps g c :
  importers_closed g → index_consistent g → call_ok g c →
  match c with
  | InvalidateModule _ | OnFileChange _ | InvalidateAll =>
      ∃ g' s new direct,
        step resolveId c g = Some g' ∧ g' = graph s ∧
        sweeps_to (fresh_sweep g) new direct s
  | _ => True
  end.
Proof.
  intros Hc Hi Hok. destruct c as [u ssr|f|m imp acc b ssr|m|f|]; simpl;
    try done.
  - destruct (invalidateModule_cascade m (fresh_sweep g))
      as (new & s' & E & S1 & C); [done..|].
    rewrite E. simpl. by exists (graph s'), s', new, [m].
  - unfold onFileChange. destruct (fileToModulesMap g !! f) as [mods|] eqn:Hf.
    + destruct (invalidateEach_cascade mods g)
        as (new & s' & E & S1 & C); [done| |].
      { by eapply index_consistent_files_allocated. }
      rewrite E. simpl. by exists (graph s'), s', new, mods.
    + simpl. exists g, (fresh_sweep g), [], []. split_and!; [done..|].
      apply sweeps_to_refl.
  - unfold invalidateAll.
    destruct (invalidateEach_cascade (JsMap.values (idToModuleMap g)) g)
      as (new & s' & E & S1 & C); [done| |].
    { by apply index_consistent_ids_allocated. }
    rewrite E. simpl. by eexists (graph s'), s', new, _.
Qed.

(** Every well-formed call leaves a graph, whether it returns or throws,
    and keeps the invariant. *)
Lemma step_graph_inv g c :
  graph_inv g → call_ok g c →
  ∃ g', step resolveId c g = Some g' ∧ graph_inv g'.
Proof.
  intros (Hs & Hc & Hi) Hok.
  pose proof (step_sweeps g c Hc Hi Hok) as Hsw.
  destruct c as [u ssr|f|m imp acc b ssr|m|f|]; simpl in *.
  - eexists. split; [done|]. split_and!.
    + eapply extends_mirrored; [apply ensureEntryFromUrl_extends|done].
    + eapply extends_closed; [apply ensureEntryFromUrl_extends|done].
    + by apply ensureEntryFromUrl_index.
  - eexists. split; [done|]. split_and!.
    + eapply extends_mirrored; [apply createFileOnlyEntry_extends|done].
    + eapply extends_closed; [apply createFileOnlyEntry_extends|done].
    + by apply createFileOnlyEntry_index.
  - eexists. split; [done|].
    pose proof (triple_left _ _ _ g
                  (updateModuleInfo_mirrored m imp acc b ssr)) as (K1&K2&_).
    { split; [|done]. split_and!; [done..|].
      by apply index_consistent_url_allocated. }
    split_and!; [done..|].
    by apply (triple_left _ _ _ g (updateModuleInfo_index m imp acc b ssr)).
  - destruct Hsw as (g' & s & new & direct & E & -> & S1).
    exists (graph s). split; [done|]. split_and!.
    + by apply (sweeps_to_mirrored _ _ _ _ S1).
    + by apply (sweeps_to_closed _ _ _ _ S1).
    + by apply (sweeps_to_index _ _ _ _ S1).
  - destruct Hsw as (g' & s & new & direct & E & -> & S1).
    exists (graph s). split; [done|]. split_and!.
    + by apply (sweeps_to_mirrored _ _ _ _ S1).
    + by apply (sweeps_to_closed _ _ _ _ S1).
    + by apply (sweeps_to_index _ _ _ _ S1).
  - destruct Hsw as (g' & s & new & direct & E & -> & S1).
    exists (graph s). split; [done|]. split_and!.
    + by apply (sweeps_to_mirrored _ _ _ _ S1).
    + by apply (sweeps_to_closed _ _ _ _ S1).
    + by apply (sweeps_to_index _ _ _ _ S1).
Qed.

Lemma reachable_graph_inv g : reachable resolveId g → graph_inv g.
Proof.
  induction 1 as [|g c g' Hr IH Hok Hstep]; [apply graph_inv_new|].
  destruct (step_graph_inv g c IH Hok) as (g'' & E & Hg'').
  rewrite Hstep in E. by injection E as ->.
Qed.

(** Every well-formed call that returns keeps the edges symmetric. *)
Lemma step_symmetric g c g' :
  edge_symmetric g → index_consistent g → call_ok g c →
  step resolveId c g = Some g' → completes resolveId c g →
  edge_symmetric g'.
Proof.
  intros Hs Hi Hok Hstep Hret.
  pose proof (step_sweeps g c (edge_symmetric_closed g Hs) Hi Hok) as Hsw.
  destruct c as [u ssr|f|m imp acc b ssr|m|f|]; simpl in *.
  - injection Hstep as <-.
    eapply extends_symmetric; [apply ensureEntryFromUrl_extends|done].
  - injection Hstep as <-.
    eapply extends_symmetric; [apply createFileOnlyEntry_extends|done].
  - injection Hstep as <-.
    pose proof (updateModuleInfo_sym m imp acc b ssr g) as Hu.
    destruct (updateModuleInfo resolveId m imp acc b ssr g) as [[o|e] g1];
      [|done].
    simpl. apply Hu. split_and!; [done| |done].
    by apply index_consistent_url_allocated.
  - destruct Hsw as (g1 & s & new & direct & E & -> & S1).
    rewrite Hstep in E. injection E as ->.
    by apply (sweeps_to_symmetric _ _ _ _ S1).
  - destruct Hsw as (g1 & s & new & direct & E & -> & S1).
    rewrite Hstep in E. injection E as ->.
    by apply (sweeps_to_symmetric _ _ _ _ S1).
  - destruct Hsw as (g1 & s & new & direct & E & -> & S1).
    rewrite Hstep in E. injection E as ->.
    by apply (sweeps_to_symmetric _ _ _ _ S1).
Qed.

Lemma reachable_without_throw_reachable g :
  reachable_without_throw resolveId g → reachable resolveId g.
Proof.
  induction 1 as [|g c g' Hr IH Hok Hret Hstep]; [apply reachable_new|].
  by eapply reachable_step.
Qed.

Lemma reachable_without_throw_symmetric g :
  reachable_without_throw resolveId g → edge_symmetric g.
Proof.
  induction 1 as [|g c g' Hr IH Hok Hret Hstep].
  - intros a b. unfold importedModulesOf, importersOf. simpl.
    by rewrite !elem_of_nil.
  - eapply step_symmetric; [done| |done..].
    by apply reachable_graph_inv, reachable_without_throw_reachable.
Qed.


(** ** Orphans *)

Lemma orphans_inv_ext mod' done acc g g' :
  (∀ x, importersOf g' x = importersOf g x) →
  (∀ x, importedModulesOf g' x = importedModulesOf g x) →
  orphans_inv mod' done acc g → orphans_inv mod' done acc g'.
Proof.
  intros Hi Hm (K1 & K2 & K3). split_and!; [..|done].
  - intros z. rewrite Hi, Hm. apply K1.
  - intros z. rewrite Hi, Hm. apply K2.
Qed.

Lemma dropImporter_orphans mod' done acc x :
  hoare (orphans_inv mod' done acc) (dropImporter mod' acc x)
    (orphans_inv mod' (done ++ [x])).
Proof.
  intros g (K1 & K2 & K3). rewrite dropImporter_unfold.
  destruct (JsSet.has _ x) eqn:Hx; simpl.
  - apply JsSet_has_true in Hx. split_and!; [..|done].
    + intros z [Hz|Hz%list_elem_of_singleton]%elem_of_app Hn;
        [by apply K1|by subst].
    + intros z. rewrite K2, elem_of_app, list_elem_of_singleton.
      split; [tauto|]. intros ([?|E] & ? & ?); [done|by subst].
  - apply JsSet_has_false in Hx.
    set (g1 := update x _ g).
    assert (Hm : ∀ y, importedModulesOf g1 y = importedModulesOf g y).
    { intros y. by apply importedModulesOf_update_frame. }
    assert (Hi : ∀ y, importersOf g1 y =
              if decide (x = y) then JsSet.delete (importersOf g y) mod'
              else importersOf g y).
    { intros y. apply importersOf_drop. }
    assert (Hnil : ∀ z, importersOf g z = [] → importersOf g1 z = []).
    { intros z Hz. rewrite Hi. case_decide; [|done]. by rewrite Hz. }
    split_and!.
    + intros z Hz. rewrite Hm, Hi. intros Hn. case_decide.
      * rewrite JsSet_elem_of_delete. by intros [? _].
      * apply elem_of_app in Hz as [Hz|Hz%list_elem_of_singleton];
          [by apply K1|done].
    + intros z. rewrite Hm, elem_of_app, list_elem_of_singleton.
      case_bool_decide as Hsize.
      * apply JsSet_size_0 in Hsize. simpl.
        rewrite JsSet_elem_of_add, K2. split.
        -- intros [E|(Hz & Hn & He)]; [subst; by auto|]. auto.
        -- intros ([Hz|E] & Hn & He); [|by left].
           destruct (decide (x = z)) as [->|Hne]; [by left|].
           right. split_and!; [done..|].
           rewrite Hi in He. by rewrite decide_False in He.
      * rewrite JsSet_size_0 in Hsize. rewrite K2. split.
        -- intros (Hz & Hn & He). split_and!; [by left|done|by apply Hnil].
        -- intros ([Hz|E] & Hn & He); [|by subst].
           destruct (decide (x = z)) as [->|Hne]; [done|].
           split_and!; [done..|].
           rewrite Hi in He. by rewrite decide_False in He.
    + case_bool_decide; [|done].
      intros [= E]. assert (Hin : x ∈ JsSet.add (default [] acc) x).
      { apply JsSet_elem_of_add. by left. }
      rewrite E in Hin. by apply elem_of_nil in Hin.
Qed.

(** After [updateModuleInfo mod'] the invariant holds for all the previous
    imports. *)
Lemma updateModuleInfo_orphans mod' imported accepted isSelfAccepting' ssr g0 :
  hoare (λ g, g = g0)
    (updateModuleInfo resolveId mod' imported accepted isSelfAccepting' ssr)
    (orphans_inv mod' (importedModulesOf g0 mod')).
Proof.
  eapply hoare_updateModuleInfo with
    (I1 := λ prev _ _, prev = importedModulesOf g0 mod')
    (I2 := λ prev done _ acc g,
             prev = importedModulesOf g0 mod' ∧ orphans_inv mod' done acc g)
    (I3 := orphans_inv mod' (importedModulesOf g0 mod')).
  - intros g ->. simpl. by apply importedModulesOf_update_frame.
  - intros prev done x rest _ g ->.
    by destruct (addImport resolveId mod' ssr x g) as [[[]|e] g1].
  - intros prev g ->. split; [done|]. split_and!; [..|done].
    + by intros z ?%elem_of_nil.
    + intros z. simpl. rewrite !elem_of_nil. tauto.
  - intros prev done x rest acc _ g [-> Hk].
    pose proof (dropImporter_orphans mod' done acc x g Hk) as Hd.
    by destruct (dropImporter mod' acc x g) as [[a|e] g1].
  - intros prev acc g [-> Hk].
    eapply orphans_inv_ext; [..|exact Hk]; intros y;
      [by apply importersOf_update_frame
      |by apply importedModulesOf_update_frame].
  - intros acc x _ g Hk. rewrite acceptDep_unfold.
    assert (Hext := resolveDep_extends ssr x g).
    destruct (resolveDep resolveId ssr x g) as [[d|e] g1]; [|done].
    simpl in *.
    eapply orphans_inv_ext; [..|exact Hk]; intros y.
    + rewrite importersOf_update_frame by done.
      by apply extends_importersOf.
    + rewrite importedModulesOf_update_frame by done.
      by apply extends_importedModulesOf.
  - done.
Qed.


(** ** Self import *)

Lemma resolveDep_denotes g0 g ssr mod' x :
  urlToModuleMap g0 ⊆ urlToModuleMap g →
  denotes resolveId g0 ssr mod' x →
  (resolveDep resolveId ssr x g).1 = returned mod'.
Proof.
  intros Hsub Hx. destruct x as [u|d]; simpl in *; [|by subst].
  unfold registered, canonical in Hx.
  destruct (resolveUrl resolveId u ssr) as [[[c rid] m]|e] eqn:Hr; [|done].
  simpl in Hx. eapply lookup_weaken in Hx; [|exact Hsub].
  by rewrite (ensureEntryFromUrl_hit _ _ _ _ _ _ _ Hr Hx).
Qed.

Lemma importersOf_add_mono d m g z y :
  y ∈ importersOf g z →
  y ∈ importersOf
        (update d (λ n, set_importers (JsSet.add (importers n) m) n) g) z.
Proof.
  rewrite importersOf_update. case_decide; [|done].
  unfold importersOf. destruct (nodes g !! z); simpl; [|done].
  intros Hy. apply JsSet_elem_of_add. by right.
Qed.

Lemma addImport_self mod' ssr x g0 (done : list (string + nat)) :
  let I done g :=
    allocated g mod' ∧ urlToModuleMap g0 ⊆ urlToModuleMap g ∧
    ((∃ y, y ∈ done ∧ denotes resolveId g0 ssr mod' y) → self_edge mod' g) in
  hoare (I done) (addImport resolveId mod' ssr x) (λ _, I (done ++ [x])).
Proof.
  intros I g (Hm & Hsub & Hself). rewrite addImport_unfold.
  assert (Hext := resolveDep_extends ssr x g).
  assert (Hden := resolveDep_denotes g0 g ssr mod' x Hsub).
  destruct (resolveDep resolveId ssr x g) as [[d|e] g1]; [|done].
  simpl in *.
  assert (Hm1 : allocated g1 mod') by by eapply extends_allocated.
  set (g2 := update d _ g1).
  assert (Hm2 : allocated g2 mod') by by apply allocated_update.
  split_and!.
  - by apply allocated_update.
  - etrans; [exact Hsub|]. by destruct Hext as (? & _ & _ & ?).
  - intros (y & Hy & Hyd). unfold self_edge.
    rewrite (importedModulesOf_update_importedModules mod'
               (λ s, JsSet.add s d)) by by left.
    rewrite decide_True by done.
    rewrite importersOf_update_frame by done. unfold g2.
    rewrite importedModulesOf_update_frame by done.
    apply elem_of_app in Hy as [Hy|Hy%list_elem_of_singleton].
    + destruct Hself as [S1 S2]; [by exists y|]. split.
      * apply JsSet_elem_of_add. right.
        by rewrite (extends_importedModulesOf g g1).
      * apply importersOf_add_mono.
        by rewrite (extends_importersOf g g1).
    + subst y. assert (d = mod') as -> by (specialize (Hden Hyd); congruence).
      split.
      * apply JsSet_elem_of_add. by left.
      * rewrite (importersOf_update_importers mod' (λ s, JsSet.add s mod'))
          by by left.
        rewrite decide_True by done. apply JsSet_elem_of_add. by left.
Qed.

Lemma dropImporter_self mod' acc x :
  hoare (self_edge mod') (dropImporter mod' acc x) (λ _, self_edge mod').
Proof.
  intros g [S1 S2]. rewrite dropImporter_unfold.
  destruct (JsSet.has _ x) eqn:Hx; simpl; [done|].
  apply JsSet_has_false in Hx. split.
  - by rewrite importedModulesOf_update_frame.
  - rewrite importersOf_drop. rewrite decide_False; [done|]. by intros ->.
Qed.

(** If an element of the imported set stands for [mod'], the node ends
    up importing itself. *)
Lemma updateModuleInfo_self mod' imported accepted isSelfAccepting' ssr g0 y :
  allocated g0 mod' → y ∈ imported → denotes resolveId g0 ssr mod' y →
  hoare (λ g, g = g0)
    (updateModuleInfo resolveId mod' imported accepted isSelfAccepting' ssr)
    (λ _, self_edge mod').
Proof.
  intros Hm Hy Hyd.
  eapply hoare_updateModuleInfo with
    (I1 := λ _ done g,
       allocated g mod' ∧ urlToModuleMap g0 ⊆ urlToModuleMap g ∧
       ((∃ y, y ∈ done ∧ denotes resolveId g0 ssr mod' y) →
        self_edge mod' g))
    (I2 := λ _ _ _ _, self_edge mod')
    (I3 := λ _, self_edge mod').
  - intros g ->. simpl. split_and!.
    + by do 2 apply allocated_update.
    + done.
    + by intros (z & ?%elem_of_nil & _).
  - intros prev done x rest _. apply addImport_self.
  - intros prev g (_ & _ & Hself). apply Hself. by exists y.
  - intros prev done x rest acc _. apply dropImporter_self.
  - intros prev acc g [S1 S2]. split.
    + by rewrite importedModulesOf_update_frame.
    + by rewrite importersOf_update_frame.
  - intros acc x _ g [S1 S2]. rewrite acceptDep_unfold.
    assert (Hext := resolveDep_extends ssr x g).
    destruct (resolveDep resolveId ssr x g) as [[d|e] g1]; [|done].
    simpl in *. split.
    + rewrite importedModulesOf_update_frame by done.
      by rewrite (extends_importedModulesOf g).
    + rewrite importersOf_update_frame by done.
      by rewrite (extends_importersOf g).
  - done.
Qed.



(** ** Main results on the module graph *)

(** X28 (edge symmetry, as far as it holds).  In every graph a server
    can hold, every import has its back-edge: if [a] is in
    [b.importedModules] then [b] is in [a.importers].  As long as no call
    has thrown, the edges are symmetric: [a] is in [b.importedModules] iff
    [b] is in [a.importers].  Every well-formed call on a graph with
    symmetric edges leaves a graph, and leaves the edges symmetric if it
    returns; [updateModuleInfo] returns if [resolveUrl] returns for every
    url of its two sets. *)
Theorem edge_symmetry_invariant g :
  reachable resolveId g →
  imports_mirrored g ∧
  (reachable_without_throw resolveId g → edge_symmetric g) ∧
  (edge_symmetric g →
   ∀ c, call_ok g c →
     ∃ g', step resolveId c g = Some g' ∧
           (completes resolveId c g → edge_symmetric g')) ∧
  (edge_symmetric g →
   ∀ mod' imported accepted isSelfAccepting' ssr,
     call_ok g (UpdateModuleInfo mod' imported accepted isSelfAccepting' ssr) →
     Forall (resolves resolveId ssr) (imported ++ accepted) →
     ∃ o g',
       updateModuleInfo resolveId mod' imported accepted isSelfAccepting'
         ssr g = (returned o, g') ∧
       edge_symmetric g').
Proof.
  intros Hr. pose proof (reachable_graph_inv g Hr) as (Hm & Hc & Hi).
  split_and!.
  - done.
  - apply reachable_without_throw_symmetric.
  - intros Hs c Hok.
    destruct (step_graph_inv g c (conj Hm (conj Hc Hi)) Hok) as (g' & E & _).
    exists g'. split; [done|]. intros Hret. by eapply step_symmetric.
  - intros Hs mod' imported accepted b ssr Hok Hres.
    apply (updateModuleInfo_returns mod' imported accepted b ssr g) in Hres.
    pose proof (updateModuleInfo_sym mod' imported accepted b ssr g) as Hu.
    destruct (updateModuleInfo resolveId mod' imported accepted b ssr g)
      as [[o|e] g1]; [|done].
    exists o, g1. split; [done|]. apply Hu. split_and!; [done| |done].
    by apply index_consistent_url_allocated.
Qed.

(** C2, as amended (index consistency).  In every graph a server can
    hold: the file index holds exactly the nodes, each under its file; the
    url index holds exactly the nodes made by [ensureEntryFromUrl] (those
    with an id), each under its url, so two of them never share a url;
    every entry of the id index leads to a node with that id, and the id of
    every node is a key of the id index.  A file-only node is in neither
    the url index nor the id index.  Every well-formed call keeps this,
    whether it returns or throws. *)
Theorem index_consistency_invariant g :
  reachable resolveId g →
  index_consistent g ∧
  (∀ h1 h2 n1 n2,
     nodes g !! h1 = Some n1 → nodes g !! h2 = Some n2 →
     is_Some (id n1) → is_Some (id n2) → url n1 = url n2 → h1 = h2) ∧
  (∀ c, call_ok g c →
        ∃ g', step resolveId c g = Some g' ∧ index_consistent g').
Proof.
  intros Hr. apply reachable_graph_inv in Hr. split_and!.
  - apply Hr.
  - intros h1 h2 n1 n2 H1 H2 I1 I2 E. destruct Hr as (_ & _ & Hi).
    pose proof (url_index_complete g Hi h1 n1 H1 I1) as E1.
    pose proof (url_index_complete g Hi h2 n2 H2 I2) as E2.
    rewrite E in E1. rewrite E1 in E2. by injection E2.
  - intros c Hc. destruct (step_graph_inv g c Hr Hc) as (g' & E & Hg').
    exists g'. split; [done|]. apply Hg'.
Qed.



(** C4 (frame of the SSR cascade).  [invalidateModule(mod)] under a fresh
    [seen] set returns; it leaves the indices and the number of nodes
    alone; on [mod] it clears [info], [transformResult],
    [ssrTransformResult] and [ssrModule]; on every other node reached
    from [mod] along [importers] it clears [ssrModule] and nothing else;
    every other node is unchanged. *)
Theorem ssr_cascade_frame g mod' :
  importers_closed g → allocated g mod' →
  ∃ s', invalidateModule mod' (fresh_sweep g) = Some s' ∧
    urlToModuleMap (graph s') = urlToModuleMap g ∧
    idToModuleMap (graph s') = idToModuleMap g ∧
    fileToModulesMap (graph s') = fileToModulesMap g ∧
    length (nodes (graph s')) = length (nodes g) ∧
    ∀ h n, nodes g !! h = Some n →
      ∃ n', nodes (graph s') !! h = Some n' ∧
        (h = mod' → n' = set_ssrModule None (clearCaches n)) ∧
        (h ≠ mod' → imported_by g mod' h → n' = set_ssrModule None n) ∧
        (¬ imported_by g mod' h → n' = n).
Proof.
  intros Hc Hm.
  destruct (invalidateModule_cascade mod' (fresh_sweep g) Hc Hm)
    as (new & s' & E & S1 & C).
  exists s'. split; [done|].
  pose proof (cascade_reaches _ _ _ mod' C) as Hmod.
  pose proof (sweeps_to_length _ _ _ _ S1) as Hlen.
  destruct S1 as [_ _ Hn Hu Hi Hf]. simpl in *.
  split_and!; [done..|].
  - intros h n Hh. rewrite Hn, Hh. simpl. eexists. split; [done|].
    pose proof (cascade_reaches _ _ _ h C) as Hreach. unfold touch.
    split_and!.
    + intros ->. rewrite (bool_decide_eq_true_2 (mod' ∈ [mod'])) by by left.
      rewrite (bool_decide_eq_true_2 (mod' ∈ new)); [done|].
      apply Hmod. exists mod'. split; [by left|apply rtc_refl].
    + intros Hne Hr. rewrite (bool_decide_eq_false_2 (h ∈ [mod'])).
      2:{ by intros ?%list_elem_of_singleton. }
      rewrite (bool_decide_eq_true_2 (h ∈ new)); [done|].
      apply Hreach. exists mod'. split; [by left|done].
    + intros Hr. rewrite (bool_decide_eq_false_2 (h ∈ [mod'])).
      2:{ intros ->%list_elem_of_singleton. apply Hr, rtc_refl. }
      rewrite (bool_decide_eq_false_2 (h ∈ new)); [done|].
      intros (r & ->%list_elem_of_singleton & Hrh)%Hreach. done.
Qed.

(** C5 (termination of the cascade, also on cycles).  On any graph
    without dangling handles, whatever its [importers] edges:
    [invalidateModule(mod)] under a fresh [seen] set returns, and visits
    each node reached from [mod] exactly once and no other node;
    [invalidateAll] and [onFileChange] return and visit no node twice. *)
Theorem cascade_terminates_visits_once g :
  store_closed g →
  (∀ mod', allocated g mod' →
     ∃ s', invalidateModule mod' (fresh_sweep g) = Some s' ∧
           NoDup (visits s') ∧ seen s' = visits s' ∧
           ∀ x, x ∈ visits s' ↔ imported_by g mod' x) ∧
  (∃ s', invalidateAll g = Some s' ∧ NoDup (visits s')) ∧
  (∀ f, ∃ s', onFileChange f g = Some s' ∧ NoDup (visits s')).
Proof.
  intros (Hc & Hids & Hfiles). split_and!.
  - intros mod' Hm.
    destruct (invalidateModule_cascade mod' (fresh_sweep g) Hc Hm)
      as (new & s' & E & S1 & C).
    exists s'. destruct S1 as [Hseen Hvisits _ _ _ _]. simpl in *.
    rewrite Hseen, Hvisits. split_and!; [done|apply C|done|].
    intros x. rewrite (cascade_reaches _ _ _ x C). split.
    + by intros (r & ->%list_elem_of_singleton & Hr).
    + intros Hr. exists mod'. split; [by left|done].
  - destruct (invalidateEach_cascade _ g Hc Hids) as (new & s' & E & S1 & C).
    exists s'. split; [done|]. rewrite (sweeps_visits _ _ _ _ S1). apply C.
  - intros f. unfold onFileChange.
    destruct (fileToModulesMap g !! f) as [mods|] eqn:Hf.
    + destruct (invalidateEach_cascade mods g Hc) as (new & s' & E & S1 & C).
      { by apply (Hfiles f). }
      exists s'. split; [done|]. rewrite (sweeps_visits _ _ _ _ S1). apply C.
    + eexists. split; [done|]. apply NoDup_nil_2.
Qed.


(** ** Canonical urls *)

Lemma resolveUrl_unfold rawUrl ssr :
  let u := removeImportQuery (removeTimestampQuery rawUrl) in
  let rid :=
    match resolveId u ssr with
    | Some r =>
        if bool_decide (PartialResolvedId.id r = "") then u
        else PartialResolvedId.id r
    | None => u
    end in
  let ext := extname (cleanUrl rid) in
  resolveUrl resolveId rawUrl ssr =
  if bool_decide (ext = "")
  then returned (u, rid, resolveId u ssr ≫= PartialResolvedId.meta)
  else
    match pathname (parseUrl u) with
    | Some path =>
        returned
          (if endsWith path ext then u
           else path +:+ ext +:+ default "" (search (parseUrl u)) +:+
                default "" (hash (parseUrl u)),
           rid, resolveId u ssr ≫= PartialResolvedId.meta)
    | None => thrown TypeError
    end.
Proof.
  intros u rid ext. unfold resolveUrl. fold u. fold rid. fold ext.
  destruct (bool_decide (ext = "")); simpl; [done|].
  destruct (pathname (parseUrl u)) as [path|]; [|done].
  by destruct (endsWith path ext).
Qed.

Lemma ensureEntryFromUrl_twice rawUrl1 rawUrl2 ssr g :
  canonical resolveId rawUrl1 ssr = canonical resolveId rawUrl2 ssr →
  let e1 := ensureEntryFromUrl resolveId rawUrl1 ssr g in
  ensureEntryFromUrl resolveId rawUrl2 ssr e1.2 = e1.
Proof.
  intros Hc e1. subst e1. unfold canonical in Hc.
  destruct (resolveUrl resolveId rawUrl1 ssr) as [[[u1 rid1] m1]|e1] eqn:Hr1;
    destruct (resolveUrl resolveId rawUrl2 ssr) as [[[u2 rid2] m2]|e2]
      eqn:Hr2; try done.
  - simpl in Hc. injection Hc as ->.
    destruct (urlToModuleMap g !! u2) as [h|] eqn:Hu.
    + rewrite (ensureEntryFromUrl_hit _ _ _ _ _ _ _ Hr1 Hu). cbn [snd].
      by rewrite (ensureEntryFromUrl_hit _ _ _ _ _ _ _ Hr2 Hu).
    + rewrite (ensureEntryFromUrl_miss _ _ _ _ _ _ Hr1 Hu). cbn [snd].
      erewrite (ensureEntryFromUrl_hit _ _ _ _ _ _ _ Hr2); [done|].
      apply lookup_insert_eq.
  - rewrite (ensureEntryFromUrl_throws _ _ _ _ Hr1). cbn [snd].
    rewrite (ensureEntryFromUrl_throws _ _ _ _ Hr2). by destruct e1, e2.
Qed.

Lemma getModuleByUrl_unfold rawUrl ssr g :
  getModuleByUrl resolveId rawUrl ssr g =
  match resolveUrl resolveId rawUrl ssr with
  | returned r => (returned (urlToModuleMap g !! r.1.1), g)
  | thrown e => (thrown e, g)
  end.
Proof.
  unfold getModuleByUrl, mbind, M_bind, await.
  by destruct (resolveUrl resolveId rawUrl ssr) as [[[u rid] m]|e].
Qed.

(** [getModuleByUrl] returns the node registered for the canonical url,
    when there is a canonical url. *)
Lemma getModuleByUrl_registered rawUrl ssr g :
  is_Some (canonical resolveId rawUrl ssr) →
  getModuleByUrl resolveId rawUrl ssr g =
  (returned (registered resolveId g rawUrl ssr), g).
Proof.
  rewrite getModuleByUrl_unfold. unfold registered, canonical.
  destruct (resolveUrl resolveId rawUrl ssr) as [r|e]; [done|].
  by intros [? [=]].
Qed.

(** X29 (when the two spellings of a url converge).  Let the
    resolver map the cleaned urls of both spellings to the same
    identifier, whose extension is [.css]; let [url.parse] give both a
    path, that of the first not ending in [.css]; and let the second
    spelling be the url that the extension step builds from the first:
    the path that [url.parse] gives for the first, then [.css], then its
    query and hash.  Then both have the same canonical url,
    [ensureEntryFromUrl] returns the same node for both (the second call
    changes nothing), and [getModuleByUrl] finds that node for either
    spelling. *)
Theorem url_spellings_converge g rawUrl1 rawUrl2 ssr r1 r2 p1 p2 :
  let u1 := removeImportQuery (removeTimestampQuery rawUrl1) in
  let u2 := removeImportQuery (removeTimestampQuery rawUrl2) in
  resolveId u1 ssr = Some r1 → resolveId u2 ssr = Some r2 →
  PartialResolvedId.id r1 = PartialResolvedId.id r2 →
  PartialResolvedId.id r1 ≠ "" →
  extname (cleanUrl (PartialResolvedId.id r1)) = ".css" →
  pathname (parseUrl u1) = Some p1 → pathname (parseUrl u2) = Some p2 →
  endsWith p1 ".css" = false →
  endsWith p2 ".css" = true →
  u2 = p1 +:+ ".css" +:+
       default "" (search (parseUrl u1)) +:+ default "" (hash (parseUrl u1)) →
  canonical resolveId rawUrl1 ssr = Some u2 ∧
  canonical resolveId rawUrl2 ssr = Some u2 ∧
  let e1 := ensureEntryFromUrl resolveId rawUrl1 ssr g in
  ∃ h, e1.1 = returned h ∧
    ensureEntryFromUrl resolveId rawUrl2 ssr e1.2 = e1 ∧
    getModuleByUrl resolveId rawUrl1 ssr e1.2 = (returned (Some h), e1.2) ∧
    getModuleByUrl resolveId rawUrl2 ssr e1.2 = (returned (Some h), e1.2).
Proof.
  intros u1 u2 Hr1 Hr2 Hid Hne Hext Hq1 Hq2 Hp1 Hp2 Hu2.
  assert (C1 : canonical resolveId rawUrl1 ssr = Some u2).
  { unfold canonical. rewrite resolveUrl_unfold. fold u1. rewrite Hr1. simpl.
    rewrite (bool_decide_eq_false_2 (PartialResolvedId.id r1 = "")) by done.
    rewrite Hext, Hq1, Hp1. simpl. by rewrite Hu2. }
  assert (C2 : canonical resolveId rawUrl2 ssr = Some u2).
  { unfold canonical. rewrite resolveUrl_unfold. fold u2. rewrite Hr2. simpl.
    rewrite <- Hid.
    rewrite (bool_decide_eq_false_2 (PartialResolvedId.id r1 = "")) by done.
    by rewrite Hext, Hq2, Hp2. }
  split; [done|]. split; [done|]. intros e1.
  assert (Hret : is_returned e1.1).
  { apply ensureEntryFromUrl_returns. by rewrite C1. }
  destruct e1.1 as [h|e] eqn:E1; [|done]. exists h. split; [done|].
  pose proof (ensureEntryFromUrl_registered rawUrl1 ssr g h E1) as Hreg.
  fold e1 in Hreg. split_and!.
  - apply ensureEntryFromUrl_twice. by rewrite C1, C2.
  - rewrite getModuleByUrl_registered by by rewrite C1. by rewrite Hreg.
  - rewrite getModuleByUrl_registered by by rewrite C2.
    unfold registered in *. rewrite C1 in Hreg. by rewrite C2, Hreg.
Qed.




(** ** Idempotence *)

Lemma find_unique {A} (p : A → bool) `{EqDecision A} (l : list A) (x : A) :
  x ∈ l → p x = true → (∀ y, y ∈ l → y ≠ x → p y = false) →
  List.find p l = Some x.
Proof.
  intros Hx Hp Hother. induction l as [|a l IH]; [by apply elem_of_nil in Hx|].
  simpl. destruct (decide (a = x)) as [->|Hne].
  - by rewrite Hp.
  - rewrite Hother; [|by left|done].
    apply IH.
    + apply elem_of_cons in Hx as [->|Hx]; done.
    + intros y Hy. apply Hother. by right.
Qed.

Lemma createFileOnlyEntry_twice file0 g :
  let e1 := createFileOnlyEntry file0 g in
  createFileOnlyEntry file0 e1.2 = e1.
Proof.
  intros e1. subst e1. rewrite (createFileOnlyEntry_unfold file0 g). simpl.
  set (f := normalizePath file0). set (u := FS_PREFIX +:+ f).
  destruct (List.find (fileOnlyMatch g u f)
              (default [] (fileToModulesMap g !! f))) as [m|] eqn:Hfind.
  - (* found: the set was there, the graph is unchanged *)
    destruct (fileToModulesMap g !! f) as [s|] eqn:Hf; [|done]. simpl in *.
    rewrite (createFileOnlyEntry_unfold file0 g). simpl. fold f u.
    rewrite Hf. simpl. by rewrite Hfind.
  - (* created: the new node is the only match of the set *)
    set (s := default [] (fileToModulesMap g !! f)) in *.
    set (new := length (nodes g)).
    cbn [snd].
    set (g1 := {| nodes := nodes g ++ [file_only_node f];
                  urlToModuleMap := urlToModuleMap g;
                  idToModuleMap := idToModuleMap g;
                  fileToModulesMap :=
                    <[f := JsSet.add s new]> (fileToModulesMap g);
                  safeModulesPath := safeModulesPath g |}).
    rewrite (createFileOnlyEntry_unfold file0 g1). simpl. fold f u.
    rewrite lookup_insert_eq. simpl.
    assert (Hnew : fileOnlyMatch g1 u f new = true).
    { unfold fileOnlyMatch, g1, new. simpl. rewrite list_lookup_middle by done.
      simpl. by rewrite bool_decide_eq_true_2. }
    assert (Hold : ∀ y, y ∈ JsSet.add s new → y ≠ new →
              fileOnlyMatch g1 u f y = false).
    { intros y Hy Hne. apply JsSet_elem_of_add in Hy as [?|Hy]; [done|].
      pose proof (find_none _ _ Hfind y) as Hnone.
      rewrite <- list_elem_of_In in Hnone. specialize (Hnone Hy).
      unfold fileOnlyMatch in *. unfold g1. simpl.
      destruct (decide (y < length (nodes g))) as [Hlt|Hge].
      - by rewrite lookup_app_l.
      - rewrite lookup_ge_None_2; [done|].
        rewrite length_app. simpl. unfold new in Hne. lia. }
    rewrite (find_unique _ _ new); [done| |done..].
    apply JsSet_elem_of_add. by left.
Qed.

(** C9 (idempotent entry creation).  Whatever the graph, a second
    [ensureEntryFromUrl] with the same raw url comes to what the first
    came to (it returns the same node, or throws again) and leaves the
    graph, so all three indices, as the first call left it; the same
    holds for [createFileOnlyEntry] with the same file.  The resolver is a
    function, so it answers the same both times. *)
Theorem entry_creation_idempotent g :
  (∀ rawUrl ssr,
     let e1 := ensureEntryFromUrl resolveId rawUrl ssr g in
     ensureEntryFromUrl resolveId rawUrl ssr e1.2 = e1) ∧
  (∀ file0,
     let e1 := createFileOnlyEntry file0 g in
     createFileOnlyEntry file0 e1.2 = e1).
Proof.
  split.
  - intros rawUrl ssr. by apply ensureEntryFromUrl_twice.
  - intros file0. apply createFileOnlyEntry_twice.
Qed.

(** C10, as amended (self import).  Let the imported set given to
    [updateModuleInfo(mod, ...)] hold [mod] itself: as the node, or as a
    url whose canonical url is registered for [mod] in the url index; and
    let [resolveUrl] return for every url of the two sets.  Then the call
    returns, after it [mod] is in its own [importedModules] and in its
    own [importers], and it is not in the returned set. *)
Theorem self_import g mod' imported accepted isSelfAccepting' ssr x :
  allocated g mod' → x ∈ imported → denotes resolveId g ssr mod' x →
  Forall (resolves resolveId ssr) (imported ++ accepted) →
  let r := updateModuleInfo resolveId mod' imported accepted
             isSelfAccepting' ssr g in
  ∃ o, r.1 = returned o ∧
    mod' ∈ importedModulesOf r.2 mod' ∧
    mod' ∈ importersOf r.2 mod' ∧
    mod' ∉ default [] o.
Proof.
  intros Hm Hx Hd Hres r.
  apply (updateModuleInfo_returns mod' imported accepted isSelfAccepting'
           ssr g) in Hres. fold r in Hres.
  destruct r.1 as [o|e] eqn:Er; [|done]. exists o. split; [done|].
  destruct (hoare_returned _ _ _ g o
              (updateModuleInfo_self mod' imported accepted isSelfAccepting'
                 ssr g x Hm Hx Hd) eq_refl Er) as [S1 S2].
  destruct (hoare_returned _ _ _ g o
              (updateModuleInfo_orphans mod' imported accepted
                 isSelfAccepting' ssr g) eq_refl Er) as (K1 & K2 & K3).
  fold r in S1, S2, K2. split_and!; [done..|].
  intros Hin. apply K2 in Hin as (_ & Hn & _). done.
Qed.


(** ** Nothing is forgotten *)

Lemma grows_refl g : grows g g.
Proof.
  split; [|done|done|by eauto].
  intros h n Hn. by exists n.
Qed.

Lemma grows_trans g1 g2 g3 : grows g1 g2 → grows g2 g3 → grows g1 g3.
Proof.
  intros [N1 U1 I1 F1] [N2 U2 I2 F2]. split.
  - intros h n Hn. destruct (N1 h n Hn) as (n' & Hn' & ? & ? & ? & ?).
    destruct (N2 h n' Hn') as (n'' & Hn'' & ? & ? & ? & ?).
    exists n''. split_and!; congruence.
  - by etrans.
  - auto.
  - intros f s h Hs Hh. destruct (F1 f s h Hs Hh) as (s' & Hs' & Hh'). eauto.
Qed.

Lemma grows_update h f g :
  (∀ n, url (f n) = url n ∧ id (f n) = id n ∧ file (f n) = file n ∧
        type (f n) = type n) →
  grows g (update h f g).
Proof.
  intros Hf. split; [|done|done|by eauto].
  intros x n Hx. rewrite lookup_update, Hx. case_decide; simpl; [|by exists n].
  eexists. split; [done|]. apply Hf.
Qed.

Lemma grows_length g g' : grows g g' → length (nodes g) ≤ length (nodes g').
Proof.
  intros [N _ _ _]. apply Nat.nlt_ge. intros Hlt.
  destruct (lookup_lt_is_Some_2 (nodes g) (length (nodes g'))) as [n Hn];
    [lia|].
  destruct (N _ _ Hn) as (n' & Hn' & _).
  apply lookup_lt_Some in Hn'. lia.
Qed.

Lemma ensureEntryFromUrl_grows rawUrl ssr g :
  grows g (ensureEntryFromUrl resolveId rawUrl ssr g).2.
Proof.
  ensure_cases rawUrl ssr g; [apply grows_refl| |apply grows_refl].
  split; simpl.
  - intros h n Hn. exists n. split; [|done].
    rewrite lookup_app_l; [done|]. by eapply lookup_lt_Some.
  - by apply insert_subseteq.
  - intros i Hi. destruct (decide (rid = i)) as [->|Hne].
    + rewrite JsMap_get_set_eq. by eexists.
    + by rewrite JsMap_get_set_ne.
  - intros f s h Hs Hh. rewrite lookup_insert. case_decide as E.
    + subst f. eexists. split; [done|]. rewrite Hs. simpl.
      apply JsSet_elem_of_add. by right.
    + by exists s.
Qed.

Lemma createFileOnlyEntry_grows file0 g :
  grows g (createFileOnlyEntry file0 g).2.
Proof.
  rewrite createFileOnlyEntry_unfold. simpl.
  set (f0 := normalizePath file0).
  destruct (List.find _ _) as [m|]; simpl.
  - destruct (fileToModulesMap g !! f0) eqn:Hf; [apply grows_refl|].
    split; simpl; [|done|done|].
    + intros h n Hn. by exists n.
    + intros f s h Hs Hh. exists s. split; [|done].
      rewrite lookup_insert_ne; [done|]. intros ->. by rewrite Hf in Hs.
  - split; simpl; [|done|done|].
    + intros h n Hn. exists n. split; [|done].
      rewrite lookup_app_l; [done|]. by eapply lookup_lt_Some.
    + intros f s h Hs Hh. rewrite lookup_insert. case_decide as E.
      * subst f. eexists. split; [done|]. rewrite Hs. simpl.
        apply JsSet_elem_of_add. by right.
      * by exists s.
Qed.

Lemma resolveDep_grows ssr x g : grows g (resolveDep resolveId ssr x g).2.
Proof.
  destruct x; simpl; [apply ensureEntryFromUrl_grows|apply grows_refl].
Qed.

Lemma updateModuleInfo_grows mod' imported accepted isSelfAccepting' ssr g0 :
  triple (λ g, g = g0)
    (updateModuleInfo resolveId mod' imported accepted isSelfAccepting' ssr)
    (λ _, grows g0) (grows g0).
Proof.
  eapply triple_updateModuleInfo with
    (I1 := λ _ _, grows g0)
    (I2 := λ _ _ _ _, grows g0)
    (I3 := λ _, grows g0).
  - intros g ->. simpl.
    eapply grows_trans; [|by apply grows_update]. by apply grows_update.
  - intros prev done x rest _ g Hg. rewrite addImport_unfold.
    pose proof (resolveDep_grows ssr x g) as Hr.
    destruct (resolveDep resolveId ssr x g) as [[d|e] g1]; [|done].
    simpl in *.
    eapply grows_trans; [|by apply grows_update].
    eapply grows_trans; [|by apply grows_update].
    by eapply grows_trans.
  - done.
  - intros prev done x rest acc _ g Hg. rewrite dropImporter_unfold.
    destruct (JsSet.has _ x); simpl; [done|].
    eapply grows_trans; [exact Hg|by apply grows_update].
  - intros prev acc g Hg.
    eapply grows_trans; [exact Hg|by apply grows_update].
  - intros acc x _ g Hg. rewrite acceptDep_unfold.
    pose proof (resolveDep_grows ssr x g) as Hr.
    destruct (resolveDep resolveId ssr x g) as [[d|e] g1]; [|done].
    simpl in *.
    eapply grows_trans; [|by apply grows_update].
    by eapply grows_trans.
  - done.
  - done.
  - done.
Qed.

Lemma sweeps_to_grows s new direct s' :
  sweeps_to s new direct s' → grows (graph s) (graph s').
Proof.
  intros [_ _ Hn Hu Hi Hf]. split; rewrite ?Hu, ?Hi, ?Hf; [|done|done|by eauto].
  intros h n Hh. rewrite Hn, Hh. simpl. eexists. split; [done|].
  unfold touch. by destruct (bool_decide (h ∈ direct)), (bool_decide (h ∈ new)).
Qed.

(** X10 (nothing is forgotten).  A well-formed call on a graph a server
    can hold leaves a graph, whether it returns or throws, and in that
    graph every node is still there under its handle with the url, id,
    file and type it had; every url is still registered for the node it
    was registered for; every node is still in the set of its file; every
    id that was a key of the id index still is one (for the node it was
    registered for, or for a later node with the same id); the store has
    not shrunk.  No method removes a node or a key of an index. *)
Theorem graph_only_grows g c :
  reachable resolveId g → call_ok g c →
  ∃ g', step resolveId c g = Some g' ∧ grows g g' ∧
        length (nodes g) ≤ length (nodes g').
Proof.
  intros Hr Hok. apply reachable_graph_inv in Hr as (Hs & Hc & Hi).
  cut (∃ g', step resolveId c g = Some g' ∧ grows g g').
  { intros (g' & E & Hg). exists g'. split_and!; [done..|].
    by apply grows_length. }
  pose proof (step_sweeps g c Hc Hi Hok) as Hsw.
  destruct c as [u ssr|f|m imp acc b ssr|m|f|]; simpl in *.
  - eexists. split; [done|]. apply ensureEntryFromUrl_grows.
  - eexists. split; [done|]. apply createFileOnlyEntry_grows.
  - eexists. split; [done|].
    by apply (triple_left _ _ _ g (updateModuleInfo_grows m imp acc b ssr g)).
  - destruct Hsw as (g' & s & new & direct & E & -> & S1).
    exists (graph s). split; [done|]. apply (sweeps_to_grows _ _ _ _ S1).
  - destruct Hsw as (g' & s & new & direct & E & -> & S1).
    exists (graph s). split; [done|]. apply (sweeps_to_grows _ _ _ _ S1).
  - destruct Hsw as (g' & s & new & direct & E & -> & S1).
    exists (graph s). split; [done|]. apply (sweeps_to_grows _ _ _ _ S1).
Qed.


(** ** The frame of [updateModuleInfo] *)

Lemma edges_only_refl mod' h n : edges_only mod' h n n.
Proof. by unfold edges_only. Qed.

Lemma edges_only_trans mod' h n1 n2 n3 :
  edges_only mod' h n1 n2 → edges_only mod' h n2 n3 → edges_only mod' h n1 n3.
Proof.
  intros (?&?&?&?&?&?&?&?&?&?&A1&B1) (?&?&?&?&?&?&?&?&?&?&A2&B2).
  split_and!; try congruence.
  - intros Hne. destruct (A1 Hne) as (?&?&?), (A2 Hne) as (?&?&?).
    split_and!; congruence.
  - intros z Hz. by rewrite B2, B1.
Qed.

Lemma frame_refl mod' g : frame mod' g g.
Proof.
  split; [done|]. intros h n Hn. exists n. split; [done|].
  apply edges_only_refl.
Qed.

Lemma frame_trans mod' g1 g2 g3 :
  frame mod' g1 g2 → frame mod' g2 g3 → frame mod' g1 g3.
Proof.
  intros [S1 N1] [S2 N2]. split; [congruence|]. intros h n Hn.
  destruct (N1 h n Hn) as (n' & Hn' & E1).
  destruct (N2 h n' Hn') as (n'' & Hn'' & E2).
  exists n''. split; [done|]. by eapply edges_only_trans.
Qed.

Lemma frame_update mod' h f g :
  (∀ n, edges_only mod' h n (f n)) → frame mod' g (update h f g).
Proof.
  intros Hf. split; [done|]. intros x n Hx. rewrite lookup_update, Hx.
  case_decide as E; simpl.
  - subst x. eexists. split; [done|]. apply Hf.
  - exists n. split; [done|]. apply edges_only_refl.
Qed.

Lemma frame_grows_nodes mod' g g' extra :
  nodes g' = nodes g ++ extra → safeModulesPath g' = safeModulesPath g →
  frame mod' g g'.
Proof.
  intros Hn Hs. split; [done|]. intros h n Hh. exists n.
  split; [|apply edges_only_refl].
  rewrite Hn, lookup_app_l; [done|]. by eapply lookup_lt_Some.
Qed.

Lemma ensureEntryFromUrl_frame mod' rawUrl ssr g :
  frame mod' g (ensureEntryFromUrl resolveId rawUrl ssr g).2.
Proof.
  ensure_cases rawUrl ssr g; [apply frame_refl| |apply frame_refl].
  by eapply frame_grows_nodes.
Qed.

Lemma resolveDep_frame mod' ssr x g :
  frame mod' g (resolveDep resolveId ssr x g).2.
Proof.
  destruct x; simpl; [apply ensureEntryFromUrl_frame|apply frame_refl].
Qed.

Lemma updateModuleInfo_frame_hoare mod' imported accepted isSelfAccepting' ssr
    g0 :
  triple (λ g, g = g0)
    (updateModuleInfo resolveId mod' imported accepted isSelfAccepting' ssr)
    (λ _, frame mod' g0) (frame mod' g0).
Proof.
  eapply triple_updateModuleInfo with
    (I1 := λ _ _, frame mod' g0)
    (I2 := λ _ _ _ _, frame mod' g0)
    (I3 := λ _, frame mod' g0).
  - intros g ->. simpl.
    eapply frame_trans; apply frame_update; intros n;
      unfold edges_only; by split_and!.
  - intros prev done x rest _ g Hg. rewrite addImport_unfold.
    pose proof (resolveDep_frame mod' ssr x g) as Hr.
    destruct (resolveDep resolveId ssr x g) as [[d|e] g1]; [|done].
    simpl in *.
    eapply frame_trans; [|apply frame_update].
    + eapply frame_trans; [|apply frame_update].
      * by eapply frame_trans.
      * intros n. unfold edges_only. split_and!; try done.
        intros z Hz. simpl. rewrite JsSet_elem_of_add.
        split; [by intros [?|?]|by right].
    + intros n. unfold edges_only. by split_and!.
  - done.
  - intros prev done x rest acc _ g Hg. rewrite dropImporter_unfold.
    destruct (JsSet.has _ x); simpl; [done|].
    eapply frame_trans; [exact Hg|apply frame_update].
    intros n. unfold edges_only. split_and!; try done.
    intros z Hz. simpl. rewrite JsSet_elem_of_delete.
    split; [by intros [??]|done].
  - intros prev acc g Hg.
    eapply frame_trans; [exact Hg|apply frame_update].
    intros n. unfold edges_only. by split_and!.
  - intros acc x _ g Hg. rewrite acceptDep_unfold.
    pose proof (resolveDep_frame mod' ssr x g) as Hr.
    destruct (resolveDep resolveId ssr x g) as [[d|e] g1]; [|done].
    simpl in *.
    eapply frame_trans; [|apply frame_update].
    + by eapply frame_trans.
    + intros n. unfold edges_only. by split_and!.
  - done.
  - done.
  - done.
Qed.

(** X7 (the frame of [updateModuleInfo]).  Whatever the graph and the
    arguments, and whether it returns or throws,
    [updateModuleInfo(mod, ...)] leaves every node in the store
    under its handle and changes of a node nothing but edges: [url], [id],
    [file], [type], [info], [meta], the two transform results, [ssrModule]
    and [lastHMRTimestamp] are what they were; [importedModules],
    [acceptedHmrDeps] and [isSelfAccepting] change on [mod] only; and the
    [importers] of a node differ from before at most in holding [mod].  No
    cache is invalidated by the call. *)
Theorem updateModuleInfo_frame g mod' imported accepted isSelfAccepting' ssr :
  frame mod' g
    (updateModuleInfo resolveId mod' imported accepted isSelfAccepting' ssr
       g).2.
Proof.
  by apply (triple_left _ _ _ g
              (updateModuleInfo_frame_hoare mod' imported accepted
                 isSelfAccepting' ssr g)).
Qed.


(** ** Looking up what was entered *)

Lemma entry_node_fields u rid m :
  url (entry_node u rid m) = u ∧ id (entry_node u rid m) = Some rid ∧
  file (entry_node u rid m) = Some (cleanUrl rid) ∧
  meta (entry_node u rid m) = m.
Proof. by destruct m. Qed.

(** X1 (a new entry is found by the three lookups).  Let [resolveUrl]
    return for [rawUrl] and let the canonical url not be registered yet.
    [ensureEntryFromUrl] then allocates one node, with that url, the
    resolved id, the cleaned id as file and the resolver's meta, and
    returns it; afterwards [getModuleByUrl] finds it for the raw url,
    [getModulesByFile] has it in the set of its file, and [getModuleById]
    finds it for the resolved id, provided the id holds no timestamp
    query: whatever node was registered for that id before is replaced in
    the id index. *)
Theorem new_entry_is_indexed g rawUrl ssr u rid m :
  resolveUrl resolveId rawUrl ssr = returned (u, rid, m) →
  urlToModuleMap g !! u = None →
  let e := ensureEntryFromUrl resolveId rawUrl ssr g in
  let h := length (nodes g) in
  e.1 = returned h ∧
  nodes e.2 = nodes g ++ [entry_node u rid m] ∧
  (getModuleByUrl resolveId rawUrl ssr e.2).1 = returned (Some h) ∧
  (removeTimestampQuery rid = rid →
   (getModuleById rid e.2).1 = returned (Some h)) ∧
  ∃ s, (getModulesByFile (cleanUrl rid) e.2).1 = returned (Some s) ∧ h ∈ s.
Proof.
  intros Hr Hu e h. subst e h. rewrite getModuleByUrl_unfold, Hr.
  rewrite (ensureEntryFromUrl_miss _ _ _ _ _ _ Hr Hu). simpl.
  split_and!; [done..| | |].
  - by rewrite lookup_insert_eq.
  - unfold getModuleById, gets. simpl. intros ->.
    by rewrite JsMap_get_set_eq.
  - unfold getModulesByFile, gets. simpl. rewrite lookup_insert_eq.
    eexists. split; [done|]. apply JsSet_elem_of_add. by left.
Qed.

(** X2 (two urls, one id).  Let two raw urls have different canonical
    urls, neither registered yet, and the same resolved id.  Entering the
    first and then the second makes two nodes with that id.  Both stay
    registered under their urls and both are in the set of their file, but
    the id index holds one node per id: [getModuleById] finds the second
    node only. *)
Theorem same_id_latest_wins g raw1 raw2 ssr u1 u2 rid m1 m2 :
  resolveUrl resolveId raw1 ssr = returned (u1, rid, m1) →
  resolveUrl resolveId raw2 ssr = returned (u2, rid, m2) →
  u1 ≠ u2 →
  urlToModuleMap g !! u1 = None → urlToModuleMap g !! u2 = None →
  removeTimestampQuery rid = rid →
  let e1 := ensureEntryFromUrl resolveId raw1 ssr g in
  let e2 := ensureEntryFromUrl resolveId raw2 ssr e1.2 in
  let h1 := length (nodes g) in
  let h2 := S (length (nodes g)) in
  e1.1 = returned h1 ∧ e2.1 = returned h2 ∧
  id <$> nodes e2.2 !! h1 = Some (Some rid) ∧
  id <$> nodes e2.2 !! h2 = Some (Some rid) ∧
  (getModuleByUrl resolveId raw1 ssr e2.2).1 = returned (Some h1) ∧
  (getModuleByUrl resolveId raw2 ssr e2.2).1 = returned (Some h2) ∧
  (getModuleById rid e2.2).1 = returned (Some h2) ∧
  ∃ s, (getModulesByFile (cleanUrl rid) e2.2).1 = returned (Some s) ∧
       h1 ∈ s ∧ h2 ∈ s.
Proof.
  intros Hr1 Hr2 Hne Hu1 Hu2 Hts e1 e2 h1 h2. subst e2 e1 h1 h2.
  rewrite !getModuleByUrl_unfold. rewrite Hr1, Hr2.
  rewrite (ensureEntryFromUrl_miss _ _ _ _ _ _ Hr1 Hu1). cbn [fst snd].
  set (g1 := {| nodes := nodes g ++ [entry_node u1 rid m1] |}).
  assert (Hu2' : urlToModuleMap g1 !! u2 = None).
  { unfold g1. simpl. by rewrite lookup_insert_ne. }
  rewrite (ensureEntryFromUrl_miss _ _ _ _ _ _ Hr2 Hu2'). cbn [fst snd].
  unfold getModuleById, getModulesByFile, gets. cbn [fst snd].
  unfold g1. cbn [nodes urlToModuleMap idToModuleMap fileToModulesMap].
  rewrite Hts, length_app. cbn [length].
  replace (length (nodes g) + 1) with (S (length (nodes g))) by lia.
  split_and!.
  - done.
  - done.
  - rewrite lookup_app_l by (rewrite length_app; simpl; lia).
    by rewrite list_lookup_middle.
  - by rewrite list_lookup_middle by (rewrite length_app; simpl; lia).
  - rewrite lookup_insert_ne by done. by rewrite lookup_insert_eq.
  - by rewrite lookup_insert_eq.
  - by rewrite JsMap_get_set_eq.
  - rewrite !lookup_insert_eq. eexists. split; [done|]. simpl. split.
    + apply JsSet_elem_of_add. right. apply JsSet_elem_of_add. by left.
    + apply JsSet_elem_of_add. by left.
Qed.

Lemma createFileOnlyEntry_finds g file0 s h n :
  let f := normalizePath file0 in
  fileToModulesMap g !! f = Some s → h ∈ s →
  nodes g !! h = Some n → (id n = Some f ∨ url n = FS_PREFIX +:+ f) →
  ∃ m n', createFileOnlyEntry file0 g = (returned m, g) ∧ m ∈ s ∧
          nodes g !! m = Some n' ∧
          (id n' = Some f ∨ url n' = FS_PREFIX +:+ f).
Proof.
  intros f Hs Hh Hn Hmatch. rewrite createFileOnlyEntry_unfold. simpl.
  fold f. rewrite Hs. simpl.
  destruct (List.find _ s) as [m|] eqn:Hfind.
  - apply find_some in Hfind as [Hm Hp]. apply list_elem_of_In in Hm.
    unfold fileOnlyMatch in Hp.
    destruct (nodes g !! m) as [n'|] eqn:Hn'; [|done].
    exists m, n'. split_and!; [done..|].
    apply orb_true_iff in Hp as [Hp|Hp]; apply bool_decide_eq_true in Hp;
      auto.
  - exfalso. apply list_elem_of_In in Hh.
    pose proof (find_none _ _ Hfind h Hh) as Hp.
    unfold fileOnlyMatch in Hp. rewrite Hn in Hp.
    apply orb_false_iff in Hp as [Hp1 Hp2].
    apply bool_decide_eq_false in Hp1, Hp2. by destruct Hmatch.
Qed.

(** X9 (no file-only entry for a file that has an entry).  Let
    [ensureEntryFromUrl] make a node for a url whose resolved id is a
    plain file path (cleaning it changes nothing).  [createFileOnlyEntry]
    of a file that normalises to that path then makes no node and leaves
    the graph as it is: it returns a node of the store whose id is the
    file, or whose url is the file under the [/@fs/] prefix. *)
Theorem file_only_after_entry g rawUrl ssr u rid m file0 :
  resolveUrl resolveId rawUrl ssr = returned (u, rid, m) →
  urlToModuleMap g !! u = None →
  cleanUrl rid = rid → normalizePath file0 = rid →
  let e := ensureEntryFromUrl resolveId rawUrl ssr g in
  ∃ h n, createFileOnlyEntry file0 e.2 = (returned h, e.2) ∧
         nodes e.2 !! h = Some n ∧
         (id n = Some rid ∨ url n = FS_PREFIX +:+ rid).
Proof.
  intros Hr Hu Hclean Hnorm e. subst e.
  rewrite (ensureEntryFromUrl_miss _ _ _ _ _ _ Hr Hu). cbn [snd].
  set (g1 := {| nodes := nodes g ++ [entry_node u rid m] |}).
  destruct (createFileOnlyEntry_finds g1 file0
              (JsSet.add (default [] (fileToModulesMap g !! rid))
                 (length (nodes g)))
              (length (nodes g)) (entry_node u rid m))
    as (h & n & E & _ & Hn & Hmatch).
  - rewrite Hnorm. unfold g1. simpl. rewrite Hclean. apply lookup_insert_eq.
  - apply JsSet_elem_of_add. by left.
  - unfold g1. simpl. by rewrite list_lookup_middle.
  - left. rewrite Hnorm. apply entry_node_fields.
  - rewrite Hnorm in Hmatch. by exists h, n.
Qed.


(** ** What a sweep does to each node *)

Lemma touch_ext n1 n2 d1 d2 h n :
  (h ∈ n1 ↔ h ∈ n2) → (h ∈ d1 ↔ h ∈ d2) →
  touch n1 d1 h n = touch n2 d2 h n.
Proof.
  intros Hn Hd. unfold touch.
  by rewrite (bool_decide_ext _ _ Hn), (bool_decide_ext _ _ Hd).
Qed.

Lemma ModuleGraph_eq g g' :
  nodes g = nodes g' → urlToModuleMap g = urlToModuleMap g' →
  idToModuleMap g = idToModuleMap g' →
  fileToModulesMap g = fileToModulesMap g' →
  safeModulesPath g = safeModulesPath g' → g = g'.
Proof. destruct g, g'. simpl. by intros -> -> -> -> ->. Qed.

Lemma forEachSweep_safe (body : nat → Sweep → option Sweep) l :
  (∀ r s s', body r s = Some s' →
     safeModulesPath (graph s') = safeModulesPath (graph s)) →
  ∀ s s', forEachSweep body l s = Some s' →
    safeModulesPath (graph s') = safeModulesPath (graph s).
Proof.
  intros Hbody. induction l as [|r l IH]; intros s s'; simpl.
  - by intros [= <-].
  - destruct (body r s) as [s1|] eqn:E; [|done]. simpl. intros Hl.
    rewrite (IH _ _ Hl). by apply (Hbody r).
Qed.

Lemma invalidateSSRModule_safe fuel :
  ∀ mod' s s', invalidateSSRModule fuel mod' s = Some s' →
    safeModulesPath (graph s') = safeModulesPath (graph s).
Proof.
  induction fuel as [|fuel IH]; intros mod' s s'; [done|]. simpl.
  destruct (JsSet.has (seen s) mod'); [by intros [= <-]|].
  intros Hl. by rewrite (forEachSweep_safe _ _ IH _ _ Hl).
Qed.

Lemma invalidateModule_safe mod' s s' :
  invalidateModule mod' s = Some s' →
  safeModulesPath (graph s') = safeModulesPath (graph s).
Proof.
  unfold invalidateModule. intros E.
  by rewrite (invalidateSSRModule_safe _ _ _ _ E).
Qed.

(** What the sweep of [invalidateEach mods] does to each node. *)
Lemma invalidateEach_effect mods g :
  importers_closed g → Forall (allocated g) mods →
  ∃ s', invalidateEach mods g = Some s' ∧
    urlToModuleMap (graph s') = urlToModuleMap g ∧
    idToModuleMap (graph s') = idToModuleMap g ∧
    fileToModulesMap (graph s') = fileToModulesMap g ∧
    length (nodes (graph s')) = length (nodes g) ∧
    ∀ h n, nodes g !! h = Some n →
      ∃ n', nodes (graph s') !! h = Some n' ∧
        (h ∈ mods → n' = set_ssrModule None (clearCaches n)) ∧
        (h ∉ mods → (∃ r, r ∈ mods ∧ imported_by g r h) →
         n' = set_ssrModule None n) ∧
        (¬ (∃ r, r ∈ mods ∧ imported_by g r h) → n' = n).
Proof.
  intros Hc Hm.
  destruct (invalidateEach_cascade mods g Hc Hm) as (new & s' & E & S1 & C).
  exists s'. split; [done|].
  pose proof (sweeps_to_length _ _ _ _ S1) as Hlen.
  destruct S1 as [_ _ Hn Hu Hi Hf]. simpl in *.
  split_and!; [done..|].
  intros h n Hh. rewrite Hn, Hh. simpl. eexists. split; [done|].
  pose proof (cascade_reaches _ _ _ h C) as Hreach. unfold touch.
  split_and!.
  - intros Hin. rewrite (bool_decide_eq_true_2 (h ∈ mods)) by done.
    rewrite (bool_decide_eq_true_2 (h ∈ new)); [done|].
    apply Hreach. exists h. split; [done|apply rtc_refl].
  - intros Hin Hr. rewrite (bool_decide_eq_false_2 (h ∈ mods)) by done.
    rewrite (bool_decide_eq_true_2 (h ∈ new)); [done|]. by apply Hreach.
  - intros Hr. rewrite (bool_decide_eq_false_2 (h ∈ mods)).
    2:{ intros Hin. apply Hr. exists h. split; [done|apply rtc_refl]. }
    rewrite (bool_decide_eq_false_2 (h ∈ new)); [done|].
    intros Hin. by apply Hr, Hreach.
Qed.

(** X4 (what a file change invalidates).  On a graph without dangling
    handles [onFileChange(file)] returns and leaves the indices and the
    number of nodes alone.  Every node of the set of [file] loses [info],
    [transformResult], [ssrTransformResult] and [ssrModule]; every other
    node reached from one of them along [importers] loses [ssrModule] and
    nothing else; every other node is unchanged.  For a file without an
    entry in the file index the graph is left as it is. *)
Theorem onFileChange_effect g f :
  store_closed g →
  let mods := default [] (fileToModulesMap g !! f) in
  ∃ s', onFileChange f g = Some s' ∧
    (fileToModulesMap g !! f = None → graph s' = g) ∧
    urlToModuleMap (graph s') = urlToModuleMap g ∧
    idToModuleMap (graph s') = idToModuleMap g ∧
    fileToModulesMap (graph s') = fileToModulesMap g ∧
    length (nodes (graph s')) = length (nodes g) ∧
    ∀ h n, nodes g !! h = Some n →
      ∃ n', nodes (graph s') !! h = Some n' ∧
        (h ∈ mods → n' = set_ssrModule None (clearCaches n)) ∧
        (h ∉ mods → (∃ r, r ∈ mods ∧ imported_by g r h) →
         n' = set_ssrModule None n) ∧
        (¬ (∃ r, r ∈ mods ∧ imported_by g r h) → n' = n).
Proof.
  intros (Hc & _ & Hfiles) mods. unfold onFileChange. subst mods.
  destruct (fileToModulesMap g !! f) as [mods|] eqn:Hf; simpl.
  - destruct (invalidateEach_effect mods g Hc) as (s' & E & K).
    { by apply (Hfiles f). }
    exists s'. split; [done|]. split; [done|]. exact K.
  - eexists. split; [done|]. simpl. split_and!; [done..|].
    intros h n Hh. exists n. split; [done|]. split_and!; [| |done].
    + by intros ?%elem_of_nil.
    + by intros _ (r & ?%elem_of_nil & _).
Qed.

(** X3 (what [invalidateAll] invalidates).  On a graph without dangling
    handles [invalidateAll] returns and leaves the indices and the number
    of nodes alone.  The nodes that lose [info], [transformResult],
    [ssrTransformResult] and [ssrModule] are those the id index holds; a
    node the id index does not hold (a file-only node, or a node whose id
    was registered again for a later node) keeps its [info] and its
    transform results, and loses [ssrModule] only if it is reached from a
    node of the id index along [importers]. *)
Theorem invalidateAll_effect g :
  store_closed g →
  let mods := JsMap.values (idToModuleMap g) in
  ∃ s', invalidateAll g = Some s' ∧
    urlToModuleMap (graph s') = urlToModuleMap g ∧
    idToModuleMap (graph s') = idToModuleMap g ∧
    fileToModulesMap (graph s') = fileToModulesMap g ∧
    length (nodes (graph s')) = length (nodes g) ∧
    ∀ h n, nodes g !! h = Some n →
      ∃ n', nodes (graph s') !! h = Some n' ∧
        (h ∈ mods → n' = set_ssrModule None (clearCaches n)) ∧
        (h ∉ mods → (∃ r, r ∈ mods ∧ imported_by g r h) →
         n' = set_ssrModule None n) ∧
        (¬ (∃ r, r ∈ mods ∧ imported_by g r h) → n' = n).
Proof.
  intros (Hc & Hids & _) mods. unfold invalidateAll.
  by apply invalidateEach_effect.
Qed.

(** X5 (invalidating twice).  On a graph whose importers are nodes of the
    store, [invalidateModule(mod)] called a second time, under a fresh
    [seen] set like the first, returns and changes nothing: the graph is
    the one the first call left. *)
Theorem invalidateModule_idempotent g mod' :
  importers_closed g → allocated g mod' →
  ∃ s1 s2,
    invalidateModule mod' (fresh_sweep g) = Some s1 ∧
    invalidateModule mod' (fresh_sweep (graph s1)) = Some s2 ∧
    graph s2 = graph s1.
Proof.
  intros Hc Hm.
  destruct (invalidateModule_cascade mod' (fresh_sweep g) Hc Hm)
    as (new1 & s1 & E1 & S1 & C1).
  assert (Hc1 : importers_closed (graph s1)) by by eapply sweeps_to_closed.
  assert (Hm1 : allocated (graph s1) mod')
    by by apply (sweeps_to_allocated _ _ _ _ _ S1).
  destruct (invalidateModule_cascade mod' (fresh_sweep (graph s1)) Hc1 Hm1)
    as (new2 & s2 & E2 & S2 & C2).
  exists s1, s2. split_and!; [done..|].
  assert (Hnew : ∀ h, h ∈ new1 ↔ h ∈ new2).
  { intros h. simpl in C1, C2.
    rewrite (cascade_reaches _ _ _ h C1), (cascade_reaches _ _ _ h C2).
    split; intros (r & Hr & Hrh); exists r; (split; [done|]).
    - eapply imported_by_ext; [|exact Hrh].
      intros x. by apply (sweeps_to_importersOf _ _ _ _ x S1).
    - eapply imported_by_ext; [|exact Hrh].
      intros x. symmetry. by apply (sweeps_to_importersOf _ _ _ _ x S1). }
  apply ModuleGraph_eq.
  - apply list_eq. intros h.
    rewrite (sweeps_nodes _ _ _ _ S2). simpl.
    rewrite (sweeps_nodes _ _ _ _ S1). simpl.
    destruct (nodes g !! h) as [n|]; simpl; [|done]. f_equal.
    rewrite touch_app. apply touch_ext.
    + rewrite elem_of_app, <- Hnew. tauto.
    + rewrite elem_of_app. tauto.
  - apply (sweeps_urls _ _ _ _ S2).
  - apply (sweeps_ids _ _ _ _ S2).
  - apply (sweeps_files _ _ _ _ S2).
  - apply (invalidateModule_safe _ _ _ E2).
Qed.


(** ** The sets that [updateModuleInfo] builds *)

Lemma update_id h f g :
  (∀ n, nodes g !! h = Some n → f n = n) → update h f g = g.
Proof.
  intros Hf. apply ModuleGraph_eq; try done.
  apply list_eq. intros x. rewrite lookup_update. case_decide; [|done].
  subst x. destruct (nodes g !! h) as [n|] eqn:E; [|done]. simpl.
  by rewrite Hf.
Qed.

Lemma update_ext h f f' g :
  (∀ n, nodes g !! h = Some n → f n = f' n) → update h f g = update h f' g.
Proof.
  intros Hf. apply ModuleGraph_eq; try done.
  apply list_eq. intros x. rewrite !lookup_update. case_decide; [|done].
  subst x. destruct (nodes g !! h) as [n|] eqn:E; [|done]. simpl.
  by rewrite Hf.
Qed.

Lemma update_update h f f' g :
  update h f (update h f' g) = update h (f ∘ f') g.
Proof.
  apply ModuleGraph_eq; try done.
  apply list_eq. intros x. rewrite !lookup_update. case_decide; [|done].
  by destruct (nodes g !! x).
Qed.

Lemma acceptedHmrDepsOf_update h f g x :
  acceptedHmrDepsOf (update h f g) x =
  if decide (h = x) then from_option (acceptedHmrDeps ∘ f) [] (nodes g !! x)
  else acceptedHmrDepsOf g x.
Proof.
  unfold acceptedHmrDepsOf. rewrite lookup_update. case_decide; [|done].
  by destruct (nodes g !! x).
Qed.

Lemma acceptedHmrDepsOf_update_frame h f g x :
  (∀ n, acceptedHmrDeps (f n) = acceptedHmrDeps n) →
  acceptedHmrDepsOf (update h f g) x = acceptedHmrDepsOf g x.
Proof.
  intros Hf. rewrite acceptedHmrDepsOf_update. case_decide; [|done].
  unfold acceptedHmrDepsOf. destruct (nodes g !! x); simpl; auto.
Qed.

Lemma extends_acceptedHmrDepsOf g g' h :
  extends g g' → allocated g h →
  acceptedHmrDepsOf g' h = acceptedHmrDepsOf g h.
Proof.
  intros (e & Hn & _) Hh. unfold acceptedHmrDepsOf.
  by rewrite Hn, lookup_app_l.
Qed.

Lemma JsSet_add_has s x : x ∈ s → JsSet.add s x = s.
Proof.
  intros Hx. unfold JsSet.add. by rewrite (proj2 (JsSet_has_true s x)).
Qed.

Lemma JsSet_NoDup_add s x : NoDup s → NoDup (JsSet.add s x).
Proof.
  intros Hs. unfold JsSet.add. destruct (JsSet.has s x) eqn:E; [done|].
  apply JsSet_has_false in E. apply NoDup_app. split_and!; [done| |].
  - intros y Hy ->%list_elem_of_singleton. done.
  - apply NoDup_singleton.
Qed.

Lemma JsSet_foldl_add s l :
  NoDup s →
  NoDup (foldl JsSet.add s l) ∧
  ∀ d, d ∈ foldl JsSet.add s l ↔ d ∈ s ∨ d ∈ l.
Proof.
  revert s. induction l as [|x l IH]; intros s Hs; simpl.
  - split; [done|]. intros d. rewrite elem_of_nil. tauto.
  - destruct (IH (JsSet.add s x)) as [Hnd Hin]; [by apply JsSet_NoDup_add|].
    split; [done|]. intros d.
    rewrite Hin, JsSet_elem_of_add, elem_of_cons. tauto.
Qed.

Lemma dep_of_weaken g g' ssr x d :
  urlToModuleMap g ⊆ urlToModuleMap g' →
  dep_of resolveId g ssr x = Some d → dep_of resolveId g' ssr x = Some d.
Proof.
  intros Hsub. destruct x as [u|d']; simpl; [|done].
  unfold registered. destruct (canonical resolveId u ssr); simpl; [|done].
  intros Hu. by eapply lookup_weaken.
Qed.

Lemma dep_of_ext g g' ssr x :
  urlToModuleMap g' = urlToModuleMap g →
  dep_of resolveId g' ssr x = dep_of resolveId g ssr x.
Proof. intros Hu. destruct x; simpl; unfold registered; by rewrite ?Hu. Qed.

Lemma omap_dep_of_weaken g g' ssr (l : list (string + nat)) :
  urlToModuleMap g ⊆ urlToModuleMap g' →
  (∀ x, x ∈ l → is_Some (dep_of resolveId g ssr x)) →
  omap (dep_of resolveId g' ssr) l = omap (dep_of resolveId g ssr) l.
Proof.
  intros Hsub. induction l as [|x l IH]; intros Hreg; [done|]. simpl.
  destruct (Hreg x) as [d Hd]; [by left|].
  rewrite Hd, (dep_of_weaken g g' ssr x d Hsub Hd).
  f_equal. apply IH. intros y Hy. apply Hreg. by right.
Qed.

Lemma collect_weaken g g' ssr l :
  urlToModuleMap g ⊆ urlToModuleMap g' →
  (∀ x, x ∈ l → is_Some (dep_of resolveId g ssr x)) →
  collect resolveId g' ssr l = collect resolveId g ssr l.
Proof.
  intros Hsub Hreg. unfold collect. by rewrite (omap_dep_of_weaken g g').
Qed.

Lemma collect_snoc g ssr l x d :
  dep_of resolveId g ssr x = Some d →
  collect resolveId g ssr (l ++ [x]) =
  JsSet.add (collect resolveId g ssr l) d.
Proof.
  intros Hd. unfold collect. rewrite omap_app, foldl_app. simpl.
  by rewrite Hd.
Qed.

Lemma elem_of_collect g ssr l d :
  d ∈ collect resolveId g ssr l ↔
  ∃ x, x ∈ l ∧ dep_of resolveId g ssr x = Some d.
Proof.
  unfold collect.
  rewrite (proj2 (JsSet_foldl_add [] _ (NoDup_nil_2 (A:=nat)))), elem_of_nil.
  rewrite list_elem_of_omap. tauto.
Qed.

(** What [resolveDep] returns is what the element stands for. *)
Lemma resolveDep_dep_of ssr x g d :
  (resolveDep resolveId ssr x g).1 = returned d →
  dep_of resolveId (resolveDep resolveId ssr x g).2 ssr x = Some d.
Proof.
  destruct x as [u|d']; simpl; [|by intros [= ->]].
  apply ensureEntryFromUrl_registered.
Qed.

Lemma resolveDep_hit ssr x g d :
  dep_of resolveId g ssr x = Some d →
  resolveDep resolveId ssr x g = (returned d, g).
Proof.
  destruct x as [u|d']; simpl; [|by intros [= ->]].
  unfold registered, canonical.
  destruct (resolveUrl resolveId u ssr) as [[[c rid] m]|e] eqn:Hr;
    simpl; [|done].
  intros Hu. by rewrite (ensureEntryFromUrl_hit _ _ _ _ _ _ _ Hr Hu).
Qed.

Lemma forEach_cons {X} (body : X → M unit) x l g :
  forEach body (x :: l) g =
  match body x g with
  | (returned _, g') => forEach body l g'
  | (thrown e, g') => (thrown e, g')
  end.
Proof. done. Qed.

Lemma forEachAcc_cons {X A} (body : A → X → M A) x l a g :
  forEachAcc body (x :: l) a g =
  match body a x g with
  | (returned a', g') => forEachAcc body l a' g'
  | (thrown e, g') => (thrown e, g')
  end.
Proof. done. Qed.

(** The three loops of [updateModuleInfo], one after the other; a loop
    that throws ends the call. *)
Lemma updateModuleInfo_unfold mod' imported accepted isSelfAccepting' ssr g :
  updateModuleInfo resolveId mod' imported accepted isSelfAccepting' ssr g =
  let g0 := update mod' (set_isSelfAccepting isSelfAccepting') g in
  let g1 := update mod' (set_importedModules []) g0 in
  match forEach (addImport resolveId mod' ssr) imported g1 with
  | (thrown e, g2) => (thrown e, g2)
  | (returned _, g2) =>
      match forEachAcc (dropImporter mod') (importedModulesOf g0 mod') None
              g2 with
      | (thrown e, g3) => (thrown e, g3)
      | (returned acc, g3) =>
          match forEach (acceptDep resolveId mod' ssr) accepted
                  (update mod' (set_acceptedHmrDeps []) g3) with
          | (thrown e, g4) => (thrown e, g4)
          | (returned _, g4) => (returned acc, g4)
          end
      end
  end.
Proof.
  unfold updateModuleInfo, mbind, M_bind, modify, gets, mret, M_ret. simpl.
  destruct (forEach _ imported _) as [[[]|e1] g2]; [|done]. simpl.
  destruct (forEachAcc _ _ _ g2) as [[acc|e2] g3]; [|done]. simpl.
  by destruct (forEach _ accepted _) as [[[]|e3] g4].
Qed.


Lemma collect_ext g g' ssr l :
  urlToModuleMap g' = urlToModuleMap g →
  collect resolveId g' ssr l = collect resolveId g ssr l.
Proof.
  intros Hu. unfold collect. f_equal.
  induction l as [|x l IH]; [done|]. csimpl.
  by rewrite (dep_of_ext g g' ssr x Hu), IH.
Qed.

Lemma addImport_collect mod' flag ssr (done : list (string + nat)) x :
  let I done g :=
    allocated g mod' ∧
    (∀ n, nodes g !! mod' = Some n → isSelfAccepting n = flag) ∧
    (∀ y, y ∈ done → is_Some (dep_of resolveId g ssr y)) ∧
    importedModulesOf g mod' = collect resolveId g ssr done in
  hoare (I done) (addImport resolveId mod' ssr x) (λ _, I (done ++ [x])).
Proof.
  intros I g (Hm & Hflag & Hreg & Himp). rewrite addImport_unfold.
  assert (Hext := resolveDep_extends ssr x g).
  assert (Hd := resolveDep_dep_of ssr x g).
  destruct (resolveDep resolveId ssr x g) as [[d|e] g1]; [|done].
  simpl in *. specialize (Hd d eq_refl).
  assert (Hsub : urlToModuleMap g ⊆ urlToModuleMap g1)
    by by destruct Hext as (? & _ & _ & ?).
  assert (Hm1 : allocated g1 mod') by by eapply extends_allocated.
  set (g2 := update d _ g1). set (g3 := update mod' _ g2).
  assert (Hu : urlToModuleMap g3 = urlToModuleMap g1) by done.
  split_and!.
  - by do 2 apply allocated_update.
  - intros n. unfold g3, g2. rewrite !lookup_update.
    destruct Hext as (e & Hn & _). rewrite Hn, lookup_app_l by done.
    destruct (nodes g !! mod') as [n0|] eqn:E; [|by repeat case_decide].
    specialize (Hflag n0 eq_refl).
    repeat case_decide; simpl; intros [= <-]; done.
  - intros y Hy. rewrite (dep_of_ext g1 g3 ssr y Hu).
    apply elem_of_app in Hy as [Hy|Hy].
    + destruct (Hreg y Hy) as [dy Hdy]. exists dy.
      by apply (dep_of_weaken g g1).
    + apply list_elem_of_singleton in Hy. subst y. by eexists.
  - unfold g3.
    rewrite (importedModulesOf_update_importedModules mod'
               (λ s, JsSet.add s d)) by (left; by apply allocated_update).
    rewrite decide_True by done. unfold g2.
    rewrite importedModulesOf_update_frame by done.
    rewrite (extends_importedModulesOf g g1) by done. rewrite Himp.
    fold g2. fold g3. rewrite (collect_ext g1 g3 ssr _ Hu).
    rewrite (collect_snoc g1 ssr done x d Hd).
    by rewrite (collect_weaken g g1).
Qed.

Lemma acceptDep_collect mod' ssr (P : ModuleGraph → Prop)
    (done : list (string + nat)) x :
  (∀ g g', P g → extends g g' → P g') →
  (∀ g F, P g → P (update mod' (λ n, set_acceptedHmrDeps (F n) n) g)) →
  let I done g :=
    allocated g mod' ∧ P g ∧
    (∀ y, y ∈ done → is_Some (dep_of resolveId g ssr y)) ∧
    acceptedHmrDepsOf g mod' = collect resolveId g ssr done in
  hoare (I done) (acceptDep resolveId mod' ssr x) (λ _, I (done ++ [x])).
Proof.
  intros HPe HPu I g (Hm & HP & Hreg & Hacc). rewrite acceptDep_unfold.
  assert (Hext := resolveDep_extends ssr x g).
  assert (Hd := resolveDep_dep_of ssr x g).
  destruct (resolveDep resolveId ssr x g) as [[d|e] g1]; [|done].
  simpl in *. specialize (Hd d eq_refl).
  assert (Hsub : urlToModuleMap g ⊆ urlToModuleMap g1)
    by by destruct Hext as (? & _ & _ & ?).
  assert (Hm1 : allocated g1 mod') by by eapply extends_allocated.
  set (g2 := update mod' _ g1).
  assert (Hu : urlToModuleMap g2 = urlToModuleMap g1) by done.
  split_and!.
  - by apply allocated_update.
  - apply (HPu g1 (λ n, JsSet.add (acceptedHmrDeps n) d)). by eapply HPe.
  - intros y Hy. rewrite (dep_of_ext g1 g2 ssr y Hu).
    apply elem_of_app in Hy as [Hy|Hy].
    + destruct (Hreg y Hy) as [dy Hdy]. exists dy.
      by apply (dep_of_weaken g g1).
    + apply list_elem_of_singleton in Hy. subst y. by eexists.
  - unfold g2. rewrite acceptedHmrDepsOf_update, decide_True by done.
    apply allocated_lookup in Hm1 as [n1 Hn1]. rewrite Hn1. simpl.
    assert (E : acceptedHmrDeps n1 = acceptedHmrDepsOf g mod').
    { rewrite <- (extends_acceptedHmrDepsOf g g1) by done.
      unfold acceptedHmrDepsOf. by rewrite Hn1. }
    rewrite E, Hacc. fold g2. rewrite (collect_ext g1 g2 ssr _ Hu).
    rewrite (collect_snoc g1 ssr done x d Hd).
    by rewrite (collect_weaken g g1).
Qed.

Lemma dropImporter_keeps mod' (P : ModuleGraph → Prop) acc x :
  (∀ g F d, P g → P (update d (λ n, set_importers (F n) n) g)) →
  hoare P (dropImporter mod' acc x) (λ _, P).
Proof.
  intros HP g Hg. rewrite dropImporter_unfold.
  destruct (JsSet.has _ x); simpl; [done|].
  by apply (HP g (λ n, JsSet.delete (importers n) mod')).
Qed.

(** An [updateModuleInfo] that returns leaves [mod] settled. *)
Lemma updateModuleInfo_settles mod' imported accepted flag ssr g :
  allocated g mod' →
  let r := updateModuleInfo resolveId mod' imported accepted flag ssr g in
  is_returned r.1 →
  allocated r.2 mod' ∧ settled resolveId mod' imported accepted flag ssr r.2.
Proof.
  intros Hm r. subst r. rewrite updateModuleInfo_unfold. cbv zeta.
  set (g0 := update mod' (set_isSelfAccepting flag) g).
  set (g1 := update mod' (set_importedModules []) g0).
  (* the first loop *)
  set (I1 := λ (done : list (string + nat)) g,
    allocated g mod' ∧
    (∀ n, nodes g !! mod' = Some n → isSelfAccepting n = flag) ∧
    (∀ y, y ∈ done → is_Some (dep_of resolveId g ssr y)) ∧
    importedModulesOf g mod' = collect resolveId g ssr done).
  assert (H1 : I1 [] g1).
  { split_and!.
    - by do 2 apply allocated_update.
    - intros n. unfold g1, g0. rewrite !lookup_update, !decide_True by done.
      destruct (nodes g !! mod'); simpl; [|done]. by intros [= <-].
    - by intros y ?%elem_of_nil.
    - unfold g1.
      rewrite (importedModulesOf_update_importedModules mod' (λ _, []))
        by by right.
      by rewrite decide_True. }
  apply (hoare_forEach_prefix (addImport resolveId mod' ssr) imported I1
           (λ _, True)) in H1.
  2:{ intros done x rest _. apply (addImport_collect mod' flag ssr done x). }
  destruct (forEach (addImport resolveId mod' ssr) imported g1)
    as [[[]|e1] g2]; [|done].
  (* the second loop *)
  set (P := λ g, allocated g mod' ∧
    (∀ n, nodes g !! mod' = Some n → isSelfAccepting n = flag) ∧
    (∀ y, y ∈ imported → is_Some (dep_of resolveId g ssr y)) ∧
    importedModulesOf g mod' = collect resolveId g ssr imported).
  assert (HPu : ∀ ga d (f : ModuleNode → ModuleNode),
    (∀ n, isSelfAccepting (f n) = isSelfAccepting n ∧
          importedModules (f n) = importedModules n) →
    P ga → P (update d f ga)).
  { intros ga d f Hf (K1 & K2 & K3 & K4). split_and!.
    - by apply allocated_update.
    - intros n. rewrite lookup_update. case_decide; [|by apply K2].
      destruct (nodes ga !! mod') as [n0|] eqn:E; [|done]. simpl.
      intros [= <-]. rewrite (proj1 (Hf n0)). by apply (K2 n0).
    - intros y Hy. rewrite (dep_of_ext ga) by done. by apply K3.
    - rewrite importedModulesOf_update_frame by apply Hf.
      by rewrite (collect_ext ga). }
  assert (H2 : P g2) by exact H1.
  apply (hoare_forEachAcc (dropImporter mod') (importedModulesOf g0 mod')
           None (λ _ _ _, P) (λ _, True)) in H2.
  2:{ intros done x rest acc _. apply dropImporter_keeps.
      intros g3 F d HP. by apply HPu. }
  destruct (forEachAcc (dropImporter mod') _ None g2) as [[acc|e2] g3];
    [|done].
  (* the third loop *)
  set (g4 := update mod' (set_acceptedHmrDeps []) g3).
  set (I3 := λ (done : list (string + nat)) g,
    allocated g mod' ∧ P g ∧
    (∀ y, y ∈ done → is_Some (dep_of resolveId g ssr y)) ∧
    acceptedHmrDepsOf g mod' = collect resolveId g ssr done).
  assert (H3 : I3 [] g4).
  { split_and!.
    - apply allocated_update, H2.
    - by apply HPu.
    - by intros y ?%elem_of_nil.
    - unfold g4. rewrite acceptedHmrDepsOf_update, decide_True by done.
      by destruct (nodes g3 !! mod'). }
  apply (hoare_forEach_prefix (acceptDep resolveId mod' ssr) accepted I3
           (λ _, True)) in H3.
  2:{ intros done x rest _. apply (acceptDep_collect mod' ssr P done x).
      - intros ga gb (L0 & L1 & L2 & L3) Hext.
        assert (Hsub : urlToModuleMap ga ⊆ urlToModuleMap gb)
          by by destruct Hext as (? & _ & _ & ?).
        split_and!.
        + by eapply extends_allocated.
        + intros n Hn. destruct Hext as (e & Hnodes & _).
          rewrite Hnodes, lookup_app_l in Hn by done. by apply L1.
        + intros y Hy. destruct (L2 y Hy) as [d Hd]. exists d.
          by apply (dep_of_weaken ga gb).
        + rewrite (extends_importedModulesOf ga gb) by done. rewrite L3.
          symmetry. by apply collect_weaken.
      - intros ga F HP. by apply HPu. }
  destruct (forEach (acceptDep resolveId mod' ssr) accepted g4)
    as [[[]|e3] g5]; [|done].
  intros _. cbn [fst snd].
  destruct H3 as (M1 & (_ & M2 & M3 & M4) & M5 & M6).
  split; [done|]. split; [|done..].
  intros y [Hy|Hy]%elem_of_app; auto.
Qed.

(** On a settled node the three loops of [updateModuleInfo] find
    everything in place. *)
Lemma forEach_addImport_settled mod' ssr g (rest done : list (string + nat)) :
  (∀ x, x ∈ rest → is_Some (dep_of resolveId g ssr x)) →
  (∀ x d, x ∈ rest → dep_of resolveId g ssr x = Some d →
     mod' ∈ importersOf g d) →
  forEach (addImport resolveId mod' ssr) rest
    (update mod' (set_importedModules (collect resolveId g ssr done)) g) =
  (returned (),
   update mod'
     (set_importedModules (collect resolveId g ssr (done ++ rest))) g).
Proof.
  revert done. induction rest as [|x rest IH]; intros done Hreg Himp.
  - by rewrite app_nil_r.
  - destruct (Hreg x) as [d Hd]; [by left|].
    set (S0 := collect resolveId g ssr done).
    set (G := update mod' (set_importedModules S0) g).
    assert (Hstep : addImport resolveId mod' ssr x G =
              (returned (),
               update mod'
                 (set_importedModules
                    (collect resolveId g ssr (done ++ [x]))) g)).
    { rewrite addImport_unfold.
      rewrite (resolveDep_hit ssr x G d) by by rewrite (dep_of_ext g G).
      f_equal.
      rewrite (update_id d).
      2:{ intros n Hn.
          assert (Hin : mod' ∈ importers n).
          { pose proof (Himp x d (list_elem_of_here _ _) Hd) as Hi.
            rewrite <- (importersOf_update_frame mod'
              (set_importedModules S0) g d) in Hi by done.
            fold G in Hi. unfold importersOf in Hi. by rewrite Hn in Hi. }
          rewrite (JsSet_add_has _ _ Hin). by destruct n. }
      unfold G. rewrite update_update.
      rewrite (collect_snoc g ssr done x d Hd). by apply update_ext. }
    rewrite forEach_cons, Hstep, IH.
    + by rewrite <- app_assoc.
    + intros y Hy. apply Hreg. by right.
    + intros y dy Hy. apply Himp. by right.
Qed.

Lemma forEach_acceptDep_settled mod' ssr g (rest done : list (string + nat)) :
  (∀ x, x ∈ rest → is_Some (dep_of resolveId g ssr x)) →
  forEach (acceptDep resolveId mod' ssr) rest
    (update mod' (set_acceptedHmrDeps (collect resolveId g ssr done)) g) =
  (returned (),
   update mod'
     (set_acceptedHmrDeps (collect resolveId g ssr (done ++ rest))) g).
Proof.
  revert done. induction rest as [|x rest IH]; intros done Hreg.
  - by rewrite app_nil_r.
  - destruct (Hreg x) as [d Hd]; [by left|].
    set (S0 := collect resolveId g ssr done).
    set (G := update mod' (set_acceptedHmrDeps S0) g).
    assert (Hstep : acceptDep resolveId mod' ssr x G =
              (returned (),
               update mod'
                 (set_acceptedHmrDeps
                    (collect resolveId g ssr (done ++ [x]))) g)).
    { rewrite acceptDep_unfold.
      rewrite (resolveDep_hit ssr x G d) by by rewrite (dep_of_ext g G).
      f_equal.
      unfold G. rewrite update_update.
      rewrite (collect_snoc g ssr done x d Hd). by apply update_ext. }
    rewrite forEach_cons, Hstep, IH.
    + by rewrite <- app_assoc.
    + intros y Hy. apply Hreg. by right.
Qed.

Lemma forEachAcc_dropImporter_settled mod' g l acc :
  (∀ x, x ∈ l → x ∈ importedModulesOf g mod') →
  forEachAcc (dropImporter mod') l acc g = (returned acc, g).
Proof.
  induction l as [|x l IH]; intros Hl; [done|].
  rewrite forEachAcc_cons, dropImporter_unfold.
  rewrite (proj2 (JsSet_has_true _ x)) by (apply Hl; by left).
  apply IH. intros y Hy. apply Hl. by right.
Qed.

Lemma settled_fixpoint mod' imported accepted flag ssr g :
  settled resolveId mod' imported accepted flag ssr g →
  (∀ d, d ∈ importedModulesOf g mod' → mod' ∈ importersOf g d) →
  updateModuleInfo resolveId mod' imported accepted flag ssr g =
  (returned None, g).
Proof.
  intros [Hdeps Himp Hacc Hflag] Hsym. rewrite updateModuleInfo_unfold.
  assert (E0 : update mod' (set_isSelfAccepting flag) g = g).
  { apply update_id. intros n Hn. specialize (Hflag n Hn).
    destruct n. simpl in *. by subst. }
  rewrite E0. cbv zeta.
  assert (E2 : (forEach (addImport resolveId mod' ssr) imported
                  (update mod' (set_importedModules []) g)) =
               (returned (), g)).
  { pose proof (forEach_addImport_settled mod' ssr g imported []) as E.
    change (collect resolveId g ssr []) with (@nil nat) in E.
    change ([] ++ imported) with imported in E. rewrite E.
    - f_equal. apply update_id. intros n Hn. simpl. rewrite <- Himp.
      unfold importedModulesOf. rewrite Hn. simpl. by destruct n.
    - intros x Hx. apply Hdeps, elem_of_app. by left.
    - intros x d Hx Hd. apply Hsym. rewrite Himp.
      apply elem_of_collect. by exists x. }
  rewrite E2.
  rewrite forEachAcc_dropImporter_settled by done.
  pose proof (forEach_acceptDep_settled mod' ssr g accepted []) as E.
  change (collect resolveId g ssr []) with (@nil nat) in E.
  change ([] ++ accepted) with accepted in E. rewrite E.
  - f_equal. apply update_id. intros n Hn. simpl. rewrite <- Hacc.
    unfold acceptedHmrDepsOf. rewrite Hn. simpl. by destruct n.
  - intros x Hx. apply Hdeps, elem_of_app. by right.
Qed.

(** X6 (the sets [updateModuleInfo] builds).  Let
    [updateModuleInfo(mod, imported, accepted, flag, ssr)] be called on a
    node of the store with sets whose urls [resolveUrl] returns for.  The
    call returns, and afterwards: every element of the two sets stands for
    a node (a url is registered); [mod.isSelfAccepting] is the flag;
    [mod.importedModules] holds exactly the nodes the elements of
    [imported] stand for, each once, in the order of their first
    occurrence, and [mod.acceptedHmrDeps] likewise for [accepted]. *)
Theorem updateModuleInfo_sets g mod' imported accepted flag ssr :
  allocated g mod' →
  Forall (resolves resolveId ssr) (imported ++ accepted) →
  let r := updateModuleInfo resolveId mod' imported accepted flag ssr g in
  let g' := r.2 in
  (∃ o, r.1 = returned o) ∧
  (∃ n, nodes g' !! mod' = Some n ∧ isSelfAccepting n = flag ∧
        importedModules n = collect resolveId g' ssr imported ∧
        acceptedHmrDeps n = collect resolveId g' ssr accepted) ∧
  (∀ x, x ∈ imported ++ accepted → is_Some (dep_of resolveId g' ssr x)) ∧
  (∀ d, d ∈ importedModulesOf g' mod' ↔
        ∃ x, x ∈ imported ∧ dep_of resolveId g' ssr x = Some d) ∧
  (∀ d, d ∈ acceptedHmrDepsOf g' mod' ↔
        ∃ x, x ∈ accepted ∧ dep_of resolveId g' ssr x = Some d) ∧
  NoDup (importedModulesOf g' mod') ∧ NoDup (acceptedHmrDepsOf g' mod').
Proof.
  intros Hm Hres r g'.
  apply (updateModuleInfo_returns mod' imported accepted flag ssr g) in Hres.
  fold r in Hres.
  destruct (updateModuleInfo_settles mod' imported accepted flag ssr g Hm
              Hres) as [Hm' [Hdeps Himp Hacc Hflag]].
  fold r in Hm', Hdeps, Himp, Hacc, Hflag.
  fold g' in Hm', Hdeps, Himp, Hacc, Hflag.
  split_and!.
  - destruct r.1 as [o|e]; [by exists o|done].
  - apply allocated_lookup in Hm' as [n Hn]. exists n.
    unfold importedModulesOf in Himp. unfold acceptedHmrDepsOf in Hacc.
    rewrite Hn in Himp, Hacc. split_and!; [done|by apply Hflag|done..].
  - done.
  - intros d. rewrite Himp. apply elem_of_collect.
  - intros d. rewrite Hacc. apply elem_of_collect.
  - rewrite Himp. apply JsSet_foldl_add, NoDup_nil_2.
  - rewrite Hacc. apply JsSet_foldl_add, NoDup_nil_2.
Qed.

(** X8 ([updateModuleInfo] twice).  On a graph a server can hold, let a
    well-formed [updateModuleInfo] be called with sets whose urls
    [resolveUrl] returns for, so that it returns.  Called a second time
    with the same arguments it finds everything in place: it returns
    [undefined] and leaves the graph exactly as the first call left it. *)
Theorem updateModuleInfo_idempotent g mod' imported accepted flag ssr :
  reachable resolveId g →
  call_ok g (UpdateModuleInfo mod' imported accepted flag ssr) →
  Forall (resolves resolveId ssr) (imported ++ accepted) →
  let r := updateModuleInfo resolveId mod' imported accepted flag ssr g in
  (∃ o, r.1 = returned o) ∧
  updateModuleInfo resolveId mod' imported accepted flag ssr r.2 =
  (returned None, r.2).
Proof.
  intros Hr Hok Hres r.
  apply (updateModuleInfo_returns mod' imported accepted flag ssr g) in Hres.
  fold r in Hres.
  assert (Hm : allocated g mod') by by destruct Hok.
  destruct (updateModuleInfo_settles mod' imported accepted flag ssr g Hm
              Hres) as [_ Hset].
  fold r in Hset. split.
  { destruct r.1 as [o|e]; [by exists o|done]. }
  apply settled_fixpoint; [done|].
  assert (Hr' : reachable resolveId r.2).
  { by apply (reachable_step resolveId g
                (UpdateModuleInfo mod' imported accepted flag ssr)). }
  apply reachable_graph_inv in Hr' as (Hs & _). intros d Hd. by apply Hs.
Qed.


(** ** Running calls *)

Lemma call_okb_spec g c : call_okb g c = true → call_ok g c.
Proof.
  assert (Hoks : ∀ l : list (string + nat),
    forallb (λ x, match x with
                  | inr d => bool_decide (d < length (nodes g))
                  | inl _ => true
                  end) l = true →
    ∀ d, inr d ∈ l → allocated g d).
  { intros l Hl d Hd. rewrite forallb_forall in Hl.
    apply list_elem_of_In in Hd. apply Hl in Hd.
    by apply bool_decide_eq_true in Hd. }
  destruct c; simpl; try done.
  - rewrite !andb_true_iff, bool_decide_eq_true.
    intros [[Hm Hi] Ha]. split_and!; [done|by apply Hoks..].
  - by rewrite bool_decide_eq_true.
Qed.

Lemma reachable_run cs g g' :
  reachable resolveId g → run resolveId cs g = Some g' →
  reachable resolveId g'.
Proof.
  revert g. induction cs as [|c cs IH]; intros g Hg; simpl.
  - by intros [= <-].
  - destruct (call_okb g c) eqn:Hok; [|done].
    destruct (step resolveId c g) as [g1|] eqn:Hstep; [|done]. simpl.
    apply IH. eapply reachable_step; [done|by apply call_okb_spec|done].
Qed.

Lemma run_without_throw_run cs g :
  is_Some (run_without_throw resolveId cs g) →
  run_without_throw resolveId cs g = run resolveId cs g.
Proof.
  revert g. induction cs as [|c cs IH]; intros g; simpl; [done|].
  destruct (call_okb g c); simpl; [|by intros [? ?]].
  case_bool_decide; simpl; [|by intros [? ?]].
  destruct (step resolveId c g) as [g1|]; simpl; [apply IH|done].
Qed.

Lemma reachable_without_throw_run cs g g' :
  reachable_without_throw resolveId g →
  run_without_throw resolveId cs g = Some g' →
  reachable_without_throw resolveId g'.
Proof.
  revert g. induction cs as [|c cs IH]; intros g Hg; simpl.
  - by intros [= <-].
  - destruct (call_okb g c) eqn:Hok; [|done]. simpl.
    case_bool_decide as Hc; [|done].
    destruct (step resolveId c g) as [g1|] eqn:Hstep; [|done]. simpl.
    apply IH. eapply quiet_step; [done|by apply call_okb_spec|done..].
Qed.


End Properties.


(** ** The update channel *)

(** C6, as amended (buffered error).  With no client connected,
    [send] of an error payload stores it in [bufferedError], whatever was
    there, and delivers nothing.  The next client to connect is sent the
    [connected] message and then the buffered error, and the buffer is
    cleared.  A second client is sent the [connected] message only. *)
Theorem buffered_error_delivery (stringify : Ws.HMRPayload → string)
    (w : Ws.WebSocketServer) (err : Ws.ErrorInfo) :
  Ws.clients w = [] →
  let w1 := Ws.send stringify (Ws.Error err) w in
  let w2 := Ws.connection stringify w1 in
  let w3 := Ws.connection stringify w2 in
  Ws.clients w1 = [] ∧
  Ws.bufferedError w1 = Some (Ws.Error err) ∧
  Ws.clients w2 =
    [{| Ws.readyState := 1;
        Ws.received := [stringify Ws.Connected; stringify (Ws.Error err)] |}] ∧
  Ws.bufferedError w2 = None ∧
  Ws.clients w3 =
    Ws.clients w2 ++
    [{| Ws.readyState := 1; Ws.received := [stringify Ws.Connected] |}] ∧
  Ws.bufferedError w3 = None.
Proof.
  intros Hw. unfold Ws.send. simpl. rewrite Hw. simpl.
  unfold Ws.connection. simpl. done.
Qed.


(** ** More on the update channel *)

Section ChannelProperties.

Variable stringify : Ws.HMRPayload → string.

Lemma send_length p w :
  length (Ws.clients (Ws.send stringify p w)) = length (Ws.clients w).
Proof.
  unfold Ws.send. destruct (_ && _); simpl; [done|]. apply length_fmap.
Qed.

(** X11 (what [send] drops).  A payload that is not an error, sent while
    no client is connected, is neither delivered nor kept: the server is
    left as it is.  The same holds for an error payload sent while there
    are clients but none of them is open ([readyState] 1): the error is
    buffered only when the set of clients is empty.  A client that
    connects afterwards is sent nothing of the payload. *)
Theorem send_dropped w p :
  (Ws.is_error p = false ∧ Ws.clients w = []) ∨
  (Ws.clients w ≠ [] ∧ Forall (λ c, Ws.readyState c ≠ 1) (Ws.clients w)) →
  Ws.send stringify p w = w ∧
  Ws.connection stringify (Ws.send stringify p w) = Ws.connection stringify w.
Proof.
  intros Hcase.
  assert (E : Ws.send stringify p w = w); [|by rewrite E].
  unfold Ws.send. destruct Hcase as [[Hp Hw]|[Hw Hclosed]].
  - rewrite Hp, Hw. simpl. destruct w. simpl in *. by subst.
  - rewrite (bool_decide_eq_false_2 (length (Ws.clients w) = 0)).
    2:{ by destruct (Ws.clients w). }
    rewrite andb_false_r. destruct w as [cs b]. simpl in *. f_equal.
    clear Hw. induction Hclosed as [|c cs Hc Hcs IH]; [done|]. csimpl.
    rewrite IH. by rewrite bool_decide_eq_false_2.
Qed.

(** X12 (the last error is the one kept).  With no client connected, of
    two error payloads sent one after the other only the second is kept:
    the next client to connect is sent the [connected] message and the
    second error, and the first error is never delivered. *)
Theorem last_error_wins w e1 e2 :
  Ws.clients w = [] →
  let w2 := Ws.send stringify (Ws.Error e2)
              (Ws.send stringify (Ws.Error e1) w) in
  Ws.bufferedError w2 = Some (Ws.Error e2) ∧
  Ws.clients (Ws.connection stringify w2) =
    [{| Ws.readyState := 1;
        Ws.received := [stringify Ws.Connected;
                        stringify (Ws.Error e2)] |}] ∧
  Ws.bufferedError (Ws.connection stringify w2) = None.
Proof.
  intros Hw. unfold Ws.send, Ws.connection. simpl.
  repeat (rewrite Hw; simpl). done.
Qed.

(** X13 (delivery in order).  While there is a client, every payload
    sent, errors included, goes to each client that is open, in the order
    of the calls, and to no other client; the number of clients and the
    buffered error are left alone. *)
Theorem sendAll_in_order ps w :
  Ws.clients w ≠ [] →
  let w' := Ws.sendAll stringify ps w in
  Ws.bufferedError w' = Ws.bufferedError w ∧
  Ws.clients w' =
    (λ c, if bool_decide (Ws.readyState c = 1)
          then {| Ws.readyState := Ws.readyState c;
                  Ws.received := Ws.received c ++ (stringify <$> ps) |}
          else c) <$> Ws.clients w.
Proof.
  revert w. induction ps as [|p ps IH]; intros w Hw; simpl.
  - split; [done|]. rewrite <- (list_fmap_id (Ws.clients w)) at 1.
    apply list_fmap_ext. intros i c _. simpl.
    case_bool_decide; [|done]. destruct c. simpl. by rewrite app_nil_r.
  - assert (E : Ws.send stringify p w =
              {| Ws.clients :=
                   (λ c, if bool_decide (Ws.readyState c = 1)
                         then Ws.socket_send (stringify p) c else c)
                   <$> Ws.clients w;
                 Ws.bufferedError := Ws.bufferedError w |}).
    { unfold Ws.send.
      rewrite (bool_decide_eq_false_2 (length (Ws.clients w) = 0)).
      - by rewrite andb_false_r.
      - by destruct (Ws.clients w). }
    destruct (IH (Ws.send stringify p w)) as [Hb Hc].
    { intros Hnil. apply Hw. apply (f_equal length) in Hnil.
      rewrite send_length in Hnil. by destruct (Ws.clients w). }
    unfold Ws.sendAll in *. simpl. rewrite Hb, Hc, E. simpl.
    split; [done|]. rewrite <- list_fmap_compose.
    apply list_fmap_ext. intros i c _. simpl.
    destruct (bool_decide (Ws.readyState c = 1)) eqn:H1; simpl;
      rewrite H1; [|done].
    by rewrite <- app_assoc.
Qed.

End ChannelProperties.


(** ** Command-line options *)

Lemma cleanOptions_lookup {V} (options : gmap string V) k :
  Cli.cleanOptions options !! k =
  if bool_decide (k ∈ Cli.GlobalCLIOptions) then None else options !! k.
Proof.
  unfold Cli.cleanOptions. cbn zeta. rewrite !lookup_delete.
  case_bool_decide as Hin.
  - unfold Cli.GlobalCLIOptions in Hin.
    rewrite !elem_of_cons, elem_of_nil in Hin.
    repeat (destruct Hin as [->|Hin]; [by repeat case_decide|]). done.
  - repeat (case_decide;
      [exfalso; apply Hin; subst k; apply (bool_decide_unpack _);
       vm_compute; exact I|]).
    done.
Qed.

(** X14 ([cleanOptions]).  The object [cleanOptions] returns has none of
    the global flags ([--], [c], [config], [base], [l], [logLevel],
    [clearScreen], [d], [debug], [f], [filter], [m], [mode]) and every
    other property of the options with its value; cleaning a second time
    changes nothing. *)
Theorem cleanOptions_spec {V} (options : gmap string V) :
  (∀ k, k ∈ Cli.GlobalCLIOptions → Cli.cleanOptions options !! k = None) ∧
  (∀ k, k ∉ Cli.GlobalCLIOptions →
        Cli.cleanOptions options !! k = options !! k) ∧
  Cli.cleanOptions options ⊆ options ∧
  Cli.cleanOptions (Cli.cleanOptions options) = Cli.cleanOptions options.
Proof.
  split_and!.
  - intros k Hk. by rewrite cleanOptions_lookup, bool_decide_eq_true_2.
  - intros k Hk. by rewrite cleanOptions_lookup, bool_decide_eq_false_2.
  - apply map_subseteq_spec. intros k v. rewrite cleanOptions_lookup.
    by case_bool_decide.
  - apply map_eq. intros k. rewrite !cleanOptions_lookup.
    by case_bool_decide.
Qed.


(** ** The logger *)

Section LoggerProperties.

Variables cyan yellow red bold dim : string → string.

Local Abbreviation output := (Logger.output cyan yellow red bold dim).
Local Abbreviation format := (Logger.format cyan yellow red bold dim).
Local Abbreviation call := (Logger.call cyan yellow red bold dim).
Local Abbreviation calls := (Logger.calls cyan yellow red bold dim).
Local Abbreviation log_warnOnce := (Logger.log_warnOnce cyan yellow red bold dim).
Local Abbreviation log_error := (Logger.log_error cyan yellow red bold dim).

Lemma record_error_closure o l :
  let l' := Logger.record_error o l in
  Logger.thresh l' = Logger.thresh l ∧ Logger.prefix l' = Logger.prefix l ∧
  Logger.canClearScreen l' = Logger.canClearScreen l ∧
  Logger.warnedMessages l' = Logger.warnedMessages l ∧
  Logger.hasWarned l' = Logger.hasWarned l ∧
  (∀ x, x ∈ Logger.loggedErrors l → x ∈ Logger.loggedErrors l') ∧
  (∀ x, Logger.err o = Some x → x ∈ Logger.loggedErrors l').
Proof.
  unfold Logger.record_error. destruct (Logger.err o) as [x|]; simpl.
  - split_and!; try done.
    + intros y Hy. case_bool_decide; [done|]. apply elem_of_app. by left.
    + intros y [= <-]. case_bool_decide; [done|]. apply elem_of_app.
      right. by left.
  - by split_and!.
Qed.

(** The closure after [output]: untouched below the level, with the
    error recorded otherwise. *)
Lemma output_logger e t msg o l w :
  (output e t msg o (l, w)).1 =
  if (Logger.LogLevels (Logger.level t) <=? Logger.thresh l)%Z
  then Logger.record_error o l else l.
Proof.
  unfold Logger.output. destruct (_ <=? _)%Z; [|done].
  destruct (Logger.canClearScreen l); [|done]. by destruct (_ && _).
Qed.

Lemma output_closure e t msg o l w :
  let l' := (output e t msg o (l, w)).1 in
  Logger.thresh l' = Logger.thresh l ∧ Logger.prefix l' = Logger.prefix l ∧
  Logger.canClearScreen l' = Logger.canClearScreen l ∧
  Logger.warnedMessages l' = Logger.warnedMessages l ∧
  Logger.hasWarned l' = Logger.hasWarned l ∧
  (∀ x, x ∈ Logger.loggedErrors l → x ∈ Logger.loggedErrors l').
Proof.
  cbv zeta. rewrite output_logger. destruct (_ <=? _)%Z; [|done].
  destruct (record_error_closure o l) as (?&?&?&?&?&?&_). by split_and!.
Qed.

Lemma call_closure ec l w :
  let l' := (call ec (l, w)).1 in
  Logger.thresh l' = Logger.thresh l ∧ Logger.prefix l' = Logger.prefix l ∧
  Logger.canClearScreen l' = Logger.canClearScreen l ∧
  (∀ m, m ∈ Logger.warnedMessages l → m ∈ Logger.warnedMessages l') ∧
  (∀ x, x ∈ Logger.loggedErrors l → x ∈ Logger.loggedErrors l').
Proof.
  assert (Hout : ∀ e t msg o l0,
    Logger.thresh l0 = Logger.thresh l → Logger.prefix l0 = Logger.prefix l →
    Logger.canClearScreen l0 = Logger.canClearScreen l →
    Logger.warnedMessages l0 = Logger.warnedMessages l →
    Logger.loggedErrors l0 = Logger.loggedErrors l →
    let l' := (output e t msg o (l0, w)).1 in
    Logger.thresh l' = Logger.thresh l ∧ Logger.prefix l' = Logger.prefix l ∧
    Logger.canClearScreen l' = Logger.canClearScreen l ∧
    Logger.warnedMessages l' = Logger.warnedMessages l ∧
    (∀ x, x ∈ Logger.loggedErrors l → x ∈ Logger.loggedErrors l')).
  { intros e t msg o l0 E1 E2 E3 E4 E5 l'. subst l'.
    destruct (output_closure e t msg o l0 w) as (F1&F2&F3&F4&_&F6).
    rewrite <- E5. split_and!; congruence || done. }
  destruct ec as [e [msg o|msg o|msg o|msg o|t]]; unfold Logger.call;
    cbn [fst snd].
  - destruct (Hout e Logger.info msg
                (from_option Logger.plain Logger.no_options o) l)
      as (?&?&?&Hw&?); try done.
    split_and!; try done. intros m. unfold Logger.log_info. by rewrite Hw.
  - destruct (Hout e Logger.warn msg
                (from_option Logger.plain Logger.no_options o)
                (Logger.set_hasWarned l)) as (?&?&?&Hw&?); try done.
    split_and!; try done. intros m. unfold Logger.log_warn. cbn [fst snd].
    by rewrite Hw.
  - unfold Logger.log_warnOnce. cbn [fst snd]. case_bool_decide; [done|].
    destruct (Hout e Logger.warn msg
                (from_option Logger.plain Logger.no_options o)
                (Logger.set_hasWarned l)) as (?&?&?&Hw&?); try done.
    destruct (output _ _ _ _ _) as [l1 w1]. simpl in *.
    split_and!; try done. intros m Hm. apply elem_of_app. left.
    by rewrite Hw.
  - destruct (Hout e Logger.error msg (default Logger.no_options o)
                (Logger.set_hasWarned l)) as (?&?&?&Hw&?); try done.
    split_and!; try done. intros m. unfold Logger.log_error. cbn [fst snd].
    by rewrite Hw.
  - unfold Logger.log_clearScreen. cbn [fst snd]. by destruct (_ <=? _)%Z.
Qed.

Lemma calls_closure cs : ∀ l w,
  let l' := (calls cs (l, w)).1 in
  Logger.thresh l' = Logger.thresh l ∧ Logger.prefix l' = Logger.prefix l ∧
  Logger.canClearScreen l' = Logger.canClearScreen l ∧
  (∀ m, m ∈ Logger.warnedMessages l → m ∈ Logger.warnedMessages l') ∧
  (∀ x, x ∈ Logger.loggedErrors l → x ∈ Logger.loggedErrors l').
Proof.
  induction cs as [|ec cs IH]; intros l w; [done|].
  unfold Logger.calls in *. simpl.
  destruct (call_closure ec l w) as (E1&E2&E3&E4&E5).
  destruct (call ec (l, w)) as [l1 w1]. simpl in *.
  destruct (IH l1 w1) as (F1&F2&F3&F4&F5).
  split_and!; [congruence..| |]; auto.
Qed.

(** What [output] writes when the type does not rank above the level. *)
Lemma output_writes e t msg o l w :
  (Logger.LogLevels (Logger.level t) ≤ Logger.thresh l)%Z →
  ∃ pre rest,
    Logger.out (output e t msg o (l, w)).2 =
      Logger.out w ++ pre ++
      [Logger.Console (Logger.method_of t) (format l e t msg o :: rest)] ∧
    (pre = [] ∨
     ∀ w0, Logger.out (Logger.clearScreen e w0) = Logger.out w0 ++ pre).
Proof.
  intros Hle. unfold Logger.output.
  rewrite (proj2 (Z.leb_le _ _) Hle). unfold Logger.clear_.
  destruct (Logger.canClearScreen l); simpl.
  - destruct (_ && _); simpl.
    + eexists _, _. split; [by rewrite <- app_assoc|]. by right.
    + destruct (Logger.clear (Logger.base o)); simpl.
      * eexists _, _. split; [by rewrite <- app_assoc|]. by right.
      * exists [], []. split; [done|]. by left.
  - exists [], []. split; [done|]. by left.
Qed.

(** X15 (the level of a logger).  A call whose type ranks above the
    level of the logger ([LogLevels]: silent 0, error 1, warn 2, info 3)
    writes nothing: the console, the screen and the variables of the
    module are left as they are, and no error is recorded.  A call of
    [info], [warn], [error], or of [warnOnce] with a message not warned
    yet, whose type does not rank above the level, writes its formatted
    message last, with the console method of its type ([log] for
    [info]); before it the call writes nothing, or clears the screen. *)
Theorem logger_level_filter e c l w :
  let t := Logger.type_of c in
  let s' := call (e, c) (l, w) in
  ((Logger.thresh l < Logger.LogLevels (Logger.level t))%Z →
   s'.2 = w ∧ Logger.loggedErrors s'.1 = Logger.loggedErrors l) ∧
  ((Logger.LogLevels (Logger.level t) ≤ Logger.thresh l)%Z →
   ∀ msg o, Logger.printed c = Some (msg, o) →
     (∀ m o', c = Logger.WarnOnce m o' → m ∉ Logger.warnedMessages l) →
     ∃ pre rest,
       Logger.out s'.2 =
         Logger.out w ++ pre ++
         [Logger.Console (Logger.method_of t) (format l e t msg o :: rest)] ∧
       (pre = [] ∨
        ∀ w0, Logger.out (Logger.clearScreen e w0) = Logger.out w0 ++ pre)).
Proof.
  intros t s'. subst t s'. split.
  - intros Hlt. apply Z.leb_gt in Hlt.
    destruct c as [msg o|msg o|msg o|msg o|t]; unfold Logger.call; simpl in *.
    + unfold Logger.log_info, Logger.output. by rewrite Hlt.
    + unfold Logger.log_warn, Logger.output. simpl. by rewrite Hlt.
    + unfold Logger.log_warnOnce, Logger.output. simpl.
      case_bool_decide; [done|]. by rewrite Hlt.
    + unfold Logger.log_error, Logger.output. simpl. by rewrite Hlt.
    + unfold Logger.log_clearScreen. simpl. by rewrite Hlt.
  - intros Hle msg o Hp Hnew.
    destruct c as [m o0|m o0|m o0|m o0|t]; unfold Logger.call;
      cbn [fst snd Logger.type_of Logger.printed] in *;
      try injection Hp as <- <-; try done.
    + unfold Logger.log_info. by apply output_writes.
    + unfold Logger.log_warn. cbn [fst snd].
      by apply (output_writes e Logger.warn m _ (Logger.set_hasWarned l)).
    + unfold Logger.log_warnOnce. cbn [fst snd].
      rewrite bool_decide_eq_false_2 by by eapply Hnew.
      destruct (output_writes e Logger.warn m
                  (from_option Logger.plain Logger.no_options o0)
                  (Logger.set_hasWarned l) w Hle) as (pre & rest & E & Hpre).
      destruct (output _ _ _ _ _) as [l1 w1]. cbn [fst snd] in *.
      by exists pre, rest.
    + unfold Logger.log_error. cbn [fst snd].
      by apply (output_writes e Logger.error m _ (Logger.set_hasWarned l)).
Qed.

(** X16 ([warnOnce] warns once).  After [warnOnce(msg)] on a logger,
    whatever the level of the logger and whatever is logged in between, a
    further [warnOnce] of the same message does nothing at all: the
    logger, the console and the variables of the module stay as they
    are. *)
Theorem warnOnce_once e msg o cs e' o' s :
  let s1 := calls cs (log_warnOnce e msg o s) in
  log_warnOnce e' msg o' s1 = s1.
Proof.
  intros s1.
  assert (Hin : msg ∈ Logger.warnedMessages (log_warnOnce e msg o s).1).
  { unfold Logger.log_warnOnce. case_bool_decide; [done|].
    destruct (output _ _ _ _ _) as [l1 w1]. simpl.
    apply elem_of_app. right. by left. }
  assert (Hin1 : msg ∈ Logger.warnedMessages s1.1).
  { subst s1. destruct (log_warnOnce e msg o s) as [l0 w0].
    by apply (calls_closure cs l0 w0). }
  unfold Logger.log_warnOnce. by rewrite bool_decide_eq_true_2.
Qed.

(** X17 (errors that were logged).  After [error(msg, { error })] on a
    logger whose level is not [silent], [hasErrorLogged(error)] answers
    true, and keeps answering true whatever is logged afterwards.  On a
    silent logger the call records nothing: [hasErrorLogged] answers what
    it answered before. *)
Theorem error_is_remembered e msg o x cs l w :
  Logger.err o = Some x →
  let s1 := log_error e msg (Some o) (l, w) in
  ((1 ≤ Logger.thresh l)%Z →
   Logger.hasErrorLogged (calls cs s1).1 x = true) ∧
  ((Logger.thresh l < 1)%Z →
   Logger.hasErrorLogged s1.1 x = Logger.hasErrorLogged l x).
Proof.
  intros Hx s1. subst s1. unfold Logger.log_error. cbn [fst snd].
  change (default Logger.no_options (Some o)) with o.
  pose proof (output_logger e Logger.error msg o (Logger.set_hasWarned l) w)
    as E.
  cbn [Logger.LogLevels Logger.thresh Logger.set_hasWarned] in E.
  split.
  - intros Hle. apply bool_decide_eq_true.
    rewrite (proj2 (Z.leb_le _ _) Hle) in E.
    destruct (output _ _ _ _ _) as [l1 w1]. cbn [fst] in E.
    apply (calls_closure cs l1 w1). rewrite E.
    by apply record_error_closure.
  - intros Hlt. rewrite (proj2 (Z.leb_gt _ _) Hlt) in E. by rewrite E.
Qed.

Lemma format_prefix l1 l2 e t msg o :
  Logger.prefix l1 = Logger.prefix l2 →
  format l1 e t msg o = format l2 e t msg o.
Proof. intros E. unfold Logger.format. by rewrite E. Qed.

(** [output] of the message that was output last. *)
Lemma output_repeat e t msg o l w :
  Logger.canClearScreen l = true →
  (Logger.LogLevels (Logger.level t) ≤ Logger.thresh l)%Z →
  Logger.lastType w = Some t → Logger.lastMsg w = Some msg →
  let s' := output e t msg o (l, w) in
  s'.1 = Logger.record_error o l ∧
  Logger.sameCount s'.2 = S (Logger.sameCount w) ∧
  Logger.lastType s'.2 = Some t ∧ Logger.lastMsg s'.2 = Some msg ∧
  last (Logger.out s'.2) =
    Some (Logger.Console (Logger.method_of t)
            [format l e t msg o;
             yellow ("(x" +:+ pretty (S (Logger.sameCount w) + 1) +:+ ")")]).
Proof.
  intros Hc Hle Ht Hm. unfold Logger.output.
  rewrite (proj2 (Z.leb_le _ _) Hle), Hc, Ht, Hm.
  rewrite !bool_decide_eq_true_2 by done. cbn [andb fst snd].
  unfold Logger.clear_. rewrite Hc. simpl.
  split_and!; try done. by rewrite last_snoc.
Qed.

(** [output] of another message. *)
Lemma output_first e t msg o l w :
  Logger.canClearScreen l = true →
  (Logger.LogLevels (Logger.level t) ≤ Logger.thresh l)%Z →
  ¬ (Logger.lastType w = Some t ∧ Logger.lastMsg w = Some msg) →
  let s' := output e t msg o (l, w) in
  s'.1 = Logger.record_error o l ∧
  Logger.sameCount s'.2 = 0 ∧
  Logger.lastType s'.2 = Some t ∧ Logger.lastMsg s'.2 = Some msg.
Proof.
  intros Hc Hle Hne. unfold Logger.output.
  rewrite (proj2 (Z.leb_le _ _) Hle), Hc.
  assert (E : bool_decide (Some t = Logger.lastType w) &&
              bool_decide (Some msg = Logger.lastMsg w) = false).
  { apply andb_false_iff.
    destruct (decide (Some t = Logger.lastType w)) as [E1|E1];
      [|left; by apply bool_decide_eq_false_2].
    right. apply bool_decide_eq_false_2. intros E2. by apply Hne. }
  rewrite E. unfold Logger.clear_. rewrite Hc.
  by destruct (Logger.clear (Logger.base o)).
Qed.

(** X18 (a message repeated).  On a logger that may clear the screen, let
    a message be output that is not the one output last, and then the same
    message with the same type again, [k] times in a row, by calls that
    pass the level.  Then [sameCount] is [k], and the last of these calls
    wrote the message followed by the count [(x k+1)]. *)
Theorem repeated_message_is_counted e0 es t msg o l w :
  Logger.canClearScreen l = true →
  (Logger.LogLevels (Logger.level t) ≤ Logger.thresh l)%Z →
  ¬ (Logger.lastType w = Some t ∧ Logger.lastMsg w = Some msg) →
  let s1 := output e0 t msg o (l, w) in
  let sk := foldl (λ s e, output e t msg o s) s1 es in
  Logger.sameCount sk.2 = length es ∧
  Logger.lastType sk.2 = Some t ∧ Logger.lastMsg sk.2 = Some msg ∧
  ∀ e, last es = Some e →
    last (Logger.out sk.2) =
      Some (Logger.Console (Logger.method_of t)
              [format l e t msg o;
               yellow ("(x" +:+ pretty (length es + 1) +:+ ")")]).
Proof.
  intros Hc Hle Hne s1 sk. subst sk.
  cut (let sk := foldl (λ s e, output e t msg o s) s1 es in
       (Logger.canClearScreen sk.1 = true ∧
        Logger.thresh sk.1 = Logger.thresh l ∧
        Logger.prefix sk.1 = Logger.prefix l) ∧
       Logger.sameCount sk.2 = length es ∧
       Logger.lastType sk.2 = Some t ∧ Logger.lastMsg sk.2 = Some msg ∧
       ∀ e, last es = Some e →
         last (Logger.out sk.2) =
           Some (Logger.Console (Logger.method_of t)
                   [format l e t msg o;
                    yellow ("(x" +:+ pretty (length es + 1) +:+ ")")])).
  { intros [_ K]. exact K. }
  induction es as [|e es IH] using rev_ind.
  - simpl. subst s1.
    destruct (output_first e0 t msg o l w Hc Hle Hne) as (E1 & E2 & E3 & E4).
    destruct (record_error_closure o l) as (F1 & F2 & F3 & _).
    rewrite E1. split_and!; try done. congruence.
  - rewrite foldl_app. simpl.
    destruct IH as ((K1 & K2 & K3) & K4 & K5 & K6 & _).
    destruct (foldl _ s1 es) as [lk wk]. simpl in K1, K2, K3, K4, K5, K6.
    destruct (output_repeat e t msg o lk wk K1) as (E1 & E2 & E3 & E4 & E5);
      [by rewrite K2|done..|].
    destruct (record_error_closure o lk) as (F1 & F2 & F3 & _).
    rewrite E1. split_and!; try congruence.
    + rewrite E2, K4, length_app. simpl. lia.
    + intros e'. rewrite last_snoc. intros [= <-]. rewrite E5.
      rewrite (format_prefix lk l) by done.
      rewrite K4, length_app. simpl.
      by replace (length es + 1 + 1) with (S (length es + 1)) by lia.
Qed.

(** The warned messages of a logger that has not warned are none. *)
Lemma call_hasWarned ec l w :
  (Logger.warnedMessages l ≠ [] → Logger.hasWarned l = true) →
  let l' := (call ec (l, w)).1 in
  (Logger.warnedMessages l' ≠ [] → Logger.hasWarned l' = true) ∧
  (Logger.hasWarned l' = true ↔
   Logger.hasWarned l = true ∨ Logger.warns ec.2 = true).
Proof.
  intros Hinv.
  destruct ec as [e [msg o|msg o|msg o|msg o|t]]; unfold Logger.call;
    cbn [fst snd Logger.warns].
  - unfold Logger.log_info.
    destruct (output_closure e Logger.info msg
                (from_option Logger.plain Logger.no_options o) l w)
      as (_&_&_&Hw&Hh&_).
    rewrite Hw, Hh. split; [done|]. split; [by left|by intros [?|?]].
  - unfold Logger.log_warn. cbn [fst snd].
    destruct (output_closure e Logger.warn msg
                (from_option Logger.plain Logger.no_options o)
                (Logger.set_hasWarned l) w) as (_&_&_&Hw&Hh&_).
    rewrite Hh. split; [done|]. split; [by right|done].
  - unfold Logger.log_warnOnce. cbn [fst snd]. case_bool_decide as Hin.
    + cbn [fst]. assert (Logger.hasWarned l = true) as ->.
      { apply Hinv. intros E. rewrite E in Hin. by apply elem_of_nil in Hin. }
      split; [done|]. split; [by left|done].
    + destruct (output_closure e Logger.warn msg
                (from_option Logger.plain Logger.no_options o)
                (Logger.set_hasWarned l) w) as (_&_&_&Hw&Hh&_).
      destruct (output _ _ _ _ _) as [l1 w1]. cbn [fst snd] in *.
      cbn [Logger.hasWarned]. rewrite Hh. split; [done|].
      split; [by right|done].
  - unfold Logger.log_error. cbn [fst snd].
    destruct (output_closure e Logger.error msg (default Logger.no_options o)
                (Logger.set_hasWarned l) w) as (_&_&_&Hw&Hh&_).
    rewrite Hh. split; [done|]. split; [by right|done].
  - unfold Logger.log_clearScreen. cbn [fst snd].
    destruct (_ <=? _)%Z; cbn [fst]; (split; [done|]);
      (split; [by left|by intros [?|?]]).
Qed.

(** X19 ([hasWarned]).  On a logger made by [createLogger], after any
    calls [hasWarned] is true exactly if one of the calls was [warn],
    [warnOnce] or [error]: these set it whatever the level of the logger,
    [info] and [clearScreen] never do. *)
Theorem hasWarned_iff {Custom} p lvl (opts : option (Logger.LoggerOptions Custom))
    l cs w :
  Logger.createLogger p lvl opts = inr l →
  Logger.hasWarned (calls cs (l, w)).1 = true ↔
  ∃ ec, ec ∈ cs ∧ Logger.warns ec.2 = true.
Proof.
  intros Hl.
  assert (Hinit : Logger.warnedMessages l = [] ∧ Logger.hasWarned l = false).
  { unfold Logger.createLogger in Hl.
    destruct (Logger.customLogger _); [done|]. by injection Hl as <-. }
  destruct Hinit as [Hw0 Hh0].
  cut (∀ cs l w,
    (Logger.warnedMessages l ≠ [] → Logger.hasWarned l = true) →
    Logger.hasWarned (calls cs (l, w)).1 = true ↔
    Logger.hasWarned l = true ∨ ∃ ec, ec ∈ cs ∧ Logger.warns ec.2 = true).
  { intros Hcut. rewrite Hcut by by rewrite Hw0. rewrite Hh0.
    split; [by intros [?|?]|by right]. }
  clear. intros cs. induction cs as [|ec cs IH]; intros l w Hinv.
  - simpl. split; [by left|]. intros [?|(ec & ?%elem_of_nil & _)]; done.
  - unfold Logger.calls in *. simpl.
    destruct (call_hasWarned ec l w Hinv) as [Hinv' Hiff].
    destruct (call ec (l, w)) as [l1 w1]. cbn [fst] in *.
    rewrite (IH l1 w1 Hinv'), Hiff. split.
    + intros [[?|?]|(ec' & Hin & Hwarn)]; [by left| |].
      * right. exists ec. split; [by left|done].
      * right. exists ec'. split; [by right|done].
    + intros [?|(ec' & Hin & Hwarn)]; [by left; left|].
      apply elem_of_cons in Hin as [->|Hin]; [by left; right|].
      right. by exists ec'.
Qed.


(** A call on a logger that cannot clear the screen writes nothing, or
    one line. *)
Lemma call_plain ec l w :
  Logger.canClearScreen l = false →
  (call ec (l, w)).2 = w ∨
  ∃ m line, (call ec (l, w)).2 = Logger.print m [line] w.
Proof.
  intros Hc.
  assert (Hout : ∀ e t msg o l0, Logger.canClearScreen l0 = false →
    (output e t msg o (l0, w)).2 = w ∨
    ∃ m line, (output e t msg o (l0, w)).2 = Logger.print m [line] w).
  { intros e t msg o l0 H0. unfold Logger.output. rewrite H0.
    destruct (_ <=? _)%Z; [|by left]. right. by eexists _, _. }
  destruct ec as [e [msg o|msg o|msg o|msg o|t]]; unfold Logger.call;
    cbn [fst snd].
  - by apply Hout.
  - unfold Logger.log_warn. cbn [fst snd]. by apply Hout.
  - unfold Logger.log_warnOnce. cbn [fst snd]. case_bool_decide; [by left|].
    destruct (Hout e Logger.warn msg
                (from_option Logger.plain Logger.no_options o)
                (Logger.set_hasWarned l) Hc) as [E|(m & line & E)];
      destruct (output _ _ _ _ _) as [l1 w1]; simpl in *.
    + by left.
    + right. by eexists _, _.
  - unfold Logger.log_error. cbn [fst snd]. by apply Hout.
  - unfold Logger.log_clearScreen, Logger.clear_. cbn [fst snd].
    rewrite Hc. left. by destruct (_ <=? _)%Z.
Qed.

Lemma calls_plain cs : ∀ l w,
  Logger.canClearScreen l = false →
  let w' := (calls cs (l, w)).2 in
  Logger.lastType w' = Logger.lastType w ∧
  Logger.lastMsg w' = Logger.lastMsg w ∧
  Logger.sameCount w' = Logger.sameCount w ∧
  ∃ lines,
    Logger.out w' = Logger.out w ++ lines ∧
    length lines ≤ length cs ∧
    Forall (λ ev, ∃ m line, ev = Logger.Console m [line]) lines.
Proof.
  induction cs as [|ec cs IH]; intros l w Hc.
  - split_and!; try done. exists []. split_and!; [by rewrite app_nil_r|done|done].
  - cbv zeta. unfold Logger.calls. simpl.
    destruct (call_closure ec l w) as (_ & _ & E3 & _).
    pose proof (call_plain ec l w Hc) as Hw.
    destruct (call ec (l, w)) as [l1 w1]. cbn [fst snd] in *.
    destruct (IH l1 w1) as (F1 & F2 & F3 & lines & F4 & F5 & F6);
      [congruence|].
    unfold Logger.calls in *.
    destruct Hw as [->|(m & line & ->)].
    + split_and!; try done. exists lines. split_and!; [done|lia|done].
    + split_and!; try done. exists (Logger.Console m [line] :: lines).
      split_and!.
      * rewrite F4. simpl. by rewrite <- app_assoc.
      * simpl. lia.
      * constructor; [by eexists _, _|done].
Qed.

(** X26 (a logger that cannot clear the screen).  Let [createLogger]
    make a logger while the output is not a terminal, or [CI] is set in
    the environment, or the options say [allowClearScreen: false].
    Whatever is called on this logger, it never clears the screen and
    never counts repeated messages: each call writes at most one console
    line, of one argument, and the variables of the module that remember
    the last message are left as they are. *)
Theorem logger_without_screen {Custom} p lvl
    (opts : option (Logger.LoggerOptions Custom)) l cs w :
  Logger.createLogger p lvl opts = inr l →
  Logger.isTTY p = false ∨ Logger.truthy (Logger.CI p) = true ∨
    opts ≫= Logger.allowClearScreen = Some false →
  let w' := (calls cs (l, w)).2 in
  Logger.lastType w' = Logger.lastType w ∧
  Logger.lastMsg w' = Logger.lastMsg w ∧
  Logger.sameCount w' = Logger.sameCount w ∧
  ∃ lines,
    Logger.out w' = Logger.out w ++ lines ∧
    length lines ≤ length cs ∧
    Forall (λ ev, ∃ m line, ev = Logger.Console m [line]) lines.
Proof.
  intros Hl Hp. apply calls_plain.
  unfold Logger.createLogger in Hl. cbv zeta in Hl.
  destruct (Logger.customLogger _); [done|]. injection Hl as <-.
  cbn [Logger.canClearScreen].
  destruct Hp as [->|[->|Ho]].
  - by rewrite andb_false_r.
  - by rewrite andb_false_r.
  - destruct opts as [o|]; [|done]. simpl in Ho. simpl. by rewrite Ho.
Qed.

End LoggerProperties.


(** ** Configuration *)

Lemma endsWith_app_slash s : endsWith (s +:+ "/") "/" = true.
Proof.
  induction s as [|c s IH]; [done|].
  change (String c s +:+ "/") with (String c (s +:+ "/")).
  cbn [endsWith]. rewrite IH. apply orb_true_r.
Qed.

Lemma endsWith_dropLast s : endsWith s "/" = true → Config.dropLast s +:+ "/" = s.
Proof.
  induction s as [|c s IH]; [done|]. cbn [endsWith].
  destruct s as [|d s].
  - rewrite orb_false_r. intros E%bool_decide_eq_true. by injection E as ->.
  - rewrite orb_true_iff. intros [E%bool_decide_eq_true|E]; [done|].
    change (Config.dropLast (String c (String d s))) with
      (String c (Config.dropLast (String d s))).
    change (String c (Config.dropLast (String d s)) +:+ "/") with
      (String c (Config.dropLast (String d s) +:+ "/")).
    by rewrite IH.
Qed.

Lemma dropLast_app_slash s : Config.dropLast (s +:+ "/") = s.
Proof.
  induction s as [|c s IH]; [done|].
  change (String c s +:+ "/") with (String c (s +:+ "/")).
  destruct s as [|d s]; [done|].
  change (Config.dropLast (String c (String d s +:+ "/"))) with
    (String c (Config.dropLast (String d s +:+ "/"))).
  by rewrite IH.
Qed.

Lemma startsWith_nil s : Config.startsWith s "" = true.
Proof. by destruct s. Qed.

Lemma startsWith_app s p t :
  Config.startsWith s p = true → Config.startsWith (s +:+ t) p = true.
Proof.
  revert s. induction p as [|a p IH]; intros s;
    [intros _; apply startsWith_nil|].
  destruct s as [|b s]; [done|]. simpl. rewrite !andb_true_iff.
  intros [? ?]. split; [done|]. by apply IH.
Qed.

Section BaseUrlProperties.

Variable isExternalUrl : string → bool.
Variable parseUrl_pathname : string → option string.
Variables yellow bold : string → string.

Local Abbreviation resolveBaseUrl :=
  (Config.resolveBaseUrl isExternalUrl parseUrl_pathname yellow bold).

(** X20 (the shape of the resolved base).  For the empty base and for
    [./], [resolveBaseUrl] returns the base itself when building and [/]
    when serving, without warning.  For every other base the result ends
    with a slash; and it starts with a slash too unless the base, made
    [/] if it started with a dot, is an external url. *)
Theorem resolveBaseUrl_shape base isBuild :
  let b := default "/" base in
  let r := resolveBaseUrl base isBuild in
  (b = "" ∨ b = "./" → r = (if isBuild then b else "/", [])) ∧
  (b ≠ "" → b ≠ "./" →
   endsWith r.1 "/" = true ∧
   (isExternalUrl (if Config.startsWith b "." then "/" else b) = false →
    Config.startsWith r.1 "/" = true)).
Proof.
  intros b r. subst r. unfold Config.resolveBaseUrl. fold b. split.
  - intros [->| ->]; done.
  - intros H1 H2.
    rewrite (bool_decide_eq_false_2 (b = "")),
      (bool_decide_eq_false_2 (b = "./")) by done.
    cbn [orb].
    set (b1 := if Config.startsWith b "." then "/" else b).
    assert (∀ b2 w2, Config.startsWith b2 "/" = true ∨
                     isExternalUrl b1 = true →
      let r := if negb (endsWith b2 "/")
               then (b2 +:+ "/", w2 ++ [Config.no_trailing_slash yellow bold])
               else (b2, w2) in
      endsWith r.1 "/" = true ∧
      (isExternalUrl b1 = false → Config.startsWith r.1 "/" = true)) as Hend.
    { intros b2 w2 Hs. destruct (endsWith b2 "/") eqn:E; simpl.
      - split; [done|]. intros Hx. destruct Hs as [?|Hs]; [done|congruence].
      - split; [apply endsWith_app_slash|]. intros Hx.
        destruct Hs as [Hs|Hs]; [|congruence].
        by apply startsWith_app. }
    destruct (Config.startsWith b ".") eqn:Hdot; subst b1;
      cbv beta iota zeta.
    + destruct (isExternalUrl "/") eqn:Hx.
      * destruct isBuild; cbn [negb]; cbv beta iota zeta; apply Hend;
          by right.
      * change (Config.startsWith "/" "/") with true.
        cbn [negb]; cbv beta iota zeta. apply Hend. by left.
    + destruct (isExternalUrl b) eqn:Hx.
      * destruct isBuild; cbn [negb]; cbv beta iota zeta; apply Hend;
          by right.
      * destruct (Config.startsWith b "/") eqn:Hs; cbn [negb];
          cbv beta iota zeta; apply Hend; left; [done|].
        simpl. by rewrite startsWith_nil.
Qed.

(** X21 (every repair of the base is warned).  A base that starts and
    ends with a slash and is not an external url is returned as it is,
    without warning.  Conversely, when [resolveBaseUrl] returns without
    warning for a base that is not an external url, the result is the
    base, or [/] for the empty base and for [./] when serving. *)
Theorem resolveBaseUrl_warns base isBuild :
  let b := default "/" base in
  isExternalUrl b = false →
  (Config.startsWith b "/" = true → endsWith b "/" = true →
   resolveBaseUrl base isBuild = (b, [])) ∧
  (∀ r, resolveBaseUrl base isBuild = (r, []) →
        r = b ∨ ((b = "" ∨ b = "./") ∧ isBuild = false ∧ r = "/")).
Proof.
  intros b Hx. unfold Config.resolveBaseUrl. fold b. split.
  - intros Hs He.
    assert (b ≠ "") by (intros E; by rewrite E in Hs).
    assert (b ≠ "./") by (intros E; by rewrite E in Hs).
    rewrite (bool_decide_eq_false_2 (b = "")),
      (bool_decide_eq_false_2 (b = "./")) by done.
    cbn [orb].
    assert (Config.startsWith b "." = false) as ->.
    { destruct b as [|c b']; [done|]. simpl in *.
      apply andb_true_iff in Hs as [Hc _]. apply bool_decide_eq_true in Hc.
      by subst c. }
    cbv beta iota zeta. rewrite Hx, Hs. cbn [negb]. cbv beta iota zeta.
    by rewrite He.
  - intros r.
    assert (Hnil : ∀ (w : list string) x, w ++ [x] ≠ []).
    { intros w x E. symmetry in E. by apply app_cons_not_nil in E. }
    case_bool_decide as E1; [|case_bool_decide as E2]; cbn [orb].
    + intros [= <-]. destruct isBuild; [by left|]. right. by auto.
    + intros [= <-]. destruct isBuild; [by left|]. right. by auto.
    + destruct (Config.startsWith b ".") eqn:Hdot; cbv beta iota zeta.
      * destruct (isExternalUrl "/"); [destruct isBuild|]; cbn [negb];
          cbv beta iota zeta;
          try change (Config.startsWith "/" "/") with true; cbn [negb];
          cbv beta iota zeta;
          match goal with
          | |- context [endsWith ?x "/"] => destruct (endsWith x "/")
          end; cbn [negb]; intros Heq;
          apply pair_equal_spec in Heq as [_ Hw]; try done;
          by apply Hnil in Hw.
      * rewrite Hx. destruct (Config.startsWith b "/"); cbn [negb];
          cbv beta iota zeta;
          match goal with
          | |- context [endsWith ?x "/"] => destruct (endsWith x "/")
          end; cbn [negb]; intros Heq;
          apply pair_equal_spec in Heq as [Hr Hw];
          first [by left | by apply Hnil in Hw].
Qed.

End BaseUrlProperties.

Section AliasProperties.

Variable RegExp : Type.

Local Abbreviation Alias := (Config.Alias RegExp).

(** X22 (aliases with a trailing slash).  [normalizeSingleAlias] takes
    one slash off the end of both [find] and [replacement] when [find] is
    a string and both end with a slash, so that [find/] to
    [replacement/] becomes [find] to [replacement]; any other alias is
    returned with the same [find] and [replacement].  [mergeAlias]
    returns the normalised aliases of its first argument followed by
    those of its second: one for each alias given, array element or
    object property, in the order given. *)
Theorem normalizeAlias_spec :
  (∀ f r, Config.normalizeSingleAlias RegExp
            {| Config.find := inl (f +:+ "/");
               Config.replacement := r +:+ "/" |} =
          {| Config.find := inl f; Config.replacement := r |}) ∧
  (∀ a : Alias,
     (∀ f, Config.find a = inl f →
           endsWith f "/" && endsWith (Config.replacement a) "/" = false) →
     Config.normalizeSingleAlias RegExp a = a) ∧
  (∀ a : Alias,
     Config.normalizeSingleAlias RegExp a = a ∨
     ∃ f r, a = {| Config.find := inl (f +:+ "/");
                   Config.replacement := r +:+ "/" |}) ∧
  (∀ a b, Config.mergeAlias RegExp a b =
          Config.normalizeSingleAlias RegExp <$>
            (Config.aliases RegExp a ++ Config.aliases RegExp b)).
Proof.
  assert (Hpair : ∀ f r, Config.normalizeSingleAlias RegExp
            {| Config.find := inl (f +:+ "/");
               Config.replacement := r +:+ "/" |} =
          {| Config.find := inl f; Config.replacement := r |}).
  { intros f r. unfold Config.normalizeSingleAlias. simpl.
    by rewrite !endsWith_app_slash, !dropLast_app_slash. }
  assert (Hsame : ∀ a : Alias,
     (∀ f, Config.find a = inl f →
           endsWith f "/" && endsWith (Config.replacement a) "/" = false) →
     Config.normalizeSingleAlias RegExp a = a).
  { intros [f r] Hno. unfold Config.normalizeSingleAlias. simpl in *.
    destruct f as [f|re]; [|done]. by rewrite (Hno f eq_refl). }
  split_and!; [done..| |].
  - intros [f r]. destruct f as [f|re]; [|by left].
    destruct (endsWith f "/" && endsWith r "/") eqn:E.
    + right. apply andb_true_iff in E as [E1 E2].
      exists (Config.dropLast f), (Config.dropLast r).
      by rewrite !endsWith_dropLast.
    + left. apply Hsame. simpl. by intros f' [= <-].
  - intros a b. unfold Config.mergeAlias, Config.normalizeAlias.
    rewrite fmap_app. f_equal.
    + destruct a as [[l|props]|]; simpl; [done| |done].
      by rewrite <- list_fmap_compose.
    + destruct b as [[l|props]|]; simpl; [done| |done].
      by rewrite <- list_fmap_compose.
Qed.

End AliasProperties.

Section PluginProperties.

Variable Plugin : Type.
Variable enforce : Plugin → option Config.Enforce.

Local Abbreviation sortUserPlugins := (Config.sortUserPlugins Plugin enforce).

Lemma sortUserPlugins_foldl (l : list Plugin) a b c :
  foldl (λ '(prePlugins, normalPlugins, postPlugins) p,
           match enforce p with
           | Some Config.pre => (prePlugins ++ [p], normalPlugins, postPlugins)
           | Some Config.post =>
               (prePlugins, normalPlugins, postPlugins ++ [p])
           | None => (prePlugins, normalPlugins ++ [p], postPlugins)
           end) (a, b, c) l =
  (a ++ filter (λ p, enforce p = Some Config.pre) l,
   b ++ filter (λ p, enforce p = None) l,
   c ++ filter (λ p, enforce p = Some Config.post) l).
Proof.
  revert a b c. induction l as [|p l IH]; intros a b c; simpl.
  - by rewrite !app_nil_r.
  - rewrite !filter_cons.
    destruct (enforce p) as [[]|] eqn:E; rewrite IH;
      repeat case_decide; try done; by rewrite <- ?app_assoc.
Qed.

(** X23 ([sortUserPlugins]).  The three lists returned are the plugins
    that enforce [pre], those that enforce nothing and those that enforce
    [post], each in the order in which the plugins were given, nested
    arrays flattened; together they hold every plugin given exactly once.
    Without plugins the three lists are empty. *)
Theorem sortUserPlugins_partition plugins :
  let l := from_option (Config.flat Plugin) [] plugins in
  let '(prePlugins, normalPlugins, postPlugins) := sortUserPlugins plugins in
  prePlugins = filter (λ p, enforce p = Some Config.pre) l ∧
  normalPlugins = filter (λ p, enforce p = None) l ∧
  postPlugins = filter (λ p, enforce p = Some Config.post) l ∧
  prePlugins ++ normalPlugins ++ postPlugins ≡ₚ l.
Proof.
  intros l. unfold Config.sortUserPlugins. subst l.
  destruct plugins as [ps|]; simpl; [|done].
  rewrite sortUserPlugins_foldl. simpl. split_and!; [done..|].
  induction (Config.flat Plugin ps) as [|p l IH]; [done|].
  rewrite !filter_cons.
  destruct (enforce p) as [[]|]; repeat case_decide; try done; simpl;
    rewrite <- ?Permutation_middle; by rewrite IH.
Qed.

End PluginProperties.


Section EnvProperties.

Variable arraify : string + list string → list string.
Variable envFile : string → string → option (list (string * string)).
Variable inherited : string → bool.

Local Abbreviation is_undefined := (Config.is_undefined inherited).
Local Abbreviation exposeEntry := (Config.exposeEntry inherited).
Local Abbreviation loadEntry := (Config.loadEntry inherited).
Local Abbreviation loadFile := (Config.loadFile envFile inherited).
Local Abbreviation loadEnv := (Config.loadEnv arraify envFile inherited).
Local Abbreviation resolveEnvPrefix := (Config.resolveEnvPrefix arraify).

(** The value of [key] after the entries of [l]: the one it had, else the
    first of [l] if the key is exposed. *)
Lemma foldl_exposeEntry ps l : ∀ env key,
  foldl (exposeEntry ps) env l !! key =
  match env !! key with
  | Some v => Some v
  | None =>
      if Config.exposed ps key && negb (inherited key)
      then JsMap.get l key else None
  end.
Proof.
  induction l as [|[k v] l IH]; intros env key; simpl.
  - destruct (env !! key); [done|]. by destruct (_ && _).
  - rewrite IH. unfold Config.exposeEntry, Config.is_undefined. simpl.
    destruct (decide (k = key)) as [->|Hne].
    + rewrite (bool_decide_eq_true_2 (key = key)) by done.
      destruct (env !! key) as [v0|] eqn:E.
      * rewrite (bool_decide_eq_false_2 (Some v0 = None)) by done.
        rewrite andb_false_l, andb_false_r. by rewrite E.
      * rewrite (bool_decide_eq_true_2 (None = None)) by done. simpl.
        destruct (Config.exposed ps key && negb (inherited key)) eqn:Hx.
        -- by rewrite lookup_insert_eq.
        -- by rewrite E.
    + rewrite (bool_decide_eq_false_2 (k = key)) by done.
      destruct (_ && _); [|done]. by rewrite lookup_insert_ne.
Qed.

Lemma foldl_loadEntry ps l : ∀ s,
  (foldl (loadEntry ps) s l).1 = foldl (exposeEntry ps) s.1 l ∧
  ∀ key, key ≠ "VITE_USER_NODE_ENV" →
    JsMap.get (foldl (loadEntry ps) s l).2 key = JsMap.get s.2 key.
Proof.
  induction l as [|[k v] l IH]; intros s; simpl; [done|].
  destruct (IH (loadEntry ps s (k, v))) as [E1 E2].
  rewrite E1. unfold Config.loadEntry, Config.exposeEntry in *. simpl in *.
  destruct (_ && _); simpl; [done|].
  case_bool_decide; simpl; [|done]. split; [done|].
  intros key Hkey. rewrite E2 by done. by apply JsMap_get_set_ne.
Qed.

Lemma foldl_loadFile ps envDir files : ∀ s key,
  (∀ v, s.1 !! key = Some v → Config.exposed ps key && negb (inherited key) = true) →
  (foldl (loadFile ps envDir) s files).1 !! key =
    (if Config.exposed ps key && negb (inherited key)
     then Config.first_of
            (s.1 !! key ::
             ((λ file, envFile envDir file ≫=
                        (λ parsed, JsMap.get parsed key)) <$> files))
     else None) ∧
  ∀ k, k ≠ "VITE_USER_NODE_ENV" →
    JsMap.get (foldl (loadFile ps envDir) s files).2 k = JsMap.get s.2 k.
Proof.
  induction files as [|file files IH]; intros s key Hs; simpl.
  - split; [|done]. destruct (s.1 !! key) as [v|] eqn:E.
    + by rewrite (Hs v).
    + by destruct (_ && _).
  - set (s1 := loadFile ps envDir s file).
    assert (H1 : s1.1 !! key =
              match s.1 !! key with
              | Some v => Some v
              | None =>
                  if Config.exposed ps key && negb (inherited key)
                  then envFile envDir file ≫=
                         (λ parsed, JsMap.get parsed key)
                  else None
              end ∧
              ∀ k, k ≠ "VITE_USER_NODE_ENV" →
                JsMap.get s1.2 k = JsMap.get s.2 k).
    { unfold s1, Config.loadFile.
      destruct (envFile envDir file) as [parsed|]; simpl.
      - destruct (foldl_loadEntry ps parsed s) as [E1 E2].
        rewrite E1, foldl_exposeEntry. done.
      - split; [|done]. destruct (s.1 !! key); [done|]. by destruct (_ && _). }
    destruct H1 as [H1 H2].
    destruct (IH s1 key) as [K1 K2].
    { intros v. rewrite H1. destruct (s.1 !! key) as [v0|] eqn:E.
      - intros _. by apply (Hs v0).
      - by destruct (_ && _). }
    split.
    + rewrite K1, H1. destruct (_ && _) eqn:Hx; [|done].
      by destruct (s.1 !! key).
    + intros k Hk. rewrite K2 by done. by apply H2.
Qed.

(** The state after the loops of [loadEnv]. *)
Lemma loadEnv_loops ps process_env mode envDir :
  let s := foldl (loadFile ps envDir)
             (foldl (exposeEntry ps) ∅ process_env, process_env)
             (Config.envFiles mode) in
  (∀ key,
     s.1 !! key =
     if Config.exposed ps key && negb (inherited key)
     then Config.first_of (Config.sources envFile process_env mode envDir key)
     else None) ∧
  (∀ key, key ≠ "VITE_USER_NODE_ENV" →
          JsMap.get s.2 key = JsMap.get process_env key).
Proof.
  intros s.
  set (env0 := foldl (exposeEntry ps) ∅ process_env) in *.
  assert (H0 : ∀ key, env0 !! key =
            if Config.exposed ps key && negb (inherited key)
            then JsMap.get process_env key else None).
  { intros key. unfold env0. rewrite foldl_exposeEntry.
    by rewrite lookup_empty. }
  assert (H1 : ∀ key v, (env0, process_env).1 !! key = Some v →
            Config.exposed ps key && negb (inherited key) = true).
  { simpl. intros key v. rewrite H0. by destruct (_ && _). }
  split.
  - intros key.
    destruct (foldl_loadFile ps envDir (Config.envFiles mode)
                (env0, process_env) key (H1 key)) as [K1 _].
    unfold s. rewrite K1. unfold Config.sources. simpl. rewrite H0.
    by destruct (_ && _).
  - intros key Hkey.
    destruct (foldl_loadFile ps envDir (Config.envFiles mode)
                (env0, process_env) key (H1 key)) as [_ K2].
    by apply K2.
Qed.

Lemma first_of_elem l v : Config.first_of l = Some v → Some v ∈ l.
Proof.
  induction l as [|[w|] l IH]; simpl; [done| |].
  - intros [= ->]. by left.
  - intros Hl. right. by apply IH.
Qed.

(** X24 (where the variables of [loadEnv] come from).  For a mode other
    than [local], [loadEnv] returns.  The object returned has a variable
    exactly if its name starts with one of the prefixes (and is not the
    name of an inherited property) and the process or one of the four env
    files of the mode defines it; its value is the first one defined, in
    this order: the process, [.env.mode.local], [.env.mode], [.env.local],
    [.env].  Of the variables of the process the call changes none but
    [VITE_USER_NODE_ENV]. *)
Theorem loadEnv_precedence process_env mode envDir prefixes :
  mode ≠ "local" →
  ∃ env penv,
    loadEnv process_env mode envDir prefixes = Config.returns (env, penv) ∧
    (∀ key,
       env !! key =
       if Config.exposed (arraify (default (inl "VITE_") prefixes)) key &&
          negb (inherited key)
       then Config.first_of (Config.sources envFile process_env mode envDir key)
       else None) ∧
    (∀ key, key ≠ "VITE_USER_NODE_ENV" →
            JsMap.get penv key = JsMap.get process_env key).
Proof.
  intros Hmode. unfold Config.loadEnv.
  rewrite (bool_decide_eq_false_2 (mode = "local")) by done. cbv zeta.
  eexists _, _. split; [by rewrite <- surjective_pairing|].
  apply loadEnv_loops.
Qed.

(** X25 (no variable without a prefix).  Let [resolveEnvPrefix] return
    the prefixes of a configuration (it throws if one of them is the empty
    string) and let [loadEnv] be called with them, as [resolveConfig]
    does.  Then every variable of the object that [loadEnv] returns
    starts with one of these prefixes, none of which is empty, and its
    value is one that the process or an env file of the mode gives to
    that name. *)
Theorem loadEnv_exposes_prefixed_only process_env mode envDir envPrefix ps
    env penv :
  (∀ l, arraify (inr l) = l) →
  resolveEnvPrefix envPrefix = Config.returns ps →
  loadEnv process_env mode envDir (Some (inr ps)) =
    Config.returns (env, penv) →
  ∀ key value, env !! key = Some value →
    (∃ prefix, prefix ∈ ps ∧ prefix ≠ "" ∧
               Config.startsWith key prefix = true) ∧
    Some value ∈ Config.sources envFile process_env mode envDir key.
Proof.
  intros Harr Hps Hload key value Hkey.
  unfold Config.loadEnv in Hload. case_bool_decide as Hmode; [done|].
  cbv zeta in Hload.
  match type of Hload with
  | Config.returns ?s = _ => assert (s = (env, penv)) as Hs by congruence
  end.
  clear Hload. rename Hs into Hload.
  destruct (loadEnv_loops (arraify (default (inl "VITE_") (Some (inr ps))))
              process_env mode envDir) as [K _].
  cbv zeta in K. rewrite Hload in K. specialize (K key).
  change (default _ (Some ?x)) with x in K. cbn [fst] in K.
  rewrite Harr, Hkey in K.
  destruct (Config.exposed ps key) eqn:Hx; [|done].
  destruct (inherited key); [done|]. simpl in K.
  split; [|by apply first_of_elem].
  unfold Config.exposed in Hx. apply existsb_exists in Hx.
  destruct Hx as (prefix & Hin & Hsw).
  exists prefix. split; [by apply list_elem_of_In|]. split; [|done].
  intros ->. unfold Config.resolveEnvPrefix in Hps. cbv zeta in Hps.
  destruct (existsb _ _) eqn:Hex; [done|].
  injection Hps as Hps. rewrite Hps in Hex.
  assert (existsb (λ prefix, bool_decide (prefix = "")) ps = true) as Ht; [|congruence].
  apply existsb_exists. exists "". split; [done|]. by apply bool_decide_eq_true_2.
Qed.

Lemma JsMap_get_snoc {V} (m : list (string * V)) k0 v0 k :
  JsMap.get (m ++ [(k0, v0)]) k =
  match JsMap.get m k with
  | Some v => Some v
  | None => if bool_decide (k0 = k) then Some v0 else None
  end.
Proof.
  induction m as [|[k1 v1] m IH]; simpl; [done|].
  by destruct (bool_decide (k1 = k)).
Qed.

Lemma JsMap_get_None {V} (m : list (string * V)) k :
  k ∉ m.*1 → JsMap.get m k = None.
Proof.
  induction m as [|[k1 v1] m IH]; simpl; [done|].
  rewrite not_elem_of_cons. intros [Hne Hk].
  rewrite bool_decide_eq_false_2 by done. by apply IH.
Qed.

(** [VITE_USER_NODE_ENV] after the entries of an env file, when
    [NODE_ENV] is not exposed. *)
Lemma foldl_loadEntry_node_env ps l : ∀ s,
  Config.exposed ps "NODE_ENV" = false →
  NoDup l.*1 →
  JsMap.get (foldl (loadEntry ps) s l).2 "VITE_USER_NODE_ENV" =
  match JsMap.get l "NODE_ENV" with
  | Some v => Some v
  | None => JsMap.get s.2 "VITE_USER_NODE_ENV"
  end.
Proof.
  intros s Hx. induction l as [|[k v] l IH] using rev_ind; [done|].
  rewrite fmap_app, NoDup_app. simpl. intros (Hl & Hk & _).
  rewrite foldl_app, JsMap_get_snoc. simpl.
  unfold Config.loadEntry at 1. cbn [fst snd].
  destruct (decide (k = "NODE_ENV")) as [->|Hne].
  - rewrite Hx, andb_false_l.
    rewrite (bool_decide_eq_true_2 ("NODE_ENV" = "NODE_ENV")) by done.
    cbn [fst snd]. rewrite JsMap_get_set_eq.
    rewrite JsMap_get_None; [done|].
    intros Hin. apply (Hk _ Hin). by left.
  - rewrite (bool_decide_eq_false_2 (k = "NODE_ENV")) by done.
    transitivity
      (JsMap.get (foldl (loadEntry ps) s l).2 "VITE_USER_NODE_ENV").
    + by destruct (_ && _).
    + rewrite (IH Hl). by destruct (JsMap.get l "NODE_ENV").
Qed.

(** X27 ([NODE_ENV] in env files).  Let [NODE_ENV] start with none of
    the prefixes, as with the default prefix [VITE_].  After [loadEnv]
    the variable [VITE_USER_NODE_ENV] of the process has the value of
    [NODE_ENV] in the last env file that defines it, in the order in
    which the files are read: [.env] comes before [.env.local], that
    before [.env.mode], that before [.env.mode.local], the other way
    round than for the variables that are exposed.  If no env file
    defines [NODE_ENV], the variable is as it was. *)
Theorem loadEnv_node_env process_env mode envDir prefixes env penv :
  (∀ file parsed, envFile envDir file = Some parsed → NoDup parsed.*1) →
  Config.exposed (arraify (default (inl "VITE_") prefixes)) "NODE_ENV"
    = false →
  loadEnv process_env mode envDir prefixes = Config.returns (env, penv) →
  JsMap.get penv "VITE_USER_NODE_ENV" =
  Config.first_of
    [ Config.fileValue envFile envDir ".env" "NODE_ENV";
      Config.fileValue envFile envDir ".env.local" "NODE_ENV";
      Config.fileValue envFile envDir (".env." +:+ mode) "NODE_ENV";
      Config.fileValue envFile envDir (".env." +:+ mode +:+ ".local")
        "NODE_ENV";
      JsMap.get process_env "VITE_USER_NODE_ENV" ].
Proof.
  intros Hnd Hx Hload.
  unfold Config.loadEnv in Hload. case_bool_decide as Hmode; [done|].
  cbv zeta in Hload.
  match type of Hload with
  | Config.returns ?s = _ => assert (s = (env, penv)) as Hs by congruence
  end.
  clear Hload.
  set (ps := arraify (default (inl "VITE_") prefixes)) in *.
  assert (Hfile : ∀ s file,
    JsMap.get (loadFile ps envDir s file).2 "VITE_USER_NODE_ENV" =
    match Config.fileValue envFile envDir file "NODE_ENV" with
    | Some v => Some v
    | None => JsMap.get s.2 "VITE_USER_NODE_ENV"
    end).
  { intros s file. unfold Config.loadFile, Config.fileValue.
    destruct (envFile envDir file) as [parsed|] eqn:E; [|done]. simpl.
    apply foldl_loadEntry_node_env; [done|]. by apply (Hnd file). }
  unfold Config.envFiles in Hs. cbn [foldl] in Hs.
  apply (f_equal snd) in Hs. cbn [snd] in Hs. rewrite <- Hs.
  rewrite !Hfile. cbn [Config.first_of snd].
  repeat (destruct (Config.fileValue _ _ _ _); [done|]).
  by destruct (JsMap.get process_env _).
Qed.

End EnvProperties.


(** * Worked examples, on the sample project *)

#[local] Existing Instance Sample.imports.

(** Decidable facts and equations between plain data are computed. *)
Ltac by_compute := apply (bool_decide_unpack _); vm_compute; exact I.
Ltac compute_eq := vm_compute; reflexivity.

Lemma run_default cs g :
  is_Some (run Sample.resolveId cs g) →
  run Sample.resolveId cs g =
  Some (default new_ModuleGraph (run Sample.resolveId cs g)).
Proof. by intros [g' ->]. Qed.

Lemma reachable_cycle : reachable Sample.resolveId Sample.cycle.
Proof.
  apply (reachable_run Sample.resolveId Sample.cycle_calls new_ModuleGraph);
    [apply reachable_new|].
  apply run_default. by_compute.
Qed.

Lemma quiet_cycle : reachable_without_throw Sample.resolveId Sample.cycle.
Proof.
  apply (reachable_without_throw_run Sample.resolveId Sample.cycle_calls
           new_ModuleGraph); [apply quiet_new|].
  rewrite run_without_throw_run by by_compute.
  apply run_default. by_compute.
Qed.

Lemma reachable_project : reachable Sample.resolveId Sample.project.
Proof.
  apply (reachable_run Sample.resolveId Sample.project_calls new_ModuleGraph);
    [apply reachable_new|].
  apply run_default. by_compute.
Qed.

Lemma quiet_project : reachable_without_throw Sample.resolveId Sample.project.
Proof.
  apply (reachable_without_throw_run Sample.resolveId Sample.project_calls
           new_ModuleGraph); [apply quiet_new|].
  rewrite run_without_throw_run by by_compute.
  apply run_default. by_compute.
Qed.

Lemma reachable_file_only : reachable Sample.resolveId Sample.file_only.
Proof.
  apply (reachable_run Sample.resolveId [CreateFileOnlyEntry "/src/b.css"]
           new_ModuleGraph); [apply reachable_new|].
  reflexivity.
Qed.

(** The cycle is reachable without a throw: its edges are symmetric. *)
Lemma edge_symmetry_invariant_witness :
  reachable Sample.resolveId Sample.cycle ∧
  imports_mirrored Sample.cycle ∧ edge_symmetric Sample.cycle.
Proof.
  split; [exact reachable_cycle|].
  pose proof (edge_symmetry_invariant Sample.resolveId Sample.cycle
                reachable_cycle) as (K1 & K2 & _).
  split; [exact K1|exact (K2 quiet_cycle)].
Defined.

(** C1 (edge symmetry, where the code breaks it).  [main.js] imports
    [a.js] and [b.js], and the edges of the project are symmetric.
    [updateModuleInfo(main.js, {'mailto:x.js'}, ...)] throws a [TypeError]
    in [resolveUrl]: [url.parse] gives [mailto:x.js] no path, and its
    extension is [.js].  By then [main.js.importedModules] has been
    emptied, and the loop that takes [main.js] out of the importers of its
    previous imports has not run: in the graph the call leaves, [a.js]
    has [main.js] as importer and [main.js] does not import [a.js]. *)
Theorem throwing_update_breaks_symmetry :
  reachable Sample.resolveId Sample.project ∧
  edge_symmetric Sample.project ∧
  call_ok Sample.project Sample.broken_import ∧
  (updateModuleInfo Sample.resolveId 0 [inl "mailto:x.js"] [] false false
     Sample.project).1 = thrown TypeError ∧
  step Sample.resolveId Sample.broken_import Sample.project =
    Some Sample.project_broken ∧
  reachable Sample.resolveId Sample.project_broken ∧
  importedModulesOf Sample.project_broken 0 = [] ∧
  importersOf Sample.project_broken 1 = [0] ∧
  ¬ edge_symmetric Sample.project_broken.
Proof.
  assert (Hok : call_ok Sample.project Sample.broken_import).
  { apply call_okb_spec. compute_eq. }
  assert (Hstep : step Sample.resolveId Sample.broken_import Sample.project =
                  Some Sample.project_broken) by reflexivity.
  assert (H0 : importedModulesOf Sample.project_broken 0 = [])
    by compute_eq.
  assert (H1 : importersOf Sample.project_broken 1 = [0]) by compute_eq.
  split_and!.
  - exact reachable_project.
  - exact (reachable_without_throw_symmetric Sample.resolveId Sample.project
             quiet_project).
  - exact Hok.
  - compute_eq.
  - exact Hstep.
  - exact (reachable_step Sample.resolveId Sample.project
             Sample.broken_import Sample.project_broken reachable_project
             Hok Hstep).
  - exact H0.
  - exact H1.
  - intros Hs. specialize (Hs 1 0). rewrite H0, H1 in Hs.
    destruct Hs as [_ Hs]. specialize (Hs ltac:(by left)).
    by apply elem_of_nil in Hs.
Qed.

(** A file-only entry is a node of the graph that is in neither the url
    index nor the id index; asking for its url then makes a second node
    with the same url. *)
Lemma file_only_entry_not_indexed :
  reachable Sample.resolveId Sample.file_only ∧
  ¬ every_node_indexed Sample.file_only ∧
  let g2 := (ensureEntryFromUrl Sample.resolveId "/@fs//src/b.css" false
               Sample.file_only).2 in
  reachable Sample.resolveId g2 ∧ ¬ one_node_per_url g2.
Proof.
  split; [exact reachable_file_only|]. split.
  - intros Hall.
    assert (E : id <$> nodes Sample.file_only !! 0 = Some None)
      by compute_eq.
    destruct (nodes Sample.file_only !! 0) as [n|] eqn:En; [|discriminate E].
    destruct (Hall 0 n En) as (_ & (i & Hid & _) & _).
    simpl in E. rewrite Hid in E. discriminate E.
  - intros g2. split.
    + apply (reachable_step Sample.resolveId Sample.file_only
               (EnsureEntryFromUrl "/@fs//src/b.css" false));
        [exact reachable_file_only|exact I|reflexivity].
    + intros Hone.
      assert (E0 : url <$> nodes g2 !! 0 = Some "/@fs//src/b.css")
        by compute_eq.
      assert (E1 : url <$> nodes g2 !! 1 = Some "/@fs//src/b.css")
        by compute_eq.
      destruct (nodes g2 !! 0) as [n0|] eqn:En0; [|discriminate E0].
      destruct (nodes g2 !! 1) as [n1|] eqn:En1; [|discriminate E1].
      injection E0 as E0. injection E1 as E1.
      assert (E : 0 = 1); [|discriminate E].
      apply (Hone 0 1 n0 n1 En0 En1). by rewrite E0, E1.
Qed.

Lemma index_consistency_invariant_witness :
  reachable Sample.resolveId Sample.file_only ∧
  index_consistent Sample.file_only.
Proof.
  split; [exact reachable_file_only|].
  exact (proj1 (index_consistency_invariant Sample.resolveId Sample.file_only
                  reachable_file_only)).
Defined.


Example orphan_returned :
  (updateModuleInfo Sample.resolveId 0 [inl "/src/a.js"] [] false false
     Sample.project).1 = returned (Some [2]).
Proof. compute_eq. Qed.

(** When [b.js] keeps another importer nothing is returned. *)
Example no_orphan_returns_undefined :
  let g := (updateModuleInfo Sample.resolveId 1 [inr 2] [] false false
              Sample.project).2 in
  (updateModuleInfo Sample.resolveId 0 [inl "/src/a.js"] [] false false g).1
  = returned None.
Proof. compute_eq. Qed.

(** Invalidating [a.js] in the cycle: all of [a.js], [c.js], [b.js] lose
    their SSR module, only [a.js] loses its transform results, and
    [main.js], which nothing reaches, keeps everything. *)
Lemma ssr_cascade_frame_witness :
  importers_closed Sample.cycle_served ∧ allocated Sample.cycle_served 0 ∧
  ∃ s', invalidateModule 0 (fresh_sweep Sample.cycle_served) = Some s' ∧
    ∀ h n, nodes Sample.cycle_served !! h = Some n →
      ∃ n', nodes (graph s') !! h = Some n' ∧
        (h = 0 → n' = set_ssrModule None (clearCaches n)) ∧
        (h ≠ 0 → imported_by Sample.cycle_served 0 h →
         n' = set_ssrModule None n) ∧
        (¬ imported_by Sample.cycle_served 0 h → n' = n).
Proof.
  assert (H1 : importers_closed Sample.cycle_served) by by_compute.
  assert (H2 : allocated Sample.cycle_served 0) by by_compute.
  split; [exact H1|]. split; [exact H2|].
  destruct (ssr_cascade_frame Sample.cycle_served 0 H1 H2)
    as (s' & E & _ & _ & _ & _ & Hnodes).
  exists s'. split; [exact E|exact Hnodes].
Defined.

Example importer_keeps_transformResult :
  let g' := graph <$> invalidateModule 0 (fresh_sweep Sample.cycle_served) in
  (λ g, (λ n, (transformResult n, ssrTransformResult n, ssrModule n))
        <$> nodes g) <$> g'
  = Some [(None, None, None);
          (Some "code", Some "ssr code", None);
          (Some "code", Some "ssr code", None);
          (Some "code", Some "ssr code", Some "exports")].
Proof. compute_eq. Qed.

(** On the cycle the cascade returns and visits [a.js], [c.js], [b.js]
    once each. *)
Lemma cascade_terminates_visits_once_witness :
  store_closed Sample.cycle_served ∧
  ∃ s', invalidateModule 0 (fresh_sweep Sample.cycle_served) = Some s' ∧
        NoDup (visits s') ∧ seen s' = visits s' ∧
        ∀ x, x ∈ visits s' ↔ imported_by Sample.cycle_served 0 x.
Proof.
  assert (H1 : store_closed Sample.cycle_served) by by_compute.
  split; [exact H1|].
  assert (H2 : allocated Sample.cycle_served 0) by by_compute.
  destruct (cascade_terminates_visits_once Sample.cycle_served H1)
    as (Hone & _ & _).
  exact (Hone 0 H2).
Defined.

Example cycle_visits :
  visits <$> invalidateModule 0 (fresh_sweep Sample.cycle_served)
  = Some [0; 2; 1].
Proof. compute_eq. Qed.

Example invalidateAll_visits :
  visits <$> invalidateAll Sample.cycle_served = Some [0; 2; 1; 3].
Proof. compute_eq. Qed.

(** The sample server has no client; the scenario of the claim. *)
Lemma buffered_error_delivery_witness :
  let w := Ws.createWebSocketServer in
  let w1 := Ws.send Sample.stringify (Ws.Error Sample.compile_error) w in
  let w2 := Ws.connection Sample.stringify w1 in
  Ws.clients w = [] ∧
  Ws.bufferedError w1 = Some (Ws.Error Sample.compile_error) ∧
  Ws.received <$> Ws.clients w2 =
    [["connected"; "error: Unexpected token"]] ∧
  Ws.bufferedError w2 = None.
Proof.
  intros w w1 w2.
  assert (H1 : Ws.clients w = []) by reflexivity.
  split; [exact H1|].
  destruct (buffered_error_delivery Sample.stringify w Sample.compile_error H1)
    as (_ & K2 & K3 & K4 & _).
  split; [exact K2|]. split; [|exact K4].
  fold w1 w2 in K3. rewrite K3. reflexivity.
Defined.

(** The second client to connect is not left without message: it is sent
    [connected]. *)
Lemma second_connection_is_greeted :
  let w1 := Ws.send Sample.stringify (Ws.Error Sample.compile_error)
              Ws.createWebSocketServer in
  let w3 := Ws.connection Sample.stringify
              (Ws.connection Sample.stringify w1) in
  ∃ second, Ws.clients w3 !! 1 = Some second ∧
            Ws.received second = ["connected"] ∧
            Ws.received second ≠ [].
Proof. eexists. split_and!; [reflexivity|reflexivity|discriminate]. Qed.

(** [/src/style] and [/src/style.css] are two spellings of one module. *)
Lemma url_spellings_converge_witness :
  let r := {| PartialResolvedId.id := "/root/src/style.css";
              PartialResolvedId.meta := None |} in
  Sample.resolveId "/src/style" false = Some r ∧
  Sample.resolveId "/src/style.css" false = Some r ∧
  canonical Sample.resolveId "/src/style" false = Some "/src/style.css" ∧
  canonical Sample.resolveId "/src/style.css" false = Some "/src/style.css" ∧
  let e1 := ensureEntryFromUrl Sample.resolveId "/src/style" false
              Sample.project in
  ensureEntryFromUrl Sample.resolveId "/src/style.css" false e1.2 = e1.
Proof.
  intros r.
  assert (H1 : Sample.resolveId "/src/style" false = Some r) by reflexivity.
  assert (H2 : Sample.resolveId "/src/style.css" false = Some r)
    by reflexivity.
  split; [exact H1|]. split; [exact H2|].
  assert (H3 : PartialResolvedId.id r ≠ "") by discriminate.
  assert (H4 : extname (cleanUrl (PartialResolvedId.id r)) = ".css")
    by compute_eq.
  assert (H5 : pathname (parseUrl
                 (removeImportQuery (removeTimestampQuery "/src/style")))
               = Some "/src/style") by compute_eq.
  assert (H6 : pathname (parseUrl
                 (removeImportQuery (removeTimestampQuery "/src/style.css")))
               = Some "/src/style.css") by compute_eq.
  assert (H7 : endsWith "/src/style" ".css" = false) by compute_eq.
  assert (H8 : endsWith "/src/style.css" ".css" = true) by compute_eq.
  destruct (url_spellings_converge Sample.resolveId Sample.project
              "/src/style" "/src/style.css" false r r "/src/style"
              "/src/style.css" H1 H2 eq_refl H3 H4 H5 H6 H7 H8 eq_refl)
    as (C1 & C2 & h & _ & E & _).
  split; [exact C1|]. split; [exact C2|exact E].
Defined.

(** C7 (the two spellings of a url, where the code parts them).  The
    resolver maps [/src/my style] and [/src/my style.css] to the same
    identifier, which ends in [.css].  For the first, the extension step
    builds the canonical url from the path that [url.parse] gives, in
    which the space is escaped: [/src/my%20style.css].  The second ends in
    [.css] already and is left as it is.  The two canonical urls differ:
    [ensureEntryFromUrl] makes two nodes, and [getModuleByUrl] finds one
    for each spelling. *)
Theorem spaced_spellings_diverge :
  let r := {| PartialResolvedId.id := "/root/src/my style.css";
              PartialResolvedId.meta := None |} in
  let e1 := ensureEntryFromUrl Samples.resolveSpaced "/src/my style" false
              new_ModuleGraph in
  let e2 := ensureEntryFromUrl Samples.resolveSpaced "/src/my style.css"
              false e1.2 in
  Samples.resolveSpaced "/src/my style" false = Some r ∧
  Samples.resolveSpaced "/src/my style.css" false = Some r ∧
  extname (cleanUrl (PartialResolvedId.id r)) = ".css" ∧
  resolveUrl Samples.resolveSpaced "/src/my style" false =
    returned ("/src/my%20style.css", "/root/src/my style.css", None) ∧
  resolveUrl Samples.resolveSpaced "/src/my style.css" false =
    returned ("/src/my style.css", "/root/src/my style.css", None) ∧
  canonical Samples.resolveSpaced "/src/my style" false ≠
    canonical Samples.resolveSpaced "/src/my style.css" false ∧
  e1.1 = returned 0 ∧ e2.1 = returned 1 ∧
  length (nodes e2.2) = 2 ∧
  (getModuleByUrl Samples.resolveSpaced "/src/my style" false e2.2).1 =
    returned (Some 0) ∧
  (getModuleByUrl Samples.resolveSpaced "/src/my style.css" false e2.2).1 =
    returned (Some 1).
Proof.
  intros r e1 e2. split_and!; try compute_eq.
  vm_compute. discriminate.
Qed.



(** [main.js] importing itself, by node and by url. *)
Lemma self_import_witness :
  let r := updateModuleInfo Sample.resolveId 0
             [inl "/src/a.js"; inl "/src/main.js"] [] false false
             Sample.project in
  allocated Sample.project 0 ∧
  denotes Sample.resolveId Sample.project false 0 (inl "/src/main.js") ∧
  Forall (resolves Sample.resolveId false)
    ([inl "/src/a.js"; inl "/src/main.js"] ++ []) ∧
  ∃ o, r.1 = returned o ∧
       0 ∈ importedModulesOf r.2 0 ∧ 0 ∈ importersOf r.2 0 ∧
       0 ∉ default [] o.
Proof.
  intros r.
  assert (H1 : allocated Sample.project 0) by by_compute.
  assert (H2 : denotes Sample.resolveId Sample.project false 0
                 (inl "/src/main.js")) by compute_eq.
  assert (H3 : inl "/src/main.js" ∈
                 [inl "/src/a.js"; inl "/src/main.js" : string + nat])
    by by_compute.
  assert (H4 : Forall (resolves Sample.resolveId false)
                 ([inl "/src/a.js"; inl "/src/main.js"] ++ []))
    by by_compute.
  split; [exact H1|]. split; [exact H2|]. split; [exact H4|].
  exact (self_import Sample.resolveId Sample.project 0
           [inl "/src/a.js"; inl "/src/main.js"] [] false false
           (inl "/src/main.js") H1 H3 H2 H4).
Defined.

(** The file-only node of [/src/b.css] has the url [/@fs//src/b.css]; given
    that url as import, [updateModuleInfo] makes a second node for it, and
    the file-only node does not import itself. *)
Lemma file_only_self_import :
  let r := updateModuleInfo Sample.resolveId 0 [inl "/@fs//src/b.css"] []
             false false Sample.file_only in
  allocated Sample.file_only 0 ∧
  url <$> nodes Sample.file_only !! 0
    = canonical Sample.resolveId "/@fs//src/b.css" false ∧
  r.1 = returned None ∧
  (0 ∉ importedModulesOf r.2 0) ∧ (0 ∉ importersOf r.2 0) ∧
  importedModulesOf r.2 0 = [1].
Proof.
  intros r. split_and!.
  - by_compute.
  - compute_eq.
  - compute_eq.
  - by_compute.
  - by_compute.
  - compute_eq.
Qed.

(** [main.js] given a url that makes [resolveUrl] throw, and then itself:
    the call throws before it comes to the second element. *)
Example self_import_not_reached :
  let r := updateModuleInfo Sample.resolveId 0 [inl "mailto:x.js"; inr 0] []
             false false Sample.project in
  r.1 = thrown TypeError ∧ 0 ∉ importedModulesOf r.2 0.
Proof. intros r. split; [compute_eq|by_compute]. Qed.

(** ** Further examples *)

(** [a.js] entered in a new graph. *)
Lemma new_entry_is_indexed_witness :
  let e := ensureEntryFromUrl Sample.resolveId "/src/a.js" false
             new_ModuleGraph in
  resolveUrl Sample.resolveId "/src/a.js" false =
    returned ("/src/a.js", "/root/src/a.js", None) ∧
  e.1 = returned 0 ∧
  (getModuleByUrl Sample.resolveId "/src/a.js" false e.2).1 =
    returned (Some 0) ∧
  (getModuleById "/root/src/a.js" e.2).1 = returned (Some 0) ∧
  ∃ s, (getModulesByFile "/root/src/a.js" e.2).1 = returned (Some s) ∧
       0 ∈ s.
Proof.
  intros e.
  assert (H1 : resolveUrl Sample.resolveId "/src/a.js" false =
                 returned ("/src/a.js", "/root/src/a.js", None))
    by compute_eq.
  assert (H2 : urlToModuleMap new_ModuleGraph !! "/src/a.js" = None)
    by reflexivity.
  assert (H3 : removeTimestampQuery "/root/src/a.js" = "/root/src/a.js")
    by compute_eq.
  destruct (new_entry_is_indexed Sample.resolveId new_ModuleGraph "/src/a.js"
              false _ _ _ H1 H2) as (K1 & _ & K3 & K4 & K5).
  split; [exact H1|]. split; [exact K1|]. split; [exact K3|].
  split; [exact (K4 H3)|exact K5].
Defined.

(** [a.js] entered under its url and under its [/@fs/] url. *)
Lemma same_id_latest_wins_witness :
  let e1 := ensureEntryFromUrl Samples.resolveFs "/src/a.js" false
              new_ModuleGraph in
  let e2 := ensureEntryFromUrl Samples.resolveFs "/@fs/root/src/a.js" false
              e1.2 in
  resolveUrl Samples.resolveFs "/src/a.js" false =
    returned ("/src/a.js", "/root/src/a.js", None) ∧
  resolveUrl Samples.resolveFs "/@fs/root/src/a.js" false =
    returned ("/@fs/root/src/a.js", "/root/src/a.js", None) ∧
  e1.1 = returned 0 ∧ e2.1 = returned 1 ∧
  (getModuleById "/root/src/a.js" e2.2).1 = returned (Some 1).
Proof.
  intros e1 e2.
  assert (H1 : resolveUrl Samples.resolveFs "/src/a.js" false =
                 returned ("/src/a.js", "/root/src/a.js", None))
    by compute_eq.
  assert (H2 : resolveUrl Samples.resolveFs "/@fs/root/src/a.js" false =
                 returned ("/@fs/root/src/a.js", "/root/src/a.js", None))
    by compute_eq.
  assert (H3 : "/src/a.js" ≠ "/@fs/root/src/a.js") by discriminate.
  assert (H4 : removeTimestampQuery "/root/src/a.js" = "/root/src/a.js")
    by compute_eq.
  destruct (same_id_latest_wins Samples.resolveFs new_ModuleGraph
              "/src/a.js" "/@fs/root/src/a.js" false _ _ _ _ _ H1 H2 H3
              eq_refl eq_refl H4) as (K1 & K2 & _ & _ & _ & _ & K7 & _).
  split; [exact H1|]. split; [exact H2|]. split; [exact K1|].
  split; [exact K2|exact K7].
Defined.

(** In the cycle every node is in the id index: [invalidateAll] clears
    them all. *)
Lemma invalidateAll_effect_witness :
  store_closed Sample.cycle_served ∧
  ∃ s', invalidateAll Sample.cycle_served = Some s' ∧
        length (nodes (graph s')) = length (nodes Sample.cycle_served).
Proof.
  assert (H1 : store_closed Sample.cycle_served) by by_compute.
  split; [exact H1|].
  destruct (invalidateAll_effect Sample.cycle_served H1)
    as (s' & E & _ & _ & _ & Hlen & _).
  exists s'. split; [exact E|exact Hlen].
Defined.

Lemma onFileChange_effect_witness :
  store_closed Sample.cycle_served ∧
  ∃ s', onFileChange "/root/src/a.js" Sample.cycle_served = Some s' ∧
        length (nodes (graph s')) = length (nodes Sample.cycle_served).
Proof.
  assert (H1 : store_closed Sample.cycle_served) by by_compute.
  split; [exact H1|].
  destruct (onFileChange_effect Sample.cycle_served "/root/src/a.js" H1)
    as (s' & E & _ & _ & _ & _ & Hlen & _).
  exists s'. split; [exact E|exact Hlen].
Defined.

(** A change of [a.js] in the cycle: [a.js] loses its transform results,
    [c.js] and [b.js] lose their SSR module only, [main.js] nothing. *)
Example onFileChange_cycle :
  (λ g, (λ n, (transformResult n, ssrModule n)) <$> nodes (graph g))
    <$> onFileChange "/root/src/a.js" Sample.cycle_served
  = Some [(None, None); (Some "code", None); (Some "code", None);
          (Some "code", Some "exports")].
Proof. compute_eq. Qed.

Example onFileChange_unknown_file :
  visits <$> onFileChange "/root/src/none.js" Sample.cycle_served = Some [].
Proof. compute_eq. Qed.

Lemma invalidateModule_idempotent_witness :
  importers_closed Sample.cycle_served ∧ allocated Sample.cycle_served 0 ∧
  ∃ s1 s2,
    invalidateModule 0 (fresh_sweep Sample.cycle_served) = Some s1 ∧
    invalidateModule 0 (fresh_sweep (graph s1)) = Some s2 ∧
    graph s2 = graph s1.
Proof.
  assert (H1 : importers_closed Sample.cycle_served) by by_compute.
  assert (H2 : allocated Sample.cycle_served 0) by by_compute.
  split; [exact H1|]. split; [exact H2|].
  exact (invalidateModule_idempotent Sample.cycle_served 0 H1 H2).
Defined.

(** [main.js] updated to import [a.js] twice, by url and by node, and to
    accept [b.js]. *)
Lemma updateModuleInfo_sets_witness :
  let r := updateModuleInfo Sample.resolveId 0
             [inl "/src/a.js"; inr 1; inl "/src/a.js"] [inr 2] true false
             Sample.project in
  allocated Sample.project 0 ∧
  Forall (resolves Sample.resolveId false)
    ([inl "/src/a.js"; inr 1; inl "/src/a.js"] ++ [inr 2]) ∧
  (∃ o, r.1 = returned o) ∧
  ∃ n, nodes r.2 !! 0 = Some n ∧ isSelfAccepting n = true ∧
       importedModules n =
         collect Sample.resolveId r.2 false
           [inl "/src/a.js"; inr 1; inl "/src/a.js"] ∧
       acceptedHmrDeps n = collect Sample.resolveId r.2 false [inr 2].
Proof.
  intros r.
  assert (H1 : allocated Sample.project 0) by by_compute.
  assert (H2 : Forall (resolves Sample.resolveId false)
                 ([inl "/src/a.js"; inr 1; inl "/src/a.js"] ++ [inr 2]))
    by by_compute.
  split; [exact H1|]. split; [exact H2|].
  pose proof (updateModuleInfo_sets Sample.resolveId Sample.project 0
                [inl "/src/a.js"; inr 1; inl "/src/a.js"] [inr 2] true
                false H1 H2) as (K1 & K2 & _).
  split; [exact K1|exact K2].
Defined.

Example updateModuleInfo_sets_example :
  let g' := (updateModuleInfo Sample.resolveId 0
               [inl "/src/a.js"; inr 1; inl "/src/a.js"] [inr 2] true false
               Sample.project).2 in
  importedModulesOf g' 0 = [1] ∧ acceptedHmrDepsOf g' 0 = [2].
Proof. split; compute_eq. Qed.

Lemma updateModuleInfo_idempotent_witness :
  let r := updateModuleInfo Sample.resolveId 0 [inl "/src/c.js"] [inr 1]
             true false Sample.project in
  reachable Sample.resolveId Sample.project ∧
  call_ok Sample.project
    (UpdateModuleInfo 0 [inl "/src/c.js"] [inr 1] true false) ∧
  Forall (resolves Sample.resolveId false) ([inl "/src/c.js"] ++ [inr 1]) ∧
  updateModuleInfo Sample.resolveId 0 [inl "/src/c.js"] [inr 1] true false
    r.2 = (returned None, r.2).
Proof.
  intros r.
  assert (H2 : call_ok Sample.project
            (UpdateModuleInfo 0 [inl "/src/c.js"] [inr 1] true false)).
  { apply call_okb_spec. compute_eq. }
  assert (H3 : Forall (resolves Sample.resolveId false)
                 ([inl "/src/c.js"] ++ [inr 1])) by by_compute.
  split; [exact reachable_project|]. split; [exact H2|]. split; [exact H3|].
  exact (proj2 (updateModuleInfo_idempotent Sample.resolveId Sample.project 0
                  [inl "/src/c.js"] [inr 1] true false reachable_project H2
                  H3)).
Defined.

(** The first call drops [a.js] and [b.js] and reports them. *)
Example updateModuleInfo_first_call :
  (updateModuleInfo Sample.resolveId 0 [inl "/src/c.js"] [inr 1] true false
     Sample.project).1 = returned (Some [1; 2]).
Proof. compute_eq. Qed.

(** [a.js] has an entry; no file-only entry is made for its file. *)
Lemma file_only_after_entry_witness :
  let e := ensureEntryFromUrl Sample.resolveId "/src/a.js" false
             new_ModuleGraph in
  resolveUrl Sample.resolveId "/src/a.js" false =
    returned ("/src/a.js", "/root/src/a.js", None) ∧
  cleanUrl "/root/src/a.js" = "/root/src/a.js" ∧
  normalizePath "/root/src/./a.js" = "/root/src/a.js" ∧
  ∃ h n, createFileOnlyEntry "/root/src/./a.js" e.2 = (returned h, e.2) ∧
         nodes e.2 !! h = Some n ∧
         (id n = Some "/root/src/a.js" ∨
          url n = FS_PREFIX +:+ "/root/src/a.js").
Proof.
  intros e.
  assert (H1 : resolveUrl Sample.resolveId "/src/a.js" false =
                 returned ("/src/a.js", "/root/src/a.js", None))
    by compute_eq.
  assert (H2 : cleanUrl "/root/src/a.js" = "/root/src/a.js") by compute_eq.
  assert (H3 : normalizePath "/root/src/./a.js" = "/root/src/a.js")
    by compute_eq.
  split; [exact H1|]. split; [exact H2|]. split; [exact H3|].
  exact (file_only_after_entry Sample.resolveId new_ModuleGraph "/src/a.js"
           false _ _ _ "/root/src/./a.js" H1 eq_refl H2 H3).
Defined.

Lemma graph_only_grows_witness :
  reachable Sample.resolveId Sample.project ∧
  call_ok Sample.project (UpdateModuleInfo 0 [] [] false false) ∧
  ∃ g', step Sample.resolveId (UpdateModuleInfo 0 [] [] false false)
          Sample.project = Some g' ∧
        grows Sample.project g' ∧
        length (nodes Sample.project) ≤ length (nodes g').
Proof.
  assert (H2 : call_ok Sample.project (UpdateModuleInfo 0 [] [] false false)).
  { apply call_okb_spec. compute_eq. }
  split; [exact reachable_project|]. split; [exact H2|].
  exact (graph_only_grows Sample.resolveId Sample.project
           (UpdateModuleInfo 0 [] [] false false) reachable_project H2).
Defined.

(** [main.js] updated to import nothing: [a.js] and [b.js] are reported,
    and are still nodes of the graph, found under their urls. *)
Example orphans_stay_registered :
  let r := updateModuleInfo Sample.resolveId 0 [] [] false false
             Sample.project in
  r.1 = returned (Some [1; 2]) ∧
  (getModuleByUrl Sample.resolveId "/src/a.js" false r.2).1 =
    returned (Some 1) ∧
  (getModuleByUrl Sample.resolveId "/src/b.js" false r.2).1 =
    returned (Some 2).
Proof. split_and!; compute_eq. Qed.

(** The same update with a url that makes [resolveUrl] throw: the graph
    the call leaves has lost no node and no key. *)
Example throwing_update_keeps_nodes :
  grows Sample.project Sample.project_broken ∧
  length (nodes Sample.project_broken) = length (nodes Sample.project).
Proof.
  split; [|compute_eq].
  exact (triple_left _ _ _ Sample.project
           (updateModuleInfo_grows Sample.resolveId 0 [inl "mailto:x.js"] []
              false false Sample.project) eq_refl).
Qed.

(** An update sent to nobody, and an error sent to a closing client. *)
Lemma send_dropped_witness :
  Ws.send Sample.stringify (Ws.Error Sample.compile_error) Samples.closing =
    Samples.closing ∧
  Ws.send Sample.stringify Samples.full_reload Ws.createWebSocketServer =
    Ws.createWebSocketServer.
Proof.
  split.
  - refine (proj1 (send_dropped Sample.stringify Samples.closing
                     (Ws.Error Sample.compile_error) _)).
    right. split; [discriminate|]. apply Forall_singleton. discriminate.
  - refine (proj1 (send_dropped Sample.stringify Ws.createWebSocketServer
                     Samples.full_reload _)).
    left. split; reflexivity.
Defined.

Lemma last_error_wins_witness :
  let w2 := Ws.send Sample.stringify (Ws.Error Samples.second_error)
              (Ws.send Sample.stringify (Ws.Error Sample.compile_error)
                 Ws.createWebSocketServer) in
  Ws.clients Ws.createWebSocketServer = [] ∧
  Ws.received <$> Ws.clients (Ws.connection Sample.stringify w2) =
    [["connected"; "error: Failed to resolve import"]].
Proof.
  intros w2. split; [reflexivity|].
  destruct (last_error_wins Sample.stringify Ws.createWebSocketServer
              Sample.compile_error Samples.second_error eq_refl)
    as (_ & K & _).
  fold w2 in K. rewrite K. reflexivity.
Defined.

(** Two payloads sent to one open client. *)
Lemma sendAll_in_order_witness :
  let w := Ws.connection Sample.stringify Ws.createWebSocketServer in
  Ws.clients w ≠ [] ∧
  Ws.received <$>
    Ws.clients (Ws.sendAll Sample.stringify
                  [Ws.Error Sample.compile_error; Samples.full_reload] w) =
    [["connected"; "error: Unexpected token"; "full-reload"]].
Proof.
  intros w.
  assert (H1 : Ws.clients w ≠ []) by discriminate.
  split; [exact H1|].
  destruct (sendAll_in_order Sample.stringify
              [Ws.Error Sample.compile_error; Samples.full_reload] w H1)
    as [_ K].
  rewrite K. reflexivity.
Defined.

(** The logger of the samples: colours as tags. *)
Local Abbreviation sample_call :=
  (Logger.call (Samples.tag "cyan") (Samples.tag "yellow")
     (Samples.tag "red") (Samples.tag "bold") (Samples.tag "dim")).

Local Abbreviation sample_calls :=
  (Logger.calls (Samples.tag "cyan") (Samples.tag "yellow")
     (Samples.tag "red") (Samples.tag "bold") (Samples.tag "dim")).

Local Abbreviation sample_output :=
  (Logger.output (Samples.tag "cyan") (Samples.tag "yellow")
     (Samples.tag "red") (Samples.tag "bold") (Samples.tag "dim")).

(** An error logged with a time stamp by a logger of level [info]. *)
Example error_is_formatted :
  Logger.out
    (sample_call (Samples.at_noon,
                  Logger.Err "boom" (Some Samples.with_error))
       (Samples.info_logger, Logger.initial_world)).2 =
  [Logger.Console Logger.console_error
     ["<dim>12:00:00</dim> <red><bold>[vite]</bold></red> boom"]].
Proof. vm_compute. reflexivity. Qed.

Lemma error_is_remembered_witness :
  Logger.err Samples.with_error = Some 7 ∧
  (1 ≤ Logger.thresh Samples.info_logger)%Z ∧
  Logger.hasErrorLogged
    (sample_calls [(Samples.at_noon, Logger.Info "ready" None)]
       (Logger.log_error (Samples.tag "cyan") (Samples.tag "yellow")
          (Samples.tag "red") (Samples.tag "bold") (Samples.tag "dim")
          Samples.at_noon "boom" (Some Samples.with_error)
          (Samples.info_logger, Logger.initial_world))).1 7 = true.
Proof.
  assert (H1 : Logger.err Samples.with_error = Some 7) by reflexivity.
  assert (H2 : (1 ≤ Logger.thresh Samples.info_logger)%Z) by (simpl; lia).
  split; [exact H1|]. split; [exact H2|].
  exact (proj1 (error_is_remembered (Samples.tag "cyan")
                  (Samples.tag "yellow") (Samples.tag "red")
                  (Samples.tag "bold") (Samples.tag "dim") Samples.at_noon
                  "boom" Samples.with_error 7
                  [(Samples.at_noon, Logger.Info "ready" None)]
                  Samples.info_logger Logger.initial_world H1) H2).
Defined.

(** The same message three times. *)
Lemma repeated_message_is_counted_witness :
  let s1 := sample_output Samples.at_noon Logger.info "hmr update"
              Logger.no_options
              (Samples.info_logger, Logger.initial_world) in
  let sk := foldl (λ s e, sample_output e Logger.info "hmr update"
                            Logger.no_options s) s1
              [Samples.at_noon; Samples.at_noon] in
  Logger.canClearScreen Samples.info_logger = true ∧
  Logger.sameCount sk.2 = 2 ∧
  last (Logger.out sk.2) =
    Some (Logger.Console Logger.console_log
            ["hmr update"; "<yellow>(x3)</yellow>"]).
Proof.
  intros s1 sk.
  assert (H1 : Logger.canClearScreen Samples.info_logger = true)
    by reflexivity.
  assert (H2 : (Logger.LogLevels (Logger.level Logger.info) ≤
                Logger.thresh Samples.info_logger)%Z) by (simpl; lia).
  assert (H3 : ¬ (Logger.lastType Logger.initial_world = Some Logger.info ∧
                  Logger.lastMsg Logger.initial_world = Some "hmr update"))
    by (intros [? _]; discriminate).
  destruct (repeated_message_is_counted (Samples.tag "cyan")
              (Samples.tag "yellow") (Samples.tag "red")
              (Samples.tag "bold") (Samples.tag "dim") Samples.at_noon
              [Samples.at_noon; Samples.at_noon] Logger.info "hmr update"
              Logger.no_options Samples.info_logger Logger.initial_world
              H1 H2 H3) as (K1 & _ & _ & K4).
  split; [exact H1|]. split; [exact K1|].
  exact (K4 Samples.at_noon eq_refl).
Defined.

Lemma hasWarned_iff_witness :
  Logger.createLogger (Custom := unit) Samples.tty (Some Logger.silent) None
    = inr {| Logger.thresh := 0; Logger.prefix := "[vite]";
             Logger.canClearScreen := true; Logger.loggedErrors := [];
             Logger.warnedMessages := []; Logger.hasWarned := false |} ∧
  Logger.hasWarned
    (sample_calls [(Samples.at_noon, Logger.Info "ready" None);
                   (Samples.at_noon, Logger.WarnOnce "deprecated" None)]
       ({| Logger.thresh := 0; Logger.prefix := "[vite]";
           Logger.canClearScreen := true; Logger.loggedErrors := [];
           Logger.warnedMessages := []; Logger.hasWarned := false |},
        Logger.initial_world)).1 = true.
Proof.
  split; [reflexivity|].
  refine (proj2 (hasWarned_iff (Samples.tag "cyan") (Samples.tag "yellow")
                   (Samples.tag "red") (Samples.tag "bold")
                   (Samples.tag "dim") (Custom := unit) Samples.tty
                   (Some Logger.silent) None _ _ Logger.initial_world
                   eq_refl) _).
  exists (Samples.at_noon, Logger.WarnOnce "deprecated" None).
  split; [|reflexivity]. right. left.
Defined.

(** A silent logger writes nothing, and has warned. *)
Example silent_logger_is_silent :
  Logger.out
    (sample_calls [(Samples.at_noon, Logger.Info "ready" None);
                   (Samples.at_noon, Logger.WarnOnce "deprecated" None);
                   (Samples.at_noon,
                    Logger.Err "boom" (Some Samples.with_error))]
       ({| Logger.thresh := 0; Logger.prefix := "[vite]";
           Logger.canClearScreen := true; Logger.loggedErrors := [];
           Logger.warnedMessages := []; Logger.hasWarned := false |},
        Logger.initial_world)).2 = [].
Proof. vm_compute. reflexivity. Qed.

(** Bases, with the external urls those that start with [http]. *)
Local Abbreviation sample_resolveBaseUrl :=
  (Config.resolveBaseUrl (λ s, Config.startsWith s "http")
     (λ _, Some "/app"%string) (Samples.tag "yellow") (Samples.tag "bold")).

Lemma resolveBaseUrl_warns_witness :
  Config.startsWith "/app/" "http" = false ∧
  sample_resolveBaseUrl (Some "/app/"%string) false = ("/app/"%string, []).
Proof.
  assert (H1 : (λ s, Config.startsWith s "http")
                 (default "/" (Some "/app/"%string)) = false)
    by (vm_compute; reflexivity).
  split; [exact H1|].
  exact (proj1 (resolveBaseUrl_warns (λ s, Config.startsWith s "http")
                  (λ _, Some "/app"%string) (Samples.tag "yellow")
                  (Samples.tag "bold") (Some "/app/"%string) false H1)
           eq_refl eq_refl).
Defined.

Example resolveBaseUrl_repairs :
  (sample_resolveBaseUrl (Some "app"%string) true).1 = "/app/"%string ∧
  length (sample_resolveBaseUrl (Some "app"%string) true).2 = 2 ∧
  sample_resolveBaseUrl (Some "http://cdn.example/app"%string) false =
    ("/app/"%string,
     [Samples.tag "yellow"
        (Samples.tag "bold"
           ("(!) " +:+ Config.quote +:+ "base" +:+ Config.quote +:+
            " option should end with a slash."))]) ∧
  sample_resolveBaseUrl (Some "./"%string) true = ("./"%string, []) ∧
  sample_resolveBaseUrl None false = ("/"%string, []).
Proof. split_and!; vm_compute; reflexivity. Qed.

Example sortUserPlugins_example :
  Config.sortUserPlugins _ snd (Some Samples.plugins) =
  ([("alias", Some Config.pre); ("inspect", Some Config.pre)],
   [("vue", None)],
   [("legacy", Some Config.post)])%string.
Proof. vm_compute. reflexivity. Qed.

Example mergeAlias_example :
  Config.mergeAlias unit
    (Some (inl [{| Config.find := inl "@/"%string;
                   Config.replacement := "/src/"%string |}]))
    (Some (inr [("~"%string, "/node_modules/"%string)])) =
  [{| Config.find := inl "@"%string; Config.replacement := "/src"%string |};
   {| Config.find := inl "~"%string;
      Config.replacement := "/node_modules/"%string |}].
Proof. vm_compute. reflexivity. Qed.

Example cleanOptions_example :
  Cli.cleanOptions
    (<["port" := "3000"]> (<["mode" := "dev"]> (<["--" := ""]> ∅)))
  = ({["port" := "3000"]} : gmap string string).
Proof.
  apply map_eq. intros k. rewrite cleanOptions_lookup.
  case_bool_decide as Hk.
  - rewrite lookup_singleton_ne; [done|]. intros <-.
    revert Hk. apply (bool_decide_unpack _). vm_compute. exact I.
  - unfold Cli.GlobalCLIOptions in Hk.
    rewrite !lookup_insert, lookup_singleton.
    repeat case_decide; try done; subst k; exfalso; apply Hk;
      apply (bool_decide_unpack _); vm_compute; exact I.
Qed.

(** [loadEnv] and [resolveEnvPrefix], on the env files of [/app]. *)

Lemma loadEnv_precedence_witness :
  "development" ≠ "local" ∧
  ∃ env penv,
    Config.loadEnv Samples.arraify Samples.env_files Samples.inherited
      Samples.process_env "development" "/app" None
    = Config.returns (env, penv) ∧
    (∀ key,
       env !! key =
       if Config.exposed (Samples.arraify (default (inl "VITE_") None)) key &&
          negb (Samples.inherited key)
       then Config.first_of
              (Config.sources Samples.env_files Samples.process_env
                 "development" "/app" key)
       else None) ∧
    (∀ key, key ≠ "VITE_USER_NODE_ENV" →
            JsMap.get penv key = JsMap.get Samples.process_env key).
Proof.
  assert (H1 : "development" ≠ "local") by discriminate.
  split; [exact H1|].
  exact (loadEnv_precedence Samples.arraify Samples.env_files
           Samples.inherited Samples.process_env "development" "/app" None H1).
Defined.

Example loadEnv_example :
  Config.loadEnv Samples.arraify Samples.env_files Samples.inherited
    Samples.process_env "development" "/app" None
  = Config.returns
      ({[ "VITE_PORT" := "3000"; "VITE_API" := "/dev-api";
          "VITE_TITLE" := "Local" ]},
       [("PATH", "/bin"); ("VITE_PORT", "3000");
        ("VITE_USER_NODE_ENV", "production")]).
Proof. vm_compute. reflexivity. Qed.

Example loadEnv_local_mode :
  ∃ message,
    Config.loadEnv Samples.arraify Samples.env_files Samples.inherited
      Samples.process_env "local" "/app" None
    = Config.throws message.
Proof. by eexists. Qed.

Example resolveEnvPrefix_empty :
  ∃ message,
    Config.resolveEnvPrefix Samples.arraify (Some (inr ["APP_"; ""]))
    = Config.throws message.
Proof. by eexists. Qed.

Lemma loadEnv_exposes_prefixed_only_witness :
  (∃ prefix, prefix ∈ ["VITE_"] ∧ prefix ≠ "" ∧
             Config.startsWith "VITE_API" prefix = true) ∧
  Some "/dev-api" ∈
    Config.sources Samples.env_files Samples.process_env
      "development" "/app" "VITE_API".
Proof.
  assert (H1 : ∀ l, Samples.arraify (inr l) = l) by reflexivity.
  assert (H2 : Config.resolveEnvPrefix Samples.arraify None
               = Config.returns ["VITE_"]) by reflexivity.
  assert (H3 : Config.loadEnv Samples.arraify Samples.env_files
                 Samples.inherited Samples.process_env "development" "/app"
                 (Some (inr ["VITE_"]))
               = Config.returns
                   ({[ "VITE_PORT" := "3000"; "VITE_API" := "/dev-api";
                       "VITE_TITLE" := "Local" ]},
                    [("PATH", "/bin"); ("VITE_PORT", "3000");
                     ("VITE_USER_NODE_ENV", "production")]))
    by (vm_compute; reflexivity).
  assert (H4 : ({[ "VITE_PORT" := "3000"; "VITE_API" := "/dev-api";
                   "VITE_TITLE" := "Local" ]} : gmap string string)
                 !! "VITE_API" = Some "/dev-api")
    by (vm_compute; reflexivity).
  exact (loadEnv_exposes_prefixed_only Samples.arraify Samples.env_files
           Samples.inherited Samples.process_env "development" "/app" None
           ["VITE_"] _ _ H1 H2 H3 "VITE_API" "/dev-api" H4).
Defined.

(** A logger made in continuous integration, and the same message twice. *)
Lemma logger_without_screen_witness :
  Logger.createLogger (Custom := unit)
    {| Logger.isTTY := true; Logger.CI := Some "true" |} None None
    = inr {| Logger.thresh := 3; Logger.prefix := "[vite]";
             Logger.canClearScreen := false; Logger.loggedErrors := [];
             Logger.warnedMessages := []; Logger.hasWarned := false |} ∧
  let w' :=
    (sample_calls [(Samples.at_noon, Logger.Info "ready" None);
                   (Samples.at_noon, Logger.Info "ready" None);
                   (Samples.at_noon, Logger.ClearScreen Logger.info)]
       ({| Logger.thresh := 3; Logger.prefix := "[vite]";
           Logger.canClearScreen := false; Logger.loggedErrors := [];
           Logger.warnedMessages := []; Logger.hasWarned := false |},
        Logger.initial_world)).2 in
  Logger.lastType w' = None ∧
  Logger.lastMsg w' = None ∧
  Logger.sameCount w' = 0 ∧
  ∃ lines,
    Logger.out w' = [] ++ lines ∧
    length lines ≤ 3 ∧
    Forall (λ ev, ∃ m line, ev = Logger.Console m [line]) lines.
Proof.
  split; [reflexivity|].
  exact (logger_without_screen (Custom := unit) (Samples.tag "cyan")
           (Samples.tag "yellow") (Samples.tag "red") (Samples.tag "bold")
           (Samples.tag "dim")
           {| Logger.isTTY := true; Logger.CI := Some "true" |} None None _
           [(Samples.at_noon, Logger.Info "ready" None);
            (Samples.at_noon, Logger.Info "ready" None);
            (Samples.at_noon, Logger.ClearScreen Logger.info)]
           Logger.initial_world eq_refl (or_intror (or_introl eq_refl))).
Defined.

Example logger_without_screen_example :
  Logger.out
    (sample_calls [(Samples.at_noon, Logger.Info "ready" None);
                   (Samples.at_noon, Logger.Info "ready" None);
                   (Samples.at_noon, Logger.ClearScreen Logger.info)]
       ({| Logger.thresh := 3; Logger.prefix := "[vite]";
           Logger.canClearScreen := false; Logger.loggedErrors := [];
           Logger.warnedMessages := []; Logger.hasWarned := false |},
        Logger.initial_world)).2
  = [Logger.Console Logger.console_log ["ready"];
     Logger.Console Logger.console_log ["ready"]].
Proof. vm_compute. reflexivity. Qed.

Lemma loadEnv_node_env_witness :
  JsMap.get [("PATH", "/bin"); ("VITE_PORT", "3000");
             ("VITE_USER_NODE_ENV", "production")] "VITE_USER_NODE_ENV" =
  Config.first_of
    [ Config.fileValue Samples.env_files "/app" ".env" "NODE_ENV";
      Config.fileValue Samples.env_files "/app" ".env.local" "NODE_ENV";
      Config.fileValue Samples.env_files "/app" (".env." +:+ "development")
        "NODE_ENV";
      Config.fileValue Samples.env_files "/app"
        (".env." +:+ "development" +:+ ".local") "NODE_ENV";
      JsMap.get Samples.process_env "VITE_USER_NODE_ENV" ].
Proof.
  assert (H1 : ∀ file parsed,
            Samples.env_files "/app" file = Some parsed → NoDup parsed.*1).
  { intros file parsed. unfold Samples.env_files.
    repeat case_bool_decide; intros [= <-];
      apply (bool_decide_unpack _); vm_compute; exact I. }
  assert (H2 : Config.exposed
                 (Samples.arraify (default (inl "VITE_") None)) "NODE_ENV"
               = false) by reflexivity.
  assert (H3 : Config.loadEnv Samples.arraify Samples.env_files
                 Samples.inherited Samples.process_env "development" "/app"
                 None
               = Config.returns
                   ({[ "VITE_PORT" := "3000"; "VITE_API" := "/dev-api";
                       "VITE_TITLE" := "Local" ]},
                    [("PATH", "/bin"); ("VITE_PORT", "3000");
                     ("VITE_USER_NODE_ENV", "production")]))
    by (vm_compute; reflexivity).
  exact (loadEnv_node_env Samples.arraify Samples.env_files
           Samples.inherited Samples.process_env "development" "/app" None
           _ _ H1 H2 H3).
Defined.
